(** * Multi-agent Sokoban planner: BDI agents, heuristics and the A* kernel

    A shallow embedding of [multi_sokoban/bdi.py], [multi_sokoban/heuristics.py]
    and [multi_sokoban/emergency_aStar.py].

    Python objects that are mutated in place are modelled by explicit state
    passing.  Exceptions are results of their own: a method of [Agent] is a
    function from the agent before the call to a result (a value or the
    exception raised) together with the agent after the call, so that what an
    exception leaves behind on the object stays visible. *)

From Stdlib Require Import ZArith List String Ascii Bool Lia Sorted Permutation.
Import ListNotations.

Local Open Scope string_scope.
Local Open Scope Z_scope.
Local Open Scope list_scope.

(** ** Exceptions and results *)

(** The exceptions the modelled code can raise.  [Blocked] is not a Python
    exception: it stands for [PriorityQueue.get()] waiting forever on an empty
    queue. *)
Inductive Exn : Type :=
| IndexError
| TypeError
| NameError
| ValueError
| AttributeError
| ResourceLimit
| IncorrectTask
| Blocked.

Inductive Res (A : Type) : Type :=
| Ok (a : A)
| Raise (e : Exn).

Arguments Ok {A} a.
Arguments Raise {A} e.

Definition Res_bind {A B : Type} (r : Res A) (k : A -> Res B) : Res B :=
  match r with
  | Ok a => k a
  | Raise e => Raise e
  end.

Declare Scope res_scope.
Delimit Scope res_scope with res.
Notation "x <~ r ;; k" := (Res_bind r (fun x => k))
  (at level 61, r at next level, right associativity) : res_scope.
Notation "' p <~ r ;; k" := (Res_bind r (fun x => match x with p => k end))
  (at level 61, p pattern, r at next level, right associativity) : res_scope.
Local Open Scope res_scope.

(** A computation on a mutable object of type [S]: the result and the object
    afterwards, whether or not an exception was raised. *)
Definition M (S A : Type) : Type := S -> Res A * S.

Definition ret {S A : Type} (a : A) : M S A := fun s => (Ok a, s).

Definition throw {S A : Type} (e : Exn) : M S A := fun s => (Raise e, s).

Definition bind {S A B : Type} (m : M S A) (k : A -> M S B) : M S B :=
  fun s =>
    match m s with
    | (Ok a, s') => k a s'
    | (Raise e, s') => (Raise e, s')
    end.

Definition get {S : Type} : M S S := fun s => (Ok s, s).

Definition modify {S : Type} (u : S -> S) : M S unit := fun s => (Ok tt, u s).

Definition lift {S A : Type} (r : Res A) : M S A := fun s => (r, s).

Declare Scope m_scope.
Delimit Scope m_scope with M.
Notation "x <- m ;; k" := (bind m (fun x => k))
  (at level 61, m at next level, right associativity) : m_scope.
Notation "' p <- m ;; k" := (bind m (fun x => match x with p => k end))
  (at level 61, p pattern, m at next level, right associativity) : m_scope.
Notation "m ;; k" := (bind m (fun _ => k))
  (at level 61, right associativity) : m_scope.

(** ** Python list and number helpers *)

(** [l[0]] *)
Definition item0 {A : Type} (l : list A) : Res A :=
  match l with
  | [] => Raise IndexError
  | x :: _ => Ok x
  end.

(** [min(l)] on integers; [ValueError] on the empty list. *)
Definition py_min (l : list Z) : Res Z :=
  match l with
  | [] => Raise ValueError
  | x :: xs => Ok (fold_left Z.min xs x)
  end.

(** [sum(l)] *)
Definition py_sum (l : list Z) : Z := fold_left Z.add l 0.

(** Python floats as far as the code uses them: integers and [float("inf")]. *)
Inductive Cost : Type :=
| Finite (z : Z)
| Inf.

(** [min(a, b)] *)
Definition Cost_min (a b : Cost) : Cost :=
  match a, b with
  | Finite x, Finite y => Finite (Z.min x y)
  | Finite x, Inf => Finite x
  | Inf, Finite y => Finite y
  | Inf, Inf => Inf
  end.

(** [a - z] for an integer [z] *)
Definition Cost_sub (a : Cost) (z : Z) : Cost :=
  match a with
  | Finite x => Finite (x - z)
  | Inf => Inf
  end.

(** [str.lower()] on ASCII strings *)
Definition lower_ascii (c : ascii) : ascii :=
  let n := nat_of_ascii c in
  if (Nat.leb 65 n && Nat.leb n 90)%bool then ascii_of_nat (n + 32) else c.

Fixpoint lower (s : string) : string :=
  match s with
  | EmptyString => EmptyString
  | String c r => String (lower_ascii c) (lower r)
  end.

(** ** Domain vocabulary and states *)

Definition Pos : Type := Z * Z.
Definition Color : Type := string.
Definition Key : Type := string.
Definition Action : Type := string.

(** A dict [key -> list[(position, color)]], in insertion order. *)
Definition Objects : Type := list (Key * list (Pos * Color)).

(** [t -> {object_key: position}], the overlay of a concurrent state. *)
Definition Overlay : Type := list (Z * list (Key * Pos)).

(** [(t, position)] entries *)
Definition Timeline : Type := list (Z * Pos).

(** [d[k] = v] on an insertion-ordered dict *)
Fixpoint dict_set {V : Type} (d : list (Z * V)) (k : Z) (v : V) : list (Z * V) :=
  match d with
  | [] => [(k, v)]
  | (k', v') :: r => if Z.eqb k' k then (k, v) :: r else (k', v') :: dict_set r k v
  end.

(** The attributes of a state that the modelled code reads or writes.
    [explored] holds the minimal representations; each is kept as the list of
    dicts that [eval] gives back.  [concurrent] is the overlay of a
    [StateConcurrent] and [None] on a plain [StateInit]. *)
Record StateInit : Type := mkState {
  map : list string;
  agents : Objects;
  boxes : Objects;
  goals : Objects;
  agentColor : list (Color * list Key);
  g : Z;
  h : Z;
  f : Z;
  explored : list (list Objects);
  t : Z;
  concurrent : option Overlay;
  parent_actions : list Action;
  currentPath : option (list (option (list Pos)));
  prevKeypoints : option (list (option (list Pos * list Pos)))
}.

Definition set_h (s : StateInit) (v : Z) : StateInit :=
  mkState (map s) (agents s) (boxes s) (goals s) (agentColor s) (g s) v (f s)
    (explored s) (t s) (concurrent s) (parent_actions s) (currentPath s)
    (prevKeypoints s).

Definition set_f (s : StateInit) (v : Z) : StateInit :=
  mkState (map s) (agents s) (boxes s) (goals s) (agentColor s) (g s) (h s) v
    (explored s) (t s) (concurrent s) (parent_actions s) (currentPath s)
    (prevKeypoints s).

Definition set_t (s : StateInit) (v : Z) : StateInit :=
  mkState (map s) (agents s) (boxes s) (goals s) (agentColor s) (g s) (h s) (f s)
    (explored s) v (concurrent s) (parent_actions s) (currentPath s)
    (prevKeypoints s).

Definition set_paths (s : StateInit) (cp : option (list (option (list Pos))))
  (kp : option (list (option (list Pos * list Pos)))) : StateInit :=
  mkState (map s) (agents s) (boxes s) (goals s) (agentColor s) (g s) (h s) (f s)
    (explored s) (t s) (concurrent s) (parent_actions s) cp kp.

(** The methods of [StateInit] and the class [StateConcurrent] live in
    [multi_sokoban/actions.py]; the code verified here only calls them.
    They are taken as parameters. *)
Class StateMethods : Type := {
  isGoalState : StateInit -> bool;
  explore : StateInit -> list StateInit;
  bestPath : StateInit -> list Action;
  bestPath_format : StateInit -> Key -> Timeline;
  Neighbour : StateInit -> Pos -> Pos -> bool;
  getGoalKeys : StateInit -> list Key;
  getGoalsByKey : StateInit -> Key -> list (Pos * Color);
  getBoxesByKey : StateInit -> Key -> list (Pos * Color);
  getAgentsByKey : StateInit -> Key -> list (Pos * Color);
  getAgentsByColor : StateInit -> Color -> list Key;
  addGoal : StateInit -> Key -> Pos -> Color -> StateInit;
  forget_exploration : StateInit -> StateInit;
  StateConcurrent : StateInit -> Overlay -> StateInit
}.

(** [utils.STATUS] *)
Module STATUS.
Inductive t : Type := ok | fail | init.

Definition eqb (a b : t) : bool :=
  match a, b with
  | ok, ok | fail, fail | init, init => true
  | _, _ => false
  end.
End STATUS.

(** ** Messages *)

Record Message : Type := mkMessage {
  object_problem : Key;
  msg_color : Color;
  requester : Key;
  msg_status : STATUS.t;
  time : option Timeline
}.

(** [Message.__init__] *)
Definition Message_init (object_problem : Key) (color : Color) (requester : Key)
  (status : STATUS.t) (time : option Timeline) : Res Message :=
  match status, time with
  | STATUS.ok, None => Raise IncorrectTask
  | _, _ => Ok (mkMessage object_problem color requester status time)
  end.

(** ** Heuristics and strategies, as the agent holds them *)

(** The heuristic classes of [heuristics.py]. *)
Inductive Heuristic : Type :=
| EasyRule
| WeightedRule (weight : string)
| GoAway
| dGraph.

(** What [Agent] uses of a strategy class ([multi_sokoban/strategy.py]):
    the constructor and the methods that [Agent.search] calls. *)
Record BestFirstSearch : Type := mkStrategy {
  searcher : Type;
  new : StateInit -> Heuristic -> Res searcher;
  leaf : searcher -> StateInit;
  count : searcher -> Z;
  explore_and_add : searcher -> Res searcher;
  frontier_empty : searcher -> bool;
  get_and_remove_leaf : searcher -> Res searcher;
  walk_best_path : searcher -> list Action
}.

(** The shortest-path query of [dGraph]: [findPathPart] runs networkx's
    bidirectional Dijkstra on the keypoint graph.  The graph library is outside
    the repository; the query is taken as a parameter.  It is given the pairs
    of end points ([self.poses]), the state and the index of the pair, and
    gives the path length and the state with its path caches updated. *)
Class PathQuery : Type := {
  findPathPart : list (Pos * Pos) -> StateInit -> nat -> Res (Z * StateInit)
}.

(** ** heuristics.py *)

Definition manha_dist (a b : Pos) : Z :=
  let '(x1, y1) := a in
  let '(x2, y2) := b in
  Z.abs (x1 - x2) + Z.abs (y1 - y2).

(** Truth value of an attribute that holds [False] or an object. *)
Definition nonempty_option {A : Type} (o : option A) : bool :=
  match o with
  | None => false
  | Some _ => true
  end.

(** [len(l) > 0] *)
Definition nonempty {A : Type} (l : list A) : bool :=
  match l with
  | [] => false
  | _ :: _ => true
  end.

(** The names bound at module level in [heuristics.py]: its imports, its
    function and its classes.  Methods are attributes of their class and are
    not among them. *)
Definition heuristics_globals : list string :=
  ["ABC"; "abstractmethod"; "List"; "np"; "nx"; "println"; "copy";
   "manha_dist"; "Heuristics"; "EasyRule"; "WeightedRule"; "GoAway"; "dGraph"].

(** Evaluating a bare name inside a method: it is neither a local nor a
    builtin, so it is looked up among the module's globals. *)
Definition global_name (n : string) : Res unit :=
  if existsb (String.eqb n) heuristics_globals then Ok tt else Raise NameError.

Section Heuristics.
Context {SM : StateMethods} {PQ : PathQuery}.

(** [for agent_key in agent_keys: ... agt_box_costs.append(scale * manha_dist(agentPos, box_pos))]
    ([scale] is 1 in [EasyRule] and [WeightedRule], -10 in [GoAway]). *)
Fixpoint agents_loop (scale : Z) (state : StateInit) (agent_keys : list Key)
  (box_pos : Pos) (agt_box_costs : list Z) : Res (list Z) :=
  match agent_keys with
  | [] => Ok agt_box_costs
  | agent_key :: rest =>
      entry <~ item0 (getAgentsByKey state agent_key) ;;
      let agentPos := fst entry in
      agents_loop scale state rest box_pos
        (agt_box_costs ++ [scale * manha_dist agentPos box_pos])
  end.

(** [if len(box_goal_costs) > 0: box_goal_cost += weight * min(box_goal_costs)] *)
Definition add_min (box_goal_cost : Z) (weight : Z) (box_goal_costs : list Z) : Z :=
  match box_goal_costs with
  | [] => box_goal_cost
  | x :: xs => box_goal_cost + fold_left Z.min xs x * weight
  end.

(** [if len(agt_box_costs) > 0: agt_box_cost += sum(agt_box_costs)] *)
Definition add_sum (agt_box_cost : Z) (agt_box_costs : list Z) : Z :=
  if nonempty agt_box_costs then agt_box_cost + py_sum agt_box_costs
  else agt_box_cost.

(** *** EasyRule *)

(** The loop over [box_params]; the accumulators are [box_goal_costs] and
    [agt_box_costs]. *)
Fixpoint EasyRule_boxes (state : StateInit) (goal_pos : Pos) (goal_color : Color)
  (box_params : list (Pos * Color)) (box_goal_costs agt_box_costs : list Z)
  : Res (list Z * list Z) :=
  match box_params with
  | [] => Ok (box_goal_costs, agt_box_costs)
  | (box_pos, _) :: rest =>
      if existsb (String.eqb goal_color) (List.map fst (agentColor state)) then
        let agent_keys := getAgentsByColor state goal_color in
        if Z.eqb (manha_dist goal_pos box_pos) 0 then
          (* continue *)
          EasyRule_boxes state goal_pos goal_color rest box_goal_costs agt_box_costs
        else
          agt_box_costs <~ agents_loop 1 state agent_keys box_pos agt_box_costs ;;
          EasyRule_boxes state goal_pos goal_color rest
            (box_goal_costs ++ [manha_dist box_pos goal_pos]) agt_box_costs
      else
        EasyRule_boxes state goal_pos goal_color rest
          (box_goal_costs ++ [manha_dist box_pos goal_pos]) agt_box_costs
  end.

(** The loop over [goal_params]. *)
Fixpoint EasyRule_goals (state : StateInit) (goal_params box_params : list (Pos * Color))
  (box_goal_cost : Z) (agt_box_costs : list Z) : Res (Z * list Z) :=
  match goal_params with
  | [] => Ok (box_goal_cost, agt_box_costs)
  | (goal_pos, goal_color) :: rest =>
      '(box_goal_costs, agt_box_costs) <~
        EasyRule_boxes state goal_pos goal_color box_params [] agt_box_costs ;;
      EasyRule_goals state rest box_params
        (add_min box_goal_cost 1 box_goal_costs) agt_box_costs
  end.

(** The loop over [state.getGoalKeys()].  [agt_box_costs] is not reset
    between keys. *)
Fixpoint EasyRule_keys (state : StateInit) (keys : list Key)
  (box_goal_cost agt_box_cost : Z) (agt_box_costs : list Z) : Res (Z * Z) :=
  match keys with
  | [] => Ok (box_goal_cost, agt_box_cost)
  | key :: rest =>
      let goal_params := getGoalsByKey state key in
      let box_params := getBoxesByKey state key in
      '(box_goal_cost, agt_box_costs) <~
        EasyRule_goals state goal_params box_params box_goal_cost agt_box_costs ;;
      EasyRule_keys state rest box_goal_cost
        (add_sum agt_box_cost agt_box_costs) agt_box_costs
  end.

(** The body of [for state in states] *)
Definition EasyRule_state (state : StateInit) : Res StateInit :=
  '(box_goal_cost, agt_box_cost) <~
    EasyRule_keys state (getGoalKeys state) 0 0 [] ;;
  let state := set_h state (box_goal_cost + agt_box_cost) in
  Ok (set_f state (h state * 5 + g state)).

(** *** WeightedRule *)

Fixpoint WeightedRule_boxes (state : StateInit) (goal_pos : Pos) (goal_color : Color)
  (box_params : list (Pos * Color)) (box_goal_costs agt_box_costs : list Z)
  : Res (list Z * list Z) :=
  match box_params with
  | [] => Ok (box_goal_costs, agt_box_costs)
  | (box_pos, _) :: rest =>
      let agent_keys := getAgentsByColor state goal_color in
      if Z.eqb (manha_dist goal_pos box_pos) 0 then
        (* continue *)
        WeightedRule_boxes state goal_pos goal_color rest box_goal_costs agt_box_costs
      else
        agt_box_costs <~ agents_loop 1 state agent_keys box_pos agt_box_costs ;;
        WeightedRule_boxes state goal_pos goal_color rest
          (box_goal_costs ++ [manha_dist box_pos goal_pos]) agt_box_costs
  end.

(** [key.lower() == self.weight] decides the factor of the minimum. *)
Definition weight_of (key weight : string) : Z :=
  if String.eqb (lower key) weight then 10 else 1.

Fixpoint WeightedRule_goals (weight : string) (key : Key) (state : StateInit)
  (goal_params box_params : list (Pos * Color))
  (box_goal_cost : Z) (agt_box_costs : list Z) : Res (Z * list Z) :=
  match goal_params with
  | [] => Ok (box_goal_cost, agt_box_costs)
  | (goal_pos, goal_color) :: rest =>
      '(box_goal_costs, agt_box_costs) <~
        WeightedRule_boxes state goal_pos goal_color box_params [] agt_box_costs ;;
      WeightedRule_goals weight key state rest box_params
        (add_min box_goal_cost (weight_of key weight) box_goal_costs) agt_box_costs
  end.

Fixpoint WeightedRule_keys (weight : string) (state : StateInit) (keys : list Key)
  (box_goal_cost agt_box_cost : Z) (agt_box_costs : list Z) : Res (Z * Z) :=
  match keys with
  | [] => Ok (box_goal_cost, agt_box_cost)
  | key :: rest =>
      let goal_params := getGoalsByKey state key in
      let box_params := getBoxesByKey state key in
      '(box_goal_cost, agt_box_costs) <~
        WeightedRule_goals weight key state goal_params box_params
          box_goal_cost agt_box_costs ;;
      WeightedRule_keys weight state rest box_goal_cost
        (add_sum agt_box_cost agt_box_costs) agt_box_costs
  end.

Definition WeightedRule_state (weight : string) (state : StateInit) : Res StateInit :=
  '(box_goal_cost, agt_box_cost) <~
    WeightedRule_keys weight state (getGoalKeys state) 0 0 [] ;;
  let state := set_h state (box_goal_cost + agt_box_cost) in
  Ok (set_f state (h state * 5 + g state)).

(** *** GoAway *)

(** Here the minimum is added inside the loop over the boxes, after each
    appended distance. *)
Fixpoint GoAway_boxes (state : StateInit) (goal_pos : Pos)
  (box_params : list (Pos * Color)) (box_goal_cost : Z)
  (box_goal_costs agt_box_costs : list Z) : Res (Z * list Z * list Z) :=
  match box_params with
  | [] => Ok (box_goal_cost, box_goal_costs, agt_box_costs)
  | (box_pos, _) :: rest =>
      let agent_keys := List.map fst (agents state) in
      if Z.eqb (manha_dist goal_pos box_pos) 0 then
        GoAway_boxes state goal_pos rest box_goal_cost box_goal_costs agt_box_costs
      else
        agt_box_costs <~ agents_loop (-10) state agent_keys box_pos agt_box_costs ;;
        let box_goal_costs := box_goal_costs ++ [manha_dist box_pos goal_pos] in
        GoAway_boxes state goal_pos rest (add_min box_goal_cost 1 box_goal_costs)
          box_goal_costs agt_box_costs
  end.

Fixpoint GoAway_goals (state : StateInit) (goal_params box_params : list (Pos * Color))
  (box_goal_cost : Z) (agt_box_costs : list Z) : Res (Z * list Z) :=
  match goal_params with
  | [] => Ok (box_goal_cost, agt_box_costs)
  | (goal_pos, _) :: rest =>
      '(box_goal_cost, _, agt_box_costs) <~
        GoAway_boxes state goal_pos box_params box_goal_cost [] agt_box_costs ;;
      GoAway_goals state rest box_params box_goal_cost agt_box_costs
  end.

Fixpoint GoAway_keys (state : StateInit) (keys : list Key)
  (box_goal_cost agt_box_cost : Z) (agt_box_costs : list Z) : Res (Z * Z) :=
  match keys with
  | [] => Ok (box_goal_cost, agt_box_cost)
  | key :: rest =>
      let goal_params := getGoalsByKey state key in
      let box_params := getBoxesByKey state key in
      '(box_goal_cost, agt_box_costs) <~
        GoAway_goals state goal_params box_params box_goal_cost agt_box_costs ;;
      GoAway_keys state rest box_goal_cost
        (add_sum agt_box_cost agt_box_costs) agt_box_costs
  end.

Definition GoAway_state (state : StateInit) : Res StateInit :=
  '(box_goal_cost, agt_box_cost) <~
    GoAway_keys state (getGoalKeys state) 0 0 [] ;;
  let state := set_h state (box_goal_cost + agt_box_cost) in
  Ok (set_f state (h state * 25)).

(** *** dGraph *)

(** [dGraph.initializeGraphAttributes] (the assignment to [self.poses] is
    passed on to the queries by the caller). *)
Definition initializeGraphAttributes (state : StateInit) (parts : list (Pos * Pos))
  : StateInit :=
  match currentPath state with
  | None =>
      set_paths state (Some (repeat None (List.length parts)))
        (Some (repeat None (List.length parts)))
  | Some _ => state
  end.

(** The body of [for state in states] in [dGraph.__call__].  The source names
    [initializeGraphAttributes] without [self.], so the name is resolved as a
    global of the module before anything is called. *)
Definition dGraph_state (state : StateInit) : Res StateInit :=
  agt <~ item0 (List.map snd (agents state)) ;;
  agt <~ item0 agt ;;
  let agtPos := fst agt in
  box <~ item0 (List.map snd (boxes state)) ;;
  box <~ item0 box ;;
  let boxPos := fst box in
  goal <~ item0 (List.map snd (goals state)) ;;
  goal <~ item0 goal ;;
  let goalPos := fst goal in
  let parts := [(agtPos, boxPos); (boxPos, goalPos)] in
  _ <~ global_name "initializeGraphAttributes" ;;
  let state := initializeGraphAttributes state parts in
  '(lengthBox, state) <~ findPathPart parts state 0 ;;
  '(lengthGoal, state) <~ findPathPart parts state 1 ;;
  let length := lengthBox + lengthGoal in
  let state := set_h state length in
  Ok (set_f state (h state * 2 + g state)).

(** *** Calling a heuristic object *)

(** [for state in states: ...], scoring in place.  When a body raises, the
    exception is the result and the scores already written are not kept. *)
Fixpoint for_states (body : StateInit -> Res StateInit) (states : list StateInit)
  : Res (list StateInit) :=
  match states with
  | [] => Ok []
  | state :: rest =>
      state <~ body state ;;
      rest <~ for_states body rest ;;
      Ok (state :: rest)
  end.

Definition Heuristic_body (hr : Heuristic) : StateInit -> Res StateInit :=
  match hr with
  | EasyRule => EasyRule_state
  | WeightedRule weight => WeightedRule_state weight
  | GoAway => GoAway_state
  | dGraph => dGraph_state
  end.

(** [heuristic(states)]: the states as the call leaves them and the value the
    call returns.  Every [__call__] of [heuristics.py] ends without a [return]
    of a value (and has a bare [return None] on an empty list), so the value
    is [None].  A caller that passes one state passes it here as a one-element
    list, which is what the [type(states) is not list] test makes of it. *)
Definition Heuristic_call (hr : Heuristic) (states : list StateInit)
  : Res (list StateInit * option Cost) :=
  match states with
  | [] => Ok ([], None)
  | _ :: _ =>
      states <~ for_states (Heuristic_body hr) states ;;
      Ok (states, None)
  end.

End Heuristics.

(** ** bdi.py *)

(** [multi_sokoban/memory.py] is outside the code verified here: the ceiling
    [MAX_USAGE] and the readings of [get_usage()] are parameters.
    [get_usage n] is the reading of the [n]-th poll made by one call of
    [Agent.search], counted from 0. *)
Class Memory : Type := {
  MAX_USAGE : Z;
  get_usage : nat -> Z
}.

(** The values the variable [to_del] and the subscript of [del inbox[...]]
    take in [Agent.solve]. *)
Inductive PyVal : Type :=
| PyFalse
| PyInt (i : Z)
| PyMessage (m : Message).

(** Truth value of a Python object in an [if]. *)
Definition truthy (v : PyVal) : bool :=
  match v with
  | PyFalse => false
  | PyInt i => negb (Z.eqb i 0)
  | PyMessage _ => true
  end.

(** [del l[i]] for an in-range integer position *)
Fixpoint delete_at {A : Type} (i : nat) (l : list A) : list A :=
  match i, l with
  | _, [] => []
  | O, _ :: r => r
  | S i', x :: r => x :: delete_at i' r
  end.

(** [del l[v]]: an integer (or [False], which is 0) deletes at that position,
    counted from the end when negative; any other object is not an index. *)
Definition list_delitem {A : Type} (l : list A) (v : PyVal) : Res (list A) :=
  let at_int (i : Z) :=
    let n := Z.of_nat (List.length l) in
    let j := if i <? 0 then i + n else i in
    if (0 <=? j) && (j <? n) then Ok (delete_at (Z.to_nat j) l)
    else Raise IndexError in
  match v with
  | PyFalse => at_int 0
  | PyInt i => at_int i
  | PyMessage _ => Raise TypeError
  end.

(** [for i, message in enumerate(inbox): if message.requester == name: ... break]:
    the index and the message at which the loop breaks, if it does. *)
Fixpoint first_request (name : Key) (i : Z) (inbox : list Message)
  : option (Z * Message) :=
  match inbox with
  | [] => None
  | message :: rest =>
      if String.eqb (requester message) name then Some (i, message)
      else first_request name (i + 1) rest
  end.

Section Agent.
Context {SM : StateMethods} {PQ : PathQuery} {MEM : Memory}.

(** The strategy class the agents are built with ([self.strategy]). *)
Variable strategy : BestFirstSearch.

Record Agent : Type := mkAgent {
  task : StateInit;
  init_task : StateInit;
  heuristic : Heuristic;
  color : Color;
  name : Key;
  init_pos : Pos;
  status : STATUS.t;
  helping : option Message;
  saved_solution : option (list Action)
}.

Definition set_task (a : Agent) (v : StateInit) : Agent :=
  mkAgent v (init_task a) (heuristic a) (color a) (name a)
    (init_pos a) (status a) (helping a) (saved_solution a).

Definition set_heuristic (a : Agent) (v : Heuristic) : Agent :=
  mkAgent (task a) (init_task a) v (color a) (name a)
    (init_pos a) (status a) (helping a) (saved_solution a).

Definition set_status (a : Agent) (v : STATUS.t) : Agent :=
  mkAgent (task a) (init_task a) (heuristic a) (color a) (name a)
    (init_pos a) v (helping a) (saved_solution a).

Definition set_helping (a : Agent) (v : option Message) : Agent :=
  mkAgent (task a) (init_task a) (heuristic a) (color a) (name a)
    (init_pos a) (status a) v (saved_solution a).

Definition set_saved_solution (a : Agent) (v : option (list Action)) : Agent :=
  mkAgent (task a) (init_task a) (heuristic a) (color a) (name a)
    (init_pos a) (status a) (helping a) v.

(** [Agent.__init__].  [deepcopy] of an immutable value is the value. *)
Definition Agent_init (task : StateInit) (heuristic : option Heuristic) : Res Agent :=
  let heuristic := match heuristic with Some x => x | None => EasyRule end in
  (* list(task.goals.values())[0][0][1] *)
  goal0 <~ item0 (List.map snd (goals task)) ;;
  entry0 <~ item0 goal0 ;;
  let color := snd entry0 in
  (* list(task.agents.keys())[0] *)
  name <~ item0 (List.map fst (agents task)) ;;
  (* list(task.agents.values())[0][0][0] *)
  agent0 <~ item0 (List.map snd (agents task)) ;;
  aentry0 <~ item0 agent0 ;;
  let init_pos := fst aentry0 in
  Ok (mkAgent task task heuristic color name init_pos STATUS.init None None).

(** [s[0]] on a string *)
Definition char0 (s : string) : Res string :=
  match s with
  | EmptyString => Raise IndexError
  | String c _ => Ok (String c EmptyString)
  end.

(** [Agent.marginal_task_cost]: the cost returned and [broadcasted_task] as
    the call leaves it.  The agent's own task is deep-copied first, so the
    agent is left as it was. *)
Definition marginal_task_cost (self : Agent) (broadcasted_task : StateInit)
  : Res (Cost * StateInit) :=
  goal0 <~ item0 (List.map snd (goals broadcasted_task)) ;;
  '(pos, color_) <~ item0 goal0 ;;
  key0 <~ item0 (List.map fst (goals broadcasted_task)) ;;
  goal_key <~ char0 key0 ;;
  let c_union := Inf in
  if negb (String.eqb color_ (color self)) then Ok (c_union, broadcasted_task)
  else
    (* self.heuristic(broadcasted_task); c_ts = broadcasted_task.f *)
    '(scored, _) <~ Heuristic_call (heuristic self) [broadcasted_task] ;;
    broadcasted_task <~ item0 scored ;;
    let c_ts := f broadcasted_task in
    let joint_task := task self in
    let joint_task := addGoal joint_task goal_key pos color_ in
    (* cost = self.heuristic(joint_task) *)
    '(_, cost) <~ Heuristic_call (heuristic self) [joint_task] ;;
    let cost := match cost with None => c_union | Some c => c end in
    let c_union := Cost_min c_union cost in
    Ok (Cost_sub c_union c_ts, broadcasted_task).

(** The loop of [consume_message] over [message.time]. *)
Fixpoint concurrent_events (object_problem : Key) (events : Timeline)
  (curr_pos : Pos) (concurrent : Overlay) : Overlay :=
  match events with
  | [] => concurrent
  | event :: rest =>
      let pos := snd event in
      if negb (Z.eqb (fst curr_pos) (fst pos)) || negb (Z.eqb (snd curr_pos) (snd pos))
      then concurrent_events object_problem rest pos
             (dict_set concurrent (fst event) [(object_problem, pos)])
      else concurrent_events object_problem rest curr_pos concurrent
  end.

(** [Agent.consume_message] *)
Definition consume_message (message : Message) : M Agent unit :=
  (self <- get ;;
   if STATUS.eqb (status self) STATUS.fail then
     (* message.time[0][1] *)
     match time message with
     | None => throw TypeError
     | Some events =>
         event0 <- lift (item0 events) ;;
         let curr_pos := snd event0 in
         let concurrent :=
           concurrent_events (object_problem message) events curr_pos [] in
         modify (fun self =>
           set_task self (set_t (StateConcurrent (task self) concurrent) 0))
     end
   else
     modify (fun self =>
       set_heuristic
         (set_task (set_helping self (Some message)) (init_task self))
         (WeightedRule (object_problem message))))%M.

(** [Agent.track_back].  In each dict of an explored representation the key
    looked at is its first one, so [object_dict[key]] is the first value. *)
Fixpoint track_dicts (name : Key) (exp : list Objects) (trace : list Pos)
  : Res (list Pos) :=
  match exp with
  | [] => Ok trace
  | object_dict :: rest =>
      '(key, value) <~ item0 object_dict ;;
      if String.eqb key name then
        entry <~ item0 value ;;
        track_dicts name rest (trace ++ [fst entry])
      else track_dicts name rest trace
  end.

Fixpoint track_explored (name : Key) (explored : list (list Objects))
  (trace : list Pos) : Res (list Pos) :=
  match explored with
  | [] => Ok trace
  | exp :: rest =>
      trace <~ track_dicts name exp trace ;;
      track_explored name rest trace
  end.

Definition track_back (self : Agent) : Res (list Pos) :=
  track_explored (name self) (explored (task self)) [].

(** The dict comprehension of [_identify_problem]:
    [{box: pos_color[0] for box, pos_color in boxes.items() if pos_color[0][1] != color}] *)
Fixpoint other_boxes (color : Color) (items : Objects) : Res (list (Key * (Pos * Color))) :=
  match items with
  | [] => Ok []
  | (box, pos_color) :: rest =>
      entry <~ item0 pos_color ;;
      rest <~ other_boxes color rest ;;
      if negb (String.eqb (snd entry) color) then Ok ((box, entry) :: rest)
      else Ok rest
  end.

(** The two nested loops of [_identify_problem]; [None] when they end
    without a [return]. *)
Fixpoint blocking_box (state : StateInit) (boxes : list (Key * (Pos * Color)))
  (agent_trace : list Pos) : option (Key * Color) :=
  match boxes with
  | [] => None
  | (box, pos_color) :: rest =>
      if existsb (fun agent_pos => Neighbour state (fst pos_color) agent_pos) agent_trace
      then Some (box, snd pos_color)
      else blocking_box state rest agent_trace
  end.

(** [Agent._identify_problem] *)
Definition _identify_problem (self : Agent) : Res (option (Key * Color)) :=
  boxes <~ other_boxes (color self) (boxes (task self)) ;;
  agent_trace <~ track_back self ;;
  Ok (blocking_box (task self) boxes agent_trace).

(** [Agent._sos]: [box, color = self._identify_problem()] unpacks the value
    returned, which fails on [None]. *)
Definition _sos : M Agent Message :=
  (self <- get ;;
   problem <- lift (_identify_problem self) ;;
   match problem with
   | None => throw TypeError
   | Some (box, color) =>
       lift (Message_init box color (name self) (status self) None)
   end)%M.

(** [Agent._send_success] *)
Definition _send_success : M Agent Message :=
  (self <- get ;;
   match helping self with
   | None => throw AttributeError
   | Some helping =>
       let time_pos := bestPath_format (task self) (object_problem helping) in
       message <- lift (Message_init (object_problem helping) (msg_color helping)
                          (requester helping) (status self) (Some time_pos)) ;;
       modify (fun self => set_helping self None) ;;
       ret message
   end)%M.

(** [Agent.broadcast]; [None] is the [False] that stands for no message. *)
Definition broadcast : M Agent (option Message) :=
  (let message := None in
   self <- get ;;
   message <-
     (if STATUS.eqb (status self) STATUS.fail then
        m <- _sos ;;
        modify (fun self => set_task self (forget_exploration (task self))) ;;
        ret (Some m)
      else ret message) ;;
   self <- get ;;
   message <-
     (match helping self with
      | Some _ => m <- _send_success ;; ret (Some m)
      | None => ret message
      end) ;;
   ret message)%M.

(** The [while] loop of [Agent.search].  The loop need not end, so the model
    takes a bound [fuel] on the number of iterations and gives [None] when the
    bound is reached.  [polls] counts the readings of the memory usage so far;
    [iterations] only drives the progress message. *)
Fixpoint search_loop (fuel : nat) (polls : nat) (iterations : Z)
  (strategy_ : searcher strategy) (self : Agent)
  : option (Res (option (list Action)) * Agent) :=
  match fuel with
  | O => None
  | S fuel' =>
      if isGoalState (leaf strategy strategy_) then
        (* the loop condition fails: the function ends without a value *)
        Some (Ok None, self)
      else
        let iterations := if iterations =? 1000 then 0 else iterations in
        if get_usage polls >? MAX_USAGE then Some (Raise ResourceLimit, self)
        else
          match explore_and_add strategy strategy_ with
          | Raise e => Some (Raise e, self)
          | Ok strategy_ =>
              if frontier_empty strategy strategy_ then Some (Ok None, self)
              else
                match get_and_remove_leaf strategy strategy_ with
                | Raise e => Some (Raise e, self)
                | Ok strategy_ =>
                    if isGoalState (leaf strategy strategy_) then
                      let self := set_task self (leaf strategy strategy_) in
                      Some (Ok (Some (walk_best_path strategy strategy_)), self)
                    else
                      search_loop fuel' (S polls) (iterations + 1) strategy_ self
                end
          end
  end.

(** The searcher after [n] full passes through the loop body, when none of
    them leaves the loop: each pass expands the leaf, finds the frontier
    non-empty, pops a leaf and finds it is not a goal. *)
Fixpoint search_passes (n : nat) (strategy_ : searcher strategy)
  : option (searcher strategy) :=
  match n with
  | O => Some strategy_
  | S n' =>
      if isGoalState (leaf strategy strategy_) then None
      else
        match explore_and_add strategy strategy_ with
        | Raise _ => None
        | Ok strategy_ =>
            if frontier_empty strategy strategy_ then None
            else
              match get_and_remove_leaf strategy strategy_ with
              | Raise _ => None
              | Ok strategy_ =>
                  if isGoalState (leaf strategy strategy_) then None
                  else search_passes n' strategy_
              end
        end
  end.

(** [Agent.search] *)
Definition search (fuel : nat) (strategy_ : searcher strategy) (self : Agent)
  : option (Res (option (list Action)) * Agent) :=
  let iterations := 0 in
  if isGoalState (leaf strategy strategy_) then Some (Ok (Some []), self)
  else search_loop fuel O iterations strategy_ self.

(** The block [if inbox and self.status == STATUS.fail: ...] of [Agent.solve]:
    the result, the agent and the inbox afterwards. *)
Definition solve_inbox (inbox : list Message) (self : Agent)
  : Res unit * Agent * list Message :=
  if nonempty inbox && STATUS.eqb (status self) STATUS.fail then
    match first_request (name self) 0 inbox with
    | None =>
        (* the loop ends without a match; to_del is still False *)
        (Ok tt, self, inbox)
    | Some (i, message) =>
        match consume_message message self with
        | (Raise e, self) => (Raise e, self, inbox)
        | (Ok _, self) =>
            let to_del := PyInt i in
            if truthy to_del then
              (* del inbox[message] *)
              match list_delitem inbox (PyMessage message) with
              | Raise e => (Raise e, self, inbox)
              | Ok inbox => (Ok tt, self, inbox)
              end
            else (Ok tt, self, inbox)
        end
    end
  else (Ok tt, self, inbox).

(** [Agent.solve]: [None] when the search does not end within [fuel]
    iterations; otherwise the pair returned or the exception raised, the agent
    and the inbox afterwards.  The strategy is constructed on the object
    [self.task] itself and may write on it (the kernel of emergency_aStar.py
    scores it in place): what it writes is on the [leaf] of the searcher, and
    the [task] field of the agent here is the task as the agent last assigned
    it.  The fields the strategy is not given ([status], [saved_solution],
    [helping], [name], [color]) are those of the program. *)
Definition solve (fuel : nat) (inbox : list Message) (self : Agent)
  : option (Res (option (list Action) * option Message) * Agent * list Message) :=
  if STATUS.eqb (status self) STATUS.ok && negb (nonempty_option (helping self)) then
    let path := saved_solution self in
    match broadcast self with
    | (Raise e, self) => Some (Raise e, self, inbox)
    | (Ok message, self) => Some (Ok (path, message), self, inbox)
    end
  else
    match solve_inbox inbox self with
    | (Raise e, self, inbox) => Some (Raise e, self, inbox)
    | (Ok _, self, inbox) =>
        match new strategy (task self) (heuristic self) with
        | Raise e => Some (Raise e, self, inbox)
        | Ok searcher_ =>
            match search fuel searcher_ self with
            | None => None
            | Some (Raise e, self) => Some (Raise e, self, inbox)
            | Some (Ok path, self) =>
                let self :=
                  set_status self
                    (match path with None => STATUS.fail | Some _ => STATUS.ok end) in
                let self := set_saved_solution self path in
                match broadcast self with
                | (Raise e, self) => Some (Raise e, self, inbox)
                | (Ok message, self) => Some (Ok (path, message), self, inbox)
                end
            end
        end
    end.

End Agent.

(** ** emergency_aStar.py *)

Module emergency_aStar.

(** An entry of the frontier: [(state.f, self.count, state)]. *)
Definition Entry : Type := Z * Z * StateInit.

Definition priority (e : Entry) : Z := fst (fst e).
Definition tiebreak (e : Entry) : Z := snd (fst e).
Definition entry_state (e : Entry) : StateInit := snd e.

(** Tuples compare position by position.  The states are reached only when
    priority and counter are both equal; the comparison of two states is not
    modelled and such entries count as equal. *)
Definition entry_le (a b : Entry) : bool :=
  (priority a <? priority b)
  || ((priority a =? priority b) && (tiebreak a <=? tiebreak b)).

(** [PriorityQueue.put]: the queue is kept as the list of its entries in the
    order they were put. *)
Definition put (q : list Entry) (e : Entry) : list Entry := q ++ [e].

(** [PriorityQueue.get]: the least entry and the queue without it; [None] on
    an empty queue, where the call waits. *)
Fixpoint get_least (q : list Entry) : option (Entry * list Entry) :=
  match q with
  | [] => None
  | e :: r =>
      match get_least r with
      | None => Some (e, [])
      | Some (m, r') => if entry_le e m then Some (e, r) else Some (m, e :: r')
      end
  end.

(** [BestFirstSearch] with the fields its methods use ([self.heuristic] is
    stored by [__init__] and not read again). *)
Record aStarSearch : Type := mkSearch {
  frontier : list Entry;
  heuristic : option Heuristic;
  leaf : StateInit;
  count : Z
}.

Definition default_heuristic (a b : Pos) : Z :=
  let '(x1, y1) := a in
  let '(x2, y2) := b in
  Z.abs (x1 - x2) + Z.abs (y1 - y2).

Section Kernel.
Context {SM : StateMethods}.

(** [for agentKey in agentKeys: ...] *)
Fixpoint calc_agents (state : StateInit) (agentKeys : list Key) (boxPos goalPos : Pos)
  (boxGoalCost : Z) (agtBoxCosts : list Z) : Res (Z * list Z) :=
  match agentKeys with
  | [] => Ok (boxGoalCost, agtBoxCosts)
  | agentKey :: rest =>
      entry <~ item0 (getAgentsByKey state agentKey) ;;
      let agentPos := fst entry in
      calc_agents state rest boxPos goalPos
        (boxGoalCost + default_heuristic boxPos goalPos)
        (agtBoxCosts ++ [default_heuristic agentPos boxPos])
  end.

(** [for boxPos, _ in boxParams: ...] *)
Fixpoint calc_boxes (state : StateInit) (goalPos : Pos) (goalColor : Color)
  (boxParams : list (Pos * Color)) (boxGoalCost : Z) (agtBoxCosts : list Z)
  : Res (Z * list Z) :=
  match boxParams with
  | [] => Ok (boxGoalCost, agtBoxCosts)
  | (boxPos, _) :: rest =>
      let agentKeys := getAgentsByColor state goalColor in
      '(boxGoalCost, agtBoxCosts) <~
        calc_agents state agentKeys boxPos goalPos boxGoalCost agtBoxCosts ;;
      calc_boxes state goalPos goalColor rest boxGoalCost agtBoxCosts
  end.

(** [for goalPos, goalColor in goalParams: ...] *)
Fixpoint calc_goals (state : StateInit) (goalParams boxParams : list (Pos * Color))
  (boxGoalCost : Z) (agtBoxCosts : list Z) : Res (Z * list Z) :=
  match goalParams with
  | [] => Ok (boxGoalCost, agtBoxCosts)
  | (goalPos, goalColor) :: rest =>
      '(boxGoalCost, agtBoxCosts) <~
        calc_boxes state goalPos goalColor boxParams boxGoalCost agtBoxCosts ;;
      calc_goals state rest boxParams boxGoalCost agtBoxCosts
  end.

(** [for key in goalKeys: ...] *)
Fixpoint calc_keys (state : StateInit) (goalKeys : list Key)
  (boxGoalCost : Z) (agtBoxCosts : list Z) : Res (Z * list Z) :=
  match goalKeys with
  | [] => Ok (boxGoalCost, agtBoxCosts)
  | key :: rest =>
      let goalParams := getGoalsByKey state key in
      let boxParams := getBoxesByKey state key in
      '(boxGoalCost, agtBoxCosts) <~
        calc_goals state goalParams boxParams boxGoalCost agtBoxCosts ;;
      calc_keys state rest boxGoalCost agtBoxCosts
  end.

(** The body of [for state in states] in [calc_heuristic_for]. *)
Definition calc_state (goalKeys : list Key) (state : StateInit) : Res StateInit :=
  '(boxGoalCost, agtBoxCosts) <~ calc_keys state goalKeys 0 [] ;;
  agtBoxCost <~ py_min agtBoxCosts ;;
  let state := set_h state (boxGoalCost + agtBoxCost) in
  Ok (set_f state (g state + h state)).

(** [BestFirstSearch.calc_heuristic_for], on a list of states (a single state
    is passed as a one-element list): the states as scored in place. *)
Definition calc_heuristic_for (states : list StateInit) : Res (list StateInit) :=
  match states with
  | [] => Ok []
  | state0 :: _ =>
      let goalKeys := getGoalKeys state0 in
      for_states (calc_state goalKeys) states
  end.

(** [BestFirstSearch.__init__] *)
Definition BestFirstSearch_init (init_state : StateInit) (heuristic : option Heuristic)
  : Res aStarSearch :=
  scored <~ calc_heuristic_for [init_state] ;;
  leaf <~ item0 scored ;;
  Ok (mkSearch [] heuristic leaf 0).

(** [for state in explored_states: self.count += 1; self.frontier.put(...)] *)
Fixpoint put_all (q : list Entry) (count : Z) (states : list StateInit)
  : list Entry * Z :=
  match states with
  | [] => (q, count)
  | state :: rest =>
      let count := count + 1 in
      put_all (put q (f state, count, state)) count rest
  end.

(** [aStarSearch.get_and_remove_leaf] *)
Definition get_and_remove_leaf (self : aStarSearch) : Res aStarSearch :=
  let explored_states := explore (leaf self) in
  explored_states <~ calc_heuristic_for explored_states ;;
  let '(q, count) := put_all (frontier self) (count self) explored_states in
  match get_least q with
  | None => Raise Blocked
  | Some (e, q) => Ok (mkSearch q (heuristic self) (entry_state e) count)
  end.

(** [walk_best_path] and [frontier_empty] *)
Definition walk_best_path (self : aStarSearch) : list Action := bestPath (leaf self).

Definition frontier_empty (self : aStarSearch) : bool := negb (nonempty (frontier self)).


End Kernel.


(** The counters grow strictly in the order the entries were put. *)
Definition counters_increase (q : list Entry) : Prop :=
  StronglySorted (fun a b => tiebreak a < tiebreak b) q.



End emergency_aStar.

(** ** The specification's wording of two operations *)

Section SpecWording.
Context {SM : StateMethods} {PQ : PathQuery}.

(** The factor of a goal key as the specification words it: the key equals
    the weight key, compared without regard to case. *)
Definition weight_of_spec (key weight : string) : Z :=
  if String.eqb (lower key) (lower weight) then 10 else 1.

(** [WeightedRule] as the specification words it: [EasyRule] with the minimum
    box-to-goal distance of the goals of the weighted key multiplied by 10. *)
Fixpoint WeightedRule_spec_goals (weight : string) (key : Key) (state : StateInit)
  (goal_params box_params : list (Pos * Color))
  (box_goal_cost : Z) (agt_box_costs : list Z) : Res (Z * list Z) :=
  match goal_params with
  | [] => Ok (box_goal_cost, agt_box_costs)
  | (goal_pos, goal_color) :: rest =>
      '(box_goal_costs, agt_box_costs) <~
        EasyRule_boxes state goal_pos goal_color box_params [] agt_box_costs ;;
      WeightedRule_spec_goals weight key state rest box_params
        (add_min box_goal_cost (weight_of_spec key weight) box_goal_costs)
        agt_box_costs
  end.

Fixpoint WeightedRule_spec_keys (weight : string) (state : StateInit) (keys : list Key)
  (box_goal_cost agt_box_cost : Z) (agt_box_costs : list Z) : Res (Z * Z) :=
  match keys with
  | [] => Ok (box_goal_cost, agt_box_cost)
  | key :: rest =>
      '(box_goal_cost, agt_box_costs) <~
        WeightedRule_spec_goals weight key state (getGoalsByKey state key)
          (getBoxesByKey state key) box_goal_cost agt_box_costs ;;
      WeightedRule_spec_keys weight state rest box_goal_cost
        (add_sum agt_box_cost agt_box_costs) agt_box_costs
  end.

Definition WeightedRule_spec_h (weight : string) (state : StateInit) : Res Z :=
  '(box_goal_cost, agt_box_cost) <~
    WeightedRule_spec_keys weight state (getGoalKeys state) 0 0 [] ;;
  Ok (box_goal_cost + agt_box_cost).

(** The [h] a heuristic object gives a state. *)
Definition score (hr : Heuristic) (state : StateInit) : Res Z :=
  '(scored, _) <~ Heuristic_call hr [state] ;;
  state <~ item0 scored ;;
  Ok (h state).

(** [marginal_task_cost] as the specification words it: infinite on a color
    mismatch, else [c_joint - c_sub] with [c_sub] the [h] of the subtask alone
    and [c_joint] the [h] of the agent's task with the subgoal merged. *)
Definition marginal_task_cost_spec (self : Agent) (subtask : StateInit) : Res Cost :=
  goal0 <~ item0 (List.map snd (goals subtask)) ;;
  '(pos, color_) <~ item0 goal0 ;;
  key0 <~ item0 (List.map fst (goals subtask)) ;;
  goal_key <~ char0 key0 ;;
  if negb (String.eqb color_ (color self)) then Ok Inf
  else
    c_sub <~ score (heuristic self) subtask ;;
    c_joint <~ score (heuristic self) (addGoal (task self) goal_key pos color_) ;;
    Ok (Finite (c_joint - c_sub)).

End SpecWording.

(** ** More of bdi.py *)

Definition set_goals (s : StateInit) (v : Objects) : StateInit :=
  mkState (map s) (agents s) (boxes s) v (agentColor s) (g s) (h s) (f s)
    (explored s) (t s) (concurrent s) (parent_actions s) (currentPath s)
    (prevKeypoints s).

(** [d.get(k)] on a dict with string keys *)
Fixpoint dict_get {V : Type} (d : list (string * V)) (k : string) : option V :=
  match d with
  | [] => None
  | (k', v) :: r => if String.eqb k' k then Some v else dict_get r k
  end.

(** [d[k] = v] on a dict with string keys: an existing key keeps its place *)
Fixpoint dict_put {V : Type} (d : list (string * V)) (k : string) (v : V)
  : list (string * V) :=
  match d with
  | [] => [(k, v)]
  | (k', v') :: r =>
      if String.eqb k' k then (k, v) :: r else (k', v') :: dict_put r k v
  end.

(** [{**d1, **d2}] *)
Definition dict_merge {V : Type} (d1 d2 : list (string * V)) : list (string * V) :=
  fold_left (fun d kv => dict_put d (fst kv) (snd kv)) d2 d1.

(** [Agent.add_task].  On a color mismatch the source builds an
    [IncorrectTask] object and drops it: there is no [raise]. *)
Definition add_task (task_ : StateInit) : M Agent unit :=
  (goal0 <- lift (item0 (List.map snd (goals task_))) ;;
   entry0 <- lift (item0 goal0) ;;
   let color_ := snd entry0 in
   self <- get ;;
   (if negb (String.eqb color_ (color self)) then ret tt else ret tt) ;;
   modify (fun self =>
     set_task self
       (set_goals (task self) (dict_merge (goals (task self)) (goals task_)))))%M.

(** ** More of emergency_aStar.py: the functions kept from the first version *)

Module emergency_aStar_func.

Section Legacy.
Context {SM : StateMethods}.

(** The loops of [calcHuristicsFor] (lines 148 to 171), innermost first. *)
Fixpoint legacy_agents (state : StateInit) (agentKeys : list Key) (boxPos goalPos : Pos)
  (boxGoalCost : Z) (agtBoxCosts : list Z) : Res (Z * list Z) :=
  match agentKeys with
  | [] => Ok (boxGoalCost, agtBoxCosts)
  | agentKey :: rest =>
      entry <~ item0 (getAgentsByKey state agentKey) ;;
      let agentPos := fst entry in
      let boxGoalCost := boxGoalCost + emergency_aStar.default_heuristic boxPos goalPos in
      let agtBoxCosts :=
        agtBoxCosts ++ [emergency_aStar.default_heuristic agentPos boxPos] in
      legacy_agents state rest boxPos goalPos boxGoalCost agtBoxCosts
  end.

Fixpoint legacy_boxes (state : StateInit) (goalPos : Pos) (goalColor : Color)
  (boxParams : list (Pos * Color)) (boxGoalCost : Z) (agtBoxCosts : list Z)
  : Res (Z * list Z) :=
  match boxParams with
  | [] => Ok (boxGoalCost, agtBoxCosts)
  | (boxPos, _) :: rest =>
      '(boxGoalCost, agtBoxCosts) <~
        legacy_agents state (getAgentsByColor state goalColor) boxPos goalPos
          boxGoalCost agtBoxCosts ;;
      legacy_boxes state goalPos goalColor rest boxGoalCost agtBoxCosts
  end.

Fixpoint legacy_goals (state : StateInit) (goalParams boxParams : list (Pos * Color))
  (boxGoalCost : Z) (agtBoxCosts : list Z) : Res (Z * list Z) :=
  match goalParams with
  | [] => Ok (boxGoalCost, agtBoxCosts)
  | (goalPos, goalColor) :: rest =>
      '(boxGoalCost, agtBoxCosts) <~
        legacy_boxes state goalPos goalColor boxParams boxGoalCost agtBoxCosts ;;
      legacy_goals state rest boxParams boxGoalCost agtBoxCosts
  end.

Fixpoint legacy_keys (state : StateInit) (goalKeys : list Key)
  (boxGoalCost : Z) (agtBoxCosts : list Z) : Res (Z * list Z) :=
  match goalKeys with
  | [] => Ok (boxGoalCost, agtBoxCosts)
  | key :: rest =>
      '(boxGoalCost, agtBoxCosts) <~
        legacy_goals state (getGoalsByKey state key) (getBoxesByKey state key)
          boxGoalCost agtBoxCosts ;;
      legacy_keys state rest boxGoalCost agtBoxCosts
  end.

Definition legacy_state (goalKeys : list Key) (state : StateInit) : Res StateInit :=
  '(boxGoalCost, agtBoxCosts) <~ legacy_keys state goalKeys 0 [] ;;
  agtBoxCost <~ py_min agtBoxCosts ;;
  let state := set_h state (boxGoalCost + agtBoxCost) in
  Ok (set_f state (g state + h state)).

(** [calcHuristicsFor] *)
Definition calcHuristicsFor (states : list StateInit) : Res (list StateInit) :=
  match states with
  | [] => Ok []
  | state0 :: _ => for_states (legacy_state (getGoalKeys state0)) states
  end.

(** [for state in exploredStates: count += 1; frontier.put((state.h, count, state))] *)
Fixpoint put_all_h (q : list emergency_aStar.Entry) (count : Z) (states : list StateInit)
  : list emergency_aStar.Entry * Z :=
  match states with
  | [] => (q, count)
  | state :: rest =>
      let count := count + 1 in
      put_all_h (emergency_aStar.put q (h state, count, state)) count rest
  end.

(** The [while] loop of [aStarSearch_func]; [None] when it has not ended
    within [fuel] iterations.  The module-level [count] is passed in and out. *)
Fixpoint aStarSearch_loop (fuel : nat) (frontier : list emergency_aStar.Entry)
  (count : Z) (leaf : StateInit) : option (Res (list Action * StateInit * Z)) :=
  match fuel with
  | O => None
  | S fuel' =>
      if isGoalState leaf then Some (Ok (bestPath leaf, leaf, count))
      else
        match calcHuristicsFor (explore leaf) with
        | Raise e => Some (Raise e)
        | Ok exploredStates =>
            let '(frontier, count) := put_all_h frontier count exploredStates in
            match emergency_aStar.get_least frontier with
            | None => Some (Raise Blocked)
            | Some (e, frontier) =>
                aStarSearch_loop fuel' frontier count (emergency_aStar.entry_state e)
            end
        end
  end.

(** [aStarSearch_func] *)
Definition aStarSearch_func (fuel : nat) (count : Z) (initState : StateInit)
  : option (Res (list Action * StateInit * Z)) :=
  match calcHuristicsFor [initState] with
  | Raise e => Some (Raise e)
  | Ok scored =>
      match item0 scored with
      | Raise e => Some (Raise e)
      | Ok leaf => aStarSearch_loop fuel [] count leaf
      end
  end.

End Legacy.

End emergency_aStar_func.

(** ** More of heuristics.py: the keypoints of dGraph *)

(** An index into an axis of length [n] of a numpy array: negative indices
    count from the end. *)
Definition np_index (i n : Z) : Res nat :=
  if (0 <=? i) && (i <? n) then Ok (Z.to_nat i)
  else if (- n <=? i) && (i <? 0) then Ok (Z.to_nat (i + n))
  else Raise IndexError.

(** [map[tuple(p)]] on the array of characters of the level *)
Definition np_get (m : list string) (p : Pos) : Res ascii :=
  r <~ np_index (fst p) (Z.of_nat (List.length m)) ;;
  let row := nth r m "" in
  c <~ np_index (snd p) (Z.of_nat (String.length row)) ;;
  match String.get c row with
  | Some ch => Ok ch
  | None => Raise IndexError
  end.

(** [while tempPos[0] != kp[0]: tempPos[0] += dir[0]; if map[...] == "+": return None]:
    the row reached, or [None] when a wall ends the call.  [fuel] bounds the
    iterations; [Blocked] stands for a loop that has not ended within it. *)
Fixpoint probe_rows (fuel : nat) (m : list string) (r c kr dir : Z) : Res (option Z) :=
  if r =? kr then Ok (Some r)
  else
    match fuel with
    | O => Raise Blocked
    | S fuel' =>
        let r := r + dir in
        ch <~ np_get m (r, c) ;;
        if Ascii.eqb ch "+"%char then Ok None
        else probe_rows fuel' m r c kr dir
    end.

(** The same along the columns. *)
Fixpoint probe_cols (fuel : nat) (m : list string) (r c kc dir : Z) : Res (option Z) :=
  if c =? kc then Ok (Some c)
  else
    match fuel with
    | O => Raise Blocked
    | S fuel' =>
        let c := c + dir in
        ch <~ np_get m (r, c) ;;
        if Ascii.eqb ch "+"%char then Ok None
        else probe_cols fuel' m r c kc dir
    end.

(** [dGraph.getValidKeypoint]: [validKps] after the call.  Each loop steps
    towards the keypoint, so the distance along its axis is fuel enough. *)
Definition getValidKeypoint (m : list string) (pos kp : Pos) (validKps : list Pos)
  : Res (list Pos) :=
  let tempPos := pos in
  let diff := (fst tempPos - fst kp, snd tempPos - snd kp) in
  let dir0 := if fst diff <? 0 then 1 else -1 in
  r <~ probe_rows (Z.to_nat (Z.abs (fst diff))) m (fst tempPos) (snd tempPos)
         (fst kp) dir0 ;;
  match r with
  | None => Ok validKps
  | Some r =>
      let dir1 := if snd diff <? 0 then 1 else -1 in
      c <~ probe_cols (Z.to_nat (Z.abs (snd diff))) m r (snd tempPos) (snd kp) dir1 ;;
      match c with
      | None => Ok validKps
      | Some _ => Ok (validKps ++ [kp])
      end
  end.

(** The cells the two loops of [getValidKeypoint] look at when no wall stops
    them: from the position along its column to the row of the keypoint, then
    along that row to the keypoint. *)
Definition L_path (pos kp : Pos) : list Pos :=
  let dir0 := if fst pos - fst kp <? 0 then 1 else -1 in
  let dir1 := if snd pos - snd kp <? 0 then 1 else -1 in
  List.map (fun i => (fst pos + dir0 * Z.of_nat i, snd pos))
    (seq 1 (Z.to_nat (Z.abs (fst pos - fst kp))))
  ++ List.map (fun j => (fst kp, snd pos + dir1 * Z.of_nat j))
       (seq 1 (Z.to_nat (Z.abs (snd pos - snd kp)))).

(** A cell of the map that can be read and is not a wall. *)
Definition free_cell (m : list string) (p : Pos) : Prop :=
  exists ch, np_get m p = Ok ch /\ ch <> "+"%char.

(** A position within the bounds of the array. *)
Definition in_bounds (m : list string) (p : Pos) : Prop :=
  exists ch, np_get m p = Ok ch.

(** An array with as many rows as another, each as long. *)
Definition same_shape (m m' : list string) : Prop :=
  List.map String.length m' = List.map String.length m.

(** [sorted(l, key=key)]; the sort of Python is stable. *)
Fixpoint insert_sorted {A : Type} (key : A -> Z) (x : A) (l : list A) : list A :=
  match l with
  | [] => [x]
  | y :: r => if key x <=? key y then x :: y :: r else y :: insert_sorted key x r
  end.

Fixpoint py_sorted {A : Type} (key : A -> Z) (l : list A) : list A :=
  match l with
  | [] => []
  | x :: r => insert_sorted key x (py_sorted key r)
  end.

(** [for kp in sortedKp: self.getValidKeypoint(...); if len(validKps) >= 4: break] *)
Fixpoint keypoints_loop (m : list string) (pos : Pos) (sortedKp validKps : list Pos)
  : Res (list Pos) :=
  match sortedKp with
  | [] => Ok validKps
  | kp :: rest =>
      validKps <~ getValidKeypoint m pos kp validKps ;;
      if 4 <=? Z.of_nat (List.length validKps) then Ok validKps
      else keypoints_loop m pos rest validKps
  end.

(** [dGraph.findBestKeyPoint], given the map and the corners of the object.
    The key of the sort, the 1-norm of [pos - kp], is the Manhattan distance. *)
Definition findBestKeyPoint (m : list string) (uniqueCorners : list Pos) (pos : Pos)
  : Res (list Pos) :=
  let sortedKp := py_sorted (fun kp => manha_dist pos kp) uniqueCorners in
  keypoints_loop m pos sortedKp [].

(** *** The keypoint graph *)

Definition Pos_eqb (a b : Pos) : bool := (fst a =? fst b) && (snd a =? snd b).

(** A directed graph with weighted edges, as the list of its edges. *)
Definition Graph : Type := list (Pos * Pos * Z).

(** [G.add_edge(u, v, weight=w)]: an edge that exists gets the new weight. *)
Fixpoint add_edge (G : Graph) (u v : Pos) (w : Z) : Graph :=
  match G with
  | [] => [(u, v, w)]
  | (u', v', w') :: r =>
      if Pos_eqb u' u && Pos_eqb v' v then (u, v, w) :: r
      else (u', v', w') :: add_edge r u v w
  end.

(** [for i in range(len(corners) - 1): ...]: both edges between consecutive
    corners that differ. *)
Fixpoint contour_edges (corners : list Pos) (G : Graph) : Graph :=
  match corners with
  | [] => G
  | corner1 :: rest =>
      match rest with
      | [] => G
      | corner2 :: _ =>
          let G :=
            if Pos_eqb corner1 corner2 then G
            else
              let dist := manha_dist corner1 corner2 in
              add_edge (add_edge G corner1 corner2 dist) corner2 corner1 dist in
          contour_edges rest G
      end
  end.

(** [s.add(x)] on a set kept as a list without repetition *)
Definition set_add (s : list Pos) (x : Pos) : list Pos :=
  if existsb (Pos_eqb x) s then s else s ++ [x].

(** [l[-1::] + l[:-1:]] *)
Definition rotate_last {A : Type} (l : list A) : list A :=
  skipn (List.length l - 1) l ++ firstn (List.length l - 1) l.

(** [list(s)] on a set of cells.  Python lists a set in the order of its
    hash table, which the source does not fix; the model takes that order as
    a parameter.  Whatever the order, the list holds each element of the set,
    and holds it once. *)
Class SetOrder : Type := {
  list_of_set : list Pos -> list Pos;
  list_of_set_perm : forall s, Permutation s (list_of_set s)
}.

(** A string with the character at index [i] replaced. *)
Fixpoint string_set (s : string) (i : nat) (ch : ascii) : string :=
  match s with
  | EmptyString => EmptyString
  | String c rest =>
      match i with
      | O => String ch rest
      | S i' => String c (string_set rest i' ch)
      end
  end.

(** The rows of an array with row [i] replaced. *)
Fixpoint rows_set (m : list string) (i : nat) (row : string) : list string :=
  match m with
  | [] => []
  | row0 :: rest =>
      match i with
      | O => row :: rest
      | S i' => row0 :: rows_set rest i' row
      end
  end.

(** [map[tuple(p)] = ch] on the array of characters of the level: the array
    after the assignment. *)
Definition np_set (m : list string) (p : Pos) (ch : ascii) : Res (list string) :=
  r <~ np_index (fst p) (Z.of_nat (List.length m)) ;;
  let row := nth r m "" in
  c <~ np_index (snd p) (Z.of_nat (String.length row)) ;;
  Ok (rows_set m r (string_set row c ch)).

(** [for corner in corners: self.uniqueCorners.add(corner); map[corner] = "O"]:
    the set of corners and the array after the loop. *)
Fixpoint mark_corners (corners : list Pos) (uniqueCorners : list Pos) (m : list string)
  : Res (list Pos * list string) :=
  match corners with
  | [] => Ok (uniqueCorners, m)
  | corner :: rest =>
      let uniqueCorners := set_add uniqueCorners corner in
      m <~ np_set m corner "O"%char ;;
      mark_corners rest uniqueCorners m
  end.

(** [for corners in cornerSets: ...] around it. *)
Fixpoint mark_sets (cornerSets : list (list Pos)) (uniqueCorners : list Pos)
  (m : list string) : Res (list Pos * list string) :=
  match cornerSets with
  | [] => Ok (uniqueCorners, m)
  | corners :: rest =>
      '(uniqueCorners, m) <~ mark_corners corners uniqueCorners m ;;
      mark_sets rest uniqueCorners m
  end.

(** [dGraph.generateGraph], given [self.cornerSets] and with
    [self.uniqueCorners] the empty set [__init__] leaves: the unique corners,
    the corner sets as the call leaves them, the graph, and the array [map]
    with the marks the call writes on it. *)
Definition generateGraph {SO : SetOrder} (m : list string) (cornerSets : list (list Pos))
  : Res (list Pos * list (list Pos) * Graph * list string) :=
  '(uniqueCorners, m) <~ mark_sets cornerSets [] m ;;
  let uniqueCorners := list_of_set uniqueCorners in
  first <~ item0 cornerSets ;;
  let cornerSets := rotate_last first :: tl cornerSets in
  let G := fold_left (fun G corners => contour_edges corners G) cornerSets [] in
  Ok (uniqueCorners, cornerSets, G, m).

(** ** More of heuristics.py: the contours of dGraph *)

(** [self.dirs[dir]]: a list of eight steps, indexed as Python indexes a
    list. *)
Definition dirs : list Pos :=
  [(0, 1); (1, 0); (0, -1); (-1, 0); (0, 1); (1, 0); (0, -1); (-1, 0)].

Definition dirs_get (dir : Z) : Res Pos :=
  i <~ np_index dir (Z.of_nat (List.length dirs)) ;;
  match nth_error dirs i with
  | Some d => Ok d
  | None => Raise IndexError
  end.

(** [dGraph.checkAndAddCorner]: the value returned and [corners] after the
    call. *)
Definition checkAndAddCorner (m : list string) (corners : list Pos) (cornerPos : Pos)
  : Res (bool * list Pos) :=
  ch <~ np_get m cornerPos ;;
  if Ascii.eqb ch "+"%char then Ok (false, corners)
  else Ok (true, corners ++ [cornerPos]).

(** [dGraph.addCorner]: the value returned, and [explored] and [corners]
    after the call. *)
Definition addCorner (m : list string) (newPos pos : Pos) (dir prevDir : Z)
  (explored_ corners : list Pos) : Res (bool * list Pos * list Pos) :=
  ch <~ np_get m newPos ;;
  if negb (Ascii.eqb ch "+"%char) && negb (existsb (Pos_eqb newPos) explored_) then
    let cornerType := dir - prevDir in
    if cornerType =? -1 then
      '(_, corners) <~ checkAndAddCorner m corners pos ;;
      Ok (true, explored_, corners)
    else Ok (true, explored_, corners)
  else if Ascii.eqb ch "+"%char then Ok (false, set_add explored_ newPos, corners)
  else Ok (false, explored_, corners).

(** The variables of [dGraph.findEdges]. *)
Record Walk : Type := mkWalk {
  w_dir : Z;
  w_prevDir : Z;
  w_pos : Pos;
  w_corners : list Pos;
  w_initDir : Z;
  w_isDone : bool;
  w_explored : list Pos
}.

(** [for j in range(0, 4): ...] with its [break], for the [j] rounds left. *)
Fixpoint turn (j : nat) (m : list string) (initPos : Pos) (w : Walk) : Res Walk :=
  match j with
  | O => Ok w
  | S j' =>
      let dir := w_dir w + 1 in
      step <~ dirs_get dir ;;
      let pos := w_pos w in
      let newPos := (fst pos + fst step, snd pos + snd step) in
      '(moved, explored_, corners) <~
        addCorner m newPos pos dir (w_prevDir w) (w_explored w) (w_corners w) ;;
      if moved then
        let prevDir := dir mod 4 in
        let isDone :=
          if Pos_eqb initPos pos && (prevDir =? w_initDir w) then true
          else w_isDone w in
        let initDir := if w_initDir w =? -999 then prevDir else w_initDir w in
        Ok (mkWalk dir prevDir newPos corners initDir isDone explored_)
      else
        turn j' m initPos
          (mkWalk dir (w_prevDir w) pos corners (w_initDir w) (w_isDone w) explored_)
  end.

(** [while not isDone: ...; dir = (prevDir - 2)]; [Blocked] when the walk has
    not closed within [fuel] rounds. *)
Fixpoint findEdges_loop (fuel : nat) (m : list string) (initPos : Pos) (w : Walk)
  : Res Walk :=
  if w_isDone w then Ok w
  else
    match fuel with
    | O => Raise Blocked
    | S fuel' =>
        w <~ turn 4 m initPos w ;;
        let w :=
          mkWalk (w_prevDir w - 2) (w_prevDir w) (w_pos w) (w_corners w)
            (w_initDir w) (w_isDone w) (w_explored w) in
        findEdges_loop fuel' m initPos w
    end.

(** [dGraph.findEdges]: the corners returned and [explored] after the call. *)
Definition findEdges (fuel : nat) (initPos : Pos) (m : list string)
  (explored_ : list Pos) : Res (list Pos * list Pos) :=
  let dir := -1 in
  let prevDir := dir + 1 in
  w <~ findEdges_loop fuel m initPos
         (mkWalk dir prevDir initPos [] (-999) false explored_) ;;
  Ok (w_corners w, w_explored w).

(** [for x in range(lo, hi): ...] on a state threaded through the bodies *)
Fixpoint for_range {S : Type} (n : nat) (lo : Z) (body : Z -> S -> Res S) (s : S)
  : Res S :=
  match n with
  | O => Ok s
  | S n' =>
      s <~ body lo s ;;
      for_range n' (lo + 1) body s
  end.

(** The body of the two nested loops of [build_graph] that look for
    contours; the state is [explored] and [self.cornerSets]. *)
Definition scan_cell (fuel : nat) (m : list string) (col row : Z)
  (s : list Pos * list (list Pos)) : Res (list Pos * list (list Pos)) :=
  let '(explored_, cornerSets) := s in
  let pos := (row, col) in
  ch <~ np_get m (row, col) ;;
  if Ascii.eqb ch "+"%char then
    let freePos := (row, col - 1) in
    ch' <~ np_get m (row, col - 1) ;;
    if negb (Ascii.eqb ch' "+"%char) && negb (existsb (Pos_eqb pos) explored_) then
      '(corners, explored_) <~ findEdges fuel freePos m explored_ ;;
      if nonempty corners then Ok (explored_, cornerSets ++ [corners])
      else Ok (explored_, cornerSets)
    else Ok (explored_, cornerSets)
  else Ok (explored_, cornerSets).

(** [dGraph.build_graph]: the unique corners, the corner sets and the graph.
    [map.shape] gives the numbers of rows and columns of the array.
    [generateGraph] is given a copy of the array, so its marks are lost. *)
Definition build_graph {SO : SetOrder} (fuel : nat) (m : list string)
  : Res (list Pos * list (list Pos) * Graph) :=
  match m with
  | [] => Raise ValueError
  | row0 :: _ =>
      let rows := Z.of_nat (List.length m) in
      let cols := Z.of_nat (String.length row0) in
      explored_ <~
        for_range (Z.to_nat cols) 0
          (fun col e => Ok (set_add (set_add e (0, col)) (rows - 1, col))) [] ;;
      explored_ <~
        for_range (Z.to_nat rows) 0 (fun row e => Ok (set_add e (row, 0))) explored_ ;;
      '(_, cornerSets) <~
        for_range (Z.to_nat (cols - 1)) 1
          (fun col s =>
             for_range (Z.to_nat (rows - 1)) 1 (fun row s => scan_cell fuel m col row s) s)
          (explored_, []) ;;
      '(uniqueCorners, cornerSets, G, _) <~ generateGraph m cornerSets ;;
      Ok (uniqueCorners, cornerSets, G)
  end.

(** ** searchclient.py *)

(** The rest of a line after its first [+], when no newline comes before it:
    what the pattern [^.*?\+] leaves of the line. *)
Fixpoint after_first_plus (line : string) : option string :=
  match line with
  | EmptyString => None
  | String c rest =>
      if Ascii.eqb c "+"%char then Some rest
      else if Ascii.eqb c "010"%char then None
      else after_first_plus rest
  end.

(** [re.sub(r'^.*?\+', '+', line)] *)
Definition sub_to_first_plus (line : string) : string :=
  match after_first_plus line with
  | Some rest => String "+"%char rest
  | None => line
  end.

(** [while len(new_line) < prev: new_line = "+" + new_line], run for the
    [n] characters that are missing. *)
Fixpoint pad_plus (n : nat) (new_line : string) : string :=
  match n with
  | O => new_line
  | S n' => pad_plus n' (String "+"%char new_line)
  end.

(** [SearchClient._formatl] *)
Definition _formatl (line : string) : string :=
  let prev := String.length line in
  let new_line := sub_to_first_plus line in
  pad_plus (prev - String.length new_line) new_line.

(** ** Conditions on scores and states *)

(** A list of costs none of which is negative. *)
Definition nonneg (l : list Z) : Prop := Forall (fun x => 0 <= x) l.

(** Every goal under the keys has a color for which the state lists agents. *)
Definition goal_colors_known {SM : StateMethods} (state : StateInit) (keys : list Key)
  : Prop :=
  forall key pos col,
    In key keys -> In (pos, col) (getGoalsByKey state key) ->
    existsb (String.eqb col) (List.map fst (agentColor state)) = true.

(** The edges of a graph come in pairs, weigh the Manhattan distance of
    their ends, join different cells, and end in cells that satisfy [P]. *)
Definition edges_ok (P : Pos -> Prop) (G : Graph) : Prop :=
  forall u v w,
    In (u, v, w) G ->
    w = manha_dist u v /\ u <> v /\ In (v, u, w) G /\ P u /\ P v.

(** ** A concrete world for running the model *)

Module SpecWorld.

(** [d[k]] on a dict with string keys, [None] when the key is absent *)
Fixpoint lookup {V : Type} (d : list (string * V)) (k : string) : option V :=
  match d with
  | [] => None
  | (k', v) :: r => if String.eqb k' k then Some v else lookup r k
  end.

Definition entries (d : Objects) (k : Key) : list (Pos * Color) :=
  match lookup d k with
  | Some v => v
  | None => []
  end.

Definition pos_eqb (a b : Pos) : bool :=
  (fst a =? fst b) && (snd a =? snd b).

(** The cell of the map at a position; outside the grid counts as wall. *)
Definition cell (m : list string) (p : Pos) : ascii :=
  if (fst p <? 0) || (snd p <? 0) then "+"%char
  else
    match String.get (Z.to_nat (snd p)) (nth (Z.to_nat (fst p)) m "") with
    | Some c => c
    | None => "+"%char
    end.

Definition occupied (d : Objects) (p : Pos) : bool :=
  existsb (fun kv => existsb (fun e => pos_eqb (fst e) p) (snd kv)) d.

Definition is_free (s : StateInit) (p : Pos) : bool :=
  negb (Ascii.eqb (cell (map s) p) "+"%char)
  && negb (occupied (agents s) p) && negb (occupied (boxes s) p).

(** Modelled from the spec: [isGoalState] of the missing [actions.py], which
    holds iff every goal cell contains a box of the matching key and color. *)
Definition spec_isGoalState (s : StateInit) : bool :=
  forallb (fun kv =>
    forallb (fun goal =>
      existsb (fun box => pos_eqb (fst box) (fst goal) && String.eqb (snd box) (snd goal))
        (entries (boxes s) (fst kv)))
      (snd kv))
    (goals s).

(** Modelled from the spec: the move actions of the successor function
    [explore] of the missing [actions.py]: the first agent steps to a free
    neighbouring cell, at cost 1.  Pushes and pulls are left out, so boxes
    stay where they are. *)
Definition spec_explore (s : StateInit) : list StateInit :=
  match agents s with
  | (key, (pos, col) :: others) :: rest =>
      flat_map (fun '(action, (dr, dc)) =>
        let target := (fst pos + dr, snd pos + dc) in
        if is_free s target then
          [mkState (map s) ((key, (target, col) :: others) :: rest) (boxes s)
             (goals s) (agentColor s) (g s + 1) (h s) (f s)
             (explored s ++ [[agents s; boxes s]]) (t s + 1) (concurrent s)
             (parent_actions s ++ [action]) (currentPath s) (prevKeypoints s)]
        else [])
        [("Move(N)", (-1, 0)); ("Move(E)", (0, 1)); ("Move(S)", (1, 0));
         ("Move(W)", (0, -1))]
  | _ => []
  end.

(** Modelled from the spec: [bestPath] of the missing [actions.py], the chain
    of actions from the root. *)
Definition spec_bestPath (s : StateInit) : list Action := parent_actions s.

(** Modelled from the spec: [bestPath(format=key)] of the missing
    [actions.py], the [(t, position)] timeline of the object [key] along the
    chain of actions; with moves only, a box keeps its position. *)
Definition spec_bestPath_format (s : StateInit) (key : Key) : Timeline :=
  match entries (boxes s) key with
  | [] => []
  | (pos, _) :: _ =>
      List.map (fun n => (Z.of_nat n, pos)) (seq 0 (S (List.length (parent_actions s))))
  end.

(** Modelled from the spec: [addGoal(key, position, color)] of the missing
    [actions.py]. *)
Fixpoint add_entry (d : Objects) (key : Key) (e : Pos * Color) : Objects :=
  match d with
  | [] => [(key, [e])]
  | (k, v) :: r =>
      if String.eqb k key then (k, v ++ [e]) :: r else (k, v) :: add_entry r key e
  end.

Definition spec_addGoal (s : StateInit) (key : Key) (pos : Pos) (color : Color)
  : StateInit :=
  mkState (map s) (agents s) (boxes s) (add_entry (goals s) key (pos, color))
    (agentColor s) (g s) (h s) (f s) (explored s) (t s) (concurrent s)
    (parent_actions s) (currentPath s) (prevKeypoints s).

(** Modelled from the spec: [forget_exploration] of the missing [actions.py],
    which resets the [explored] set. *)
Definition spec_forget_exploration (s : StateInit) : StateInit :=
  mkState (map s) (agents s) (boxes s) (goals s) (agentColor s) (g s) (h s) (f s)
    [] (t s) (concurrent s) (parent_actions s) (currentPath s) (prevKeypoints s).

(** Modelled from the spec: the class [StateConcurrent] of the missing
    [actions.py], a base state with an overlay added. *)
Definition spec_StateConcurrent (s : StateInit) (overlay : Overlay) : StateInit :=
  mkState (map s) (agents s) (boxes s) (goals s) (agentColor s) (g s) (h s) (f s)
    (explored s) (t s) (Some overlay) (parent_actions s) (currentPath s)
    (prevKeypoints s).

(** Modelled from the spec: [Neighbour] of the missing [actions.py], the test
    that two cells are 4-neighbours. *)
Definition spec_Neighbour (_ : StateInit) (a b : Pos) : bool :=
  manha_dist a b =? 1.

(** Modelled from the spec: the accessors of the missing [actions.py] read
    the mappings [key -> list[(position, color)]] of the state. *)
#[local] Instance methods : StateMethods := {
  isGoalState := spec_isGoalState;
  explore := spec_explore;
  bestPath := spec_bestPath;
  bestPath_format := spec_bestPath_format;
  Neighbour := spec_Neighbour;
  getGoalKeys := fun s => List.map fst (goals s);
  getGoalsByKey := fun s k => entries (goals s) k;
  getBoxesByKey := fun s k => entries (boxes s) k;
  getAgentsByKey := fun s k => entries (agents s) k;
  getAgentsByColor := fun s c =>
    match lookup (agentColor s) c with Some v => v | None => [] end;
  addGoal := spec_addGoal;
  forget_exploration := spec_forget_exploration;
  StateConcurrent := spec_StateConcurrent
}.

(** A path query for running [dGraph] on a map without walls, where the
    shortest path between two cells has their Manhattan distance. *)
#[local] Instance open_map_query : PathQuery := {
  findPathPart := fun parts state pathId =>
    match nth_error parts pathId with
    | Some (a, b) => Ok (manha_dist a b, state)
    | None => Raise IndexError
    end
}.

(** Modelled from the spec: the search kernel of the missing [strategy.py]
    (spec section 4.2): constructed from the initial state and the heuristic,
    the frontier seeded with the scored initial state; [explore_and_add]
    expands the leaf, scores the children and puts each under
    [(priority, tiebreak, state)]; [get_and_remove_leaf] pops the least
    entry. *)
Record kernel : Type := mkKernel {
  k_frontier : list emergency_aStar.Entry;
  k_heuristic : Heuristic;
  k_leaf : StateInit;
  k_count : Z
}.

Definition kernel_new (init_state : StateInit) (hr : Heuristic) : Res kernel :=
  '(scored, _) <~ Heuristic_call hr [init_state] ;;
  leaf <~ item0 scored ;;
  Ok (mkKernel [(f leaf, 0, leaf)] hr leaf 0).

Definition kernel_explore_and_add (k : kernel) : Res kernel :=
  '(children, _) <~ Heuristic_call (k_heuristic k) (explore (k_leaf k)) ;;
  let '(q, count) := emergency_aStar.put_all (k_frontier k) (k_count k) children in
  Ok (mkKernel q (k_heuristic k) (k_leaf k) count).

Definition kernel_get_and_remove_leaf (k : kernel) : Res kernel :=
  match emergency_aStar.get_least (k_frontier k) with
  | None => Raise Blocked
  | Some (e, q) =>
      Ok (mkKernel q (k_heuristic k) (emergency_aStar.entry_state e) (k_count k))
  end.

Definition aStar : BestFirstSearch := {|
  searcher := kernel;
  new := kernel_new;
  leaf := k_leaf;
  count := k_count;
  explore_and_add := kernel_explore_and_add;
  frontier_empty := fun k => negb (nonempty (k_frontier k));
  get_and_remove_leaf := kernel_get_and_remove_leaf;
  walk_best_path := fun k => bestPath (k_leaf k)
|}.

(** A memory module with a ceiling of 2048 and a process that always uses
    more, and one that never does. *)
Definition memory_full : Memory := {| MAX_USAGE := 2048; get_usage := fun _ => 4096 |}.
Definition memory_free : Memory := {| MAX_USAGE := 2048; get_usage := fun _ => 64 |}.

(** A process whose usage grows by 1024 with every reading. *)
Definition memory_filling : Memory :=
  {| MAX_USAGE := 2048; get_usage := fun n => 1024 * (Z.of_nat n + 1) |}.

(** *** Levels *)

(** A corridor [+0 A +] with the goal for [A] in the last free cell; all
    objects are red. *)
Definition corridor : StateInit :=
  mkState ["+++++++"; "+     +"; "+++++++"]
    [("0", [((1, 1), "red")])]
    [("A", [((1, 3), "red")])]
    [("A", [((1, 5), "red")])]
    [("red", ["0"])]
    0 0 0 [] 0 None [] None None.

(** The same corridor with the box already on its goal. *)
Definition corridor_solved : StateInit :=
  mkState ["+++++++"; "+     +"; "+++++++"]
    [("0", [((1, 1), "red")])]
    [("A", [((1, 5), "red")])]
    [("A", [((1, 5), "red")])]
    [("red", ["0"])]
    0 0 0 [] 0 None [] None None.

(** A one-goal subtask for a red agent: box [B] two cells from its goal. *)
Definition subtask_B : StateInit :=
  mkState ["+++++++"; "+     +"; "+++++++"]
    [("0", [((1, 1), "red")])]
    [("B", [((1, 2), "red")])]
    [("B", [((1, 4), "red")])]
    [("red", ["0"])]
    0 0 0 [] 0 None [] None None.

(** The corridor with a blue box [B] next to the red agent; the agent has
    explored its start cell. *)
Definition corridor_blocked : StateInit :=
  mkState ["+++++++"; "+     +"; "+++++++"]
    [("0", [((1, 1), "red")])]
    [("A", [((1, 4), "red")]); ("B", [((1, 2), "blue")])]
    [("A", [((1, 5), "red")])]
    [("red", ["0"]); ("blue", ["1"])]
    0 0 0
    [[[("0", [((1, 1), "red")])];
      [("A", [((1, 4), "red")]); ("B", [((1, 2), "blue")])]]]
    0 None [] None None.

(** A box walled in on all four sides, out of reach of the agent, which has
    explored the two cells it can stand on. *)
Definition walled_box : StateInit :=
  mkState ["+++++++"; "+  + ++"; "+++++++"]
    [("0", [((1, 1), "red")])]
    [("A", [((1, 4), "red")])]
    [("A", [((1, 2), "red")])]
    [("red", ["0"])]
    0 0 0
    [[[("0", [((1, 1), "red")])]; [("A", [((1, 4), "red")])]];
     [[("0", [((1, 2), "red")])]; [("A", [((1, 4), "red")])]]]
    0 None [] None None.

(** A task whose agent is listed as blue while its goal is red. *)
Definition corridor_two_colors : StateInit :=
  mkState ["+++++++"; "+     +"; "+++++++"]
    [("0", [((1, 1), "blue")])]
    [("A", [((1, 3), "red")])]
    [("A", [((1, 5), "red")])]
    [("blue", ["0"])]
    0 0 0 [] 0 None [] None None.

(** *** Agents and messages *)

(** Agent [0] as [Agent.__init__] builds it on a task, with the default
    heuristic. *)
Definition agent_on (task : StateInit) : Agent :=
  mkAgent task task EasyRule "red" "0" (1, 1) STATUS.init None None.

(** The same agent after a search that found no plan. *)
Definition failed_agent_on (task : StateInit) : Agent :=
  set_status (agent_on task) STATUS.fail.

(** A failed agent that holds a request. *)
Definition failed_helper_on (task : StateInit) (request : Message) : Agent :=
  set_helping (failed_agent_on task) (Some request).

(** The searcher [aStar] builds on the corridor with [EasyRule]. *)
Definition corridor_kernel : kernel :=
  mkKernel [(20, 0, set_f (set_h corridor 4) 20)] EasyRule
    (set_f (set_h corridor 4) 20) 0.

(** The SOS of agent [1], asking for box [A] to be moved. *)
Definition sos_from_1 : Message :=
  mkMessage "A" "red" "1" STATUS.fail None.

(** A helper's answer to agent [0]: box [B] moves from (1,2) to (2,2). *)
Definition answer_to_0 : Message :=
  mkMessage "B" "blue" "0" STATUS.ok (Some [(0, (1, 2)); (1, (1, 2)); (2, (2, 2))]).

(** *** A world with pushes *)

(** The key and color of the box at a cell, if there is one. *)
Definition box_at (d : Objects) (p : Pos) : option (Key * Color) :=
  match
    flat_map (fun kv =>
      flat_map (fun e => if pos_eqb (fst e) p then [(fst kv, snd e)] else []) (snd kv)) d
  with
  | [] => None
  | kc :: _ => Some kc
  end.

(** The boxes with the one at [from] moved to [to]. *)
Definition move_box (d : Objects) (from to : Pos) : Objects :=
  List.map (fun kv =>
    (fst kv,
     List.map (fun e => if pos_eqb (fst e) from then (to, snd e) else e) (snd kv))) d.

(** Modelled from the spec: the moves and the pushes of the successor
    function [explore] of the missing [actions.py]: the first agent steps to
    a free neighbouring cell, or pushes a box of its own color that stands
    there one cell on in the direction of its motion, when that cell is free;
    each action costs 1.  Pulls are left out. *)
Definition spec_explore_push (s : StateInit) : list StateInit :=
  match agents s with
  | (key, (pos, col) :: others) :: rest =>
      flat_map (fun '(dname, (dr, dc)) =>
        let target := (fst pos + dr, snd pos + dc) in
        let beyond := (fst target + dr, snd target + dc) in
        let child (action : Action) (boxes' : Objects) :=
          mkState (map s) ((key, (target, col) :: others) :: rest) boxes'
            (goals s) (agentColor s) (g s + 1) (h s) (f s)
            (explored s ++ [[agents s; boxes s]]) (t s + 1) (concurrent s)
            (parent_actions s ++ [action]) (currentPath s) (prevKeypoints s) in
        if is_free s target then [child ("Move(" ++ dname ++ ")")%string (boxes s)]
        else
          match box_at (boxes s) target with
          | Some (_, bcol) =>
              if String.eqb bcol col && is_free s beyond
              then [child ("Push(" ++ dname ++ "," ++ dname ++ ")")%string
                      (move_box (boxes s) target beyond)]
              else []
          | None => []
          end)
        [("N", (-1, 0)); ("E", (0, 1)); ("S", (1, 0)); ("W", (0, -1))]
  | _ => []
  end.

(** Modelled from the spec: [bestPath(format=key)] of the missing
    [actions.py], the [(t, position)] timeline of the first box of the key
    along the chain of states; the states of the chain are those recorded in
    [explored], followed by the state itself. *)
Definition chain_bestPath_format (s : StateInit) (key : Key) : Timeline :=
  let positions :=
    flat_map (fun rep =>
      match entries (nth 1 rep []) key with
      | [] => []
      | (pos, _) :: _ => [pos]
      end) (explored s ++ [[agents s; boxes s]]) in
  combine (List.map Z.of_nat (seq 0 (List.length positions))) positions.

(** Modelled from the spec: the methods of the missing [actions.py] as in
    [methods], with pushes among the successors. *)
#[local] Instance methods_push : StateMethods := {
  isGoalState := spec_isGoalState;
  explore := spec_explore_push;
  bestPath := spec_bestPath;
  bestPath_format := chain_bestPath_format;
  Neighbour := spec_Neighbour;
  getGoalKeys := fun s => List.map fst (goals s);
  getGoalsByKey := fun s k => entries (goals s) k;
  getBoxesByKey := fun s k => entries (boxes s) k;
  getAgentsByKey := fun s k => entries (agents s) k;
  getAgentsByColor := fun s c =>
    match lookup (agentColor s) c with Some v => v | None => [] end;
  addGoal := spec_addGoal;
  forget_exploration := spec_forget_exploration;
  StateConcurrent := spec_StateConcurrent
}.

(** Modelled from the spec: the search kernel of the missing [strategy.py]
    as in [aStar], over the world with pushes. *)
Definition aStar_push : BestFirstSearch := {|
  searcher := kernel;
  new := fun init_state hr =>
    '(scored, _) <~ Heuristic_call (SM := methods_push) hr [init_state] ;;
    leaf <~ item0 scored ;;
    Ok (mkKernel [(f leaf, 0, leaf)] hr leaf 0);
  leaf := k_leaf;
  count := k_count;
  explore_and_add := fun k =>
    '(children, _) <~
      Heuristic_call (SM := methods_push) (k_heuristic k) (spec_explore_push (k_leaf k)) ;;
    let '(q, count) :=
      emergency_aStar.put_all (k_frontier k) (k_count k) children in
    Ok (mkKernel q (k_heuristic k) (k_leaf k) count);
  frontier_empty := fun k => negb (nonempty (k_frontier k));
  get_and_remove_leaf := kernel_get_and_remove_leaf;
  walk_best_path := fun k => spec_bestPath (k_leaf k)
|}.

(** *** A map with an inner wall, and its corners *)

Definition room : list string :=
  ["+++++++"; "+     +"; "+ +++ +"; "+     +"; "+++++++"].

Definition room_corners : list Pos :=
  [(1, 1); (1, 5); (3, 1); (3, 5); (1, 3); (3, 3)].

(** A one-goal subtask of another color: box [C] and its goal are blue. *)
Definition subtask_C_blue : StateInit :=
  mkState ["+++++++"; "+     +"; "+++++++"]
    [("1", [((1, 1), "blue")])]
    [("C", [((1, 2), "blue")])]
    [("C", [((1, 4), "blue")])]
    [("blue", ["1"])]
    0 0 0 [] 0 None [] None None.

(** The corridor with no goal at all. *)
Definition corridor_no_goals : StateInit :=
  mkState ["+++++++"; "+     +"; "+++++++"]
    [("0", [((1, 1), "red")])]
    [("A", [((1, 3), "red")])]
    []
    [("red", ["0"])]
    0 0 0 [] 0 None [] None None.


(** One way of listing a set: first added, first listed. *)
#[local] Instance insertion_order : SetOrder := {
  list_of_set := fun s => s;
  list_of_set_perm := fun s => Permutation_refl s
}.

(** A room with a longer inner wall, and the contour [findEdges] walks
    around that wall.  CPython lists the set of these four corners in the
    order they were added. *)
Definition wide_room : list string :=
  ["+++++++++"; "+       +"; "+ +++++ +"; "+       +"; "+++++++++"].

Definition wide_room_contours : list (list Pos) :=
  [[(3, 1); (3, 7); (1, 7); (1, 1)]].

End SpecWorld.

(** * Properties *)

(** ** Agent.__init__ *)

Section AgentFacts.
Context {SM : StateMethods} {PQ : PathQuery} {MEM : Memory}.
Variable strategy : BestFirstSearch.

(** C10: [Agent.__init__] succeeds only on a task with a first goal entry and
    a first agent entry; the agent's color is then the color of the first goal
    entry, its name the first agent key and its initial position the position
    of the first agent entry.  On empty goals or empty agents it raises
    [IndexError]. *)
Theorem Agent_init_first_goal_first_agent (task0 : StateInit) (hr : option Heuristic) :
  (goals task0 = [] \/ agents task0 = [] -> Agent_init task0 hr = Raise IndexError)
  /\ (forall a, Agent_init task0 hr = Ok a ->
       exists gkey gpos gcolor gmore grest akey apos acolor amore arest,
         goals task0 = (gkey, (gpos, gcolor) :: gmore) :: grest
         /\ agents task0 = (akey, (apos, acolor) :: amore) :: arest
         /\ color a = gcolor /\ name a = akey /\ init_pos a = apos
         /\ task a = task0 /\ status a = STATUS.init).
Proof.
  unfold Agent_init. split.
  - intros [E | E]; rewrite E; simpl; [reflexivity|].
    destruct (goals task0) as [|[gk [|ge gm]] gr]; reflexivity.
  - intros a.
    destruct (goals task0) as [|[gk [|[gpos gcolor] gm]] gr]; simpl; try discriminate.
    destruct (agents task0) as [|[ak [|[apos acolor] am]] ar]; simpl; try discriminate.
    intros E. injection E as <-. simpl.
    exists gk, gpos, gcolor, gm, gr, ak, apos, acolor, am, ar.
    repeat split; reflexivity.
Qed.

(** ** Agent.broadcast *)

(** [_sos] only reads the agent. *)
Lemma _sos_reads (self : Agent) : snd (_sos self) = self.
Proof.
  unfold _sos, bind, get, lift, throw.
  destruct (_identify_problem self) as [[[box col]|]|e]; reflexivity.
Qed.

(** An agent whose status is [ok] always gets its broadcast through: nothing
    when it helps nobody, else the answer to the request it holds. *)
Lemma broadcast_ok_status (self : Agent) :
  status self = STATUS.ok ->
  exists message self',
    broadcast self = (Ok message, self')
    /\ status self' = STATUS.ok
    /\ saved_solution self' = saved_solution self
    /\ helping self' = None.
Proof.
  intros Hst. unfold broadcast, bind, get, ret. rewrite Hst. simpl.
  destruct (helping self) as [request|] eqn:Hh.
  - unfold _send_success, bind, get, ret, lift, modify. rewrite Hh, Hst. simpl.
    eexists. eexists. split; [reflexivity|]. simpl. auto.
  - eexists. eexists. split; [reflexivity|]. auto.
Qed.

(** ** Agent.search and Agent.solve *)

(** C9: when the leaf of the searcher is a goal state from the start,
    [Agent.search] returns the empty plan whatever the bound on iterations,
    and [Agent.solve], once it has built that searcher, returns the empty
    plan with the agent's status [ok] and the empty plan saved. *)
Theorem solve_goal_leaf_empty_plan (fuel : nat) (inbox inbox1 : list Message)
  (self self1 : Agent) (s : searcher strategy) :
  STATUS.eqb (status self) STATUS.ok && negb (nonempty_option (helping self)) = false ->
  solve_inbox inbox self = (Ok tt, self1, inbox1) ->
  new strategy (task self1) (heuristic self1) = Ok s ->
  isGoalState (leaf strategy s) = true ->
  search strategy fuel s self1 = Some (Ok (Some []), self1)
  /\ exists message self2,
       solve strategy fuel inbox self = Some (Ok (Some [], message), self2, inbox1)
       /\ status self2 = STATUS.ok
       /\ saved_solution self2 = Some [].
Proof.
  intros Hcached Hinbox Hnew Hgoal.
  assert (Hsearch : search strategy fuel s self1 = Some (Ok (Some []), self1)).
  { unfold search. now rewrite Hgoal. }
  split; [exact Hsearch|].
  unfold solve. rewrite Hcached, Hinbox, Hnew, Hsearch.
  set (self' := set_saved_solution (set_status self1 STATUS.ok) (Some [])).
  destruct (broadcast_ok_status self' eq_refl) as (message & self2 & Hb & Hst & Hsv & _).
  exists message, self2. rewrite Hb. repeat split; assumption.
Qed.

(** Passes that stay in the loop, with every reading of the memory usage
    within the ceiling, are what [search_loop] goes through. *)
Lemma search_loop_passes (n : nat) :
  forall (fuel polls : nat) (iterations : Z) (s s_n : searcher strategy) (self : Agent),
    search_passes strategy n s = Some s_n ->
    (forall k, (k < n)%nat -> get_usage (polls + k) <= MAX_USAGE) ->
    exists iterations',
      search_loop strategy (n + fuel) polls iterations s self
      = search_loop strategy fuel (polls + n) iterations' s_n self.
Proof.
  induction n as [|n IH]; intros fuel polls iterations s s_n self Hp Hu.
  - simpl in Hp. injection Hp as <-. exists iterations.
    now rewrite Nat.add_0_r.
  - simpl in Hp. simpl search_loop.
    destruct (isGoalState (leaf strategy s)); [discriminate|].
    assert (H0 : (get_usage polls >? MAX_USAGE) = false).
    { specialize (Hu O (Nat.lt_0_succ n)). rewrite Nat.add_0_r in Hu.
      rewrite Z.gtb_ltb. apply Z.ltb_ge. exact Hu. }
    rewrite H0.
    destruct (explore_and_add strategy s) as [s1|]; [|discriminate].
    destruct (frontier_empty strategy s1); [discriminate|].
    destruct (get_and_remove_leaf strategy s1) as [s2|]; [|discriminate].
    destruct (isGoalState (leaf strategy s2)); [discriminate|].
    destruct (IH fuel (S polls)
                ((if iterations =? 1000 then 0 else iterations) + 1) s2 s_n self Hp)
      as [it' Hit'].
    { intros k Hk. replace (S polls + k)%nat with (polls + S k)%nat by lia.
      apply Hu. lia. }
    exists it'. rewrite Hit'. f_equal. lia.
Qed.

Lemma search_passes_not_goal (n : nat) (s s_n : searcher strategy) :
  search_passes strategy n s = Some s_n ->
  isGoalState (leaf strategy s_n) = false ->
  isGoalState (leaf strategy s) = false.
Proof.
  destruct n as [|n]; simpl.
  - intros E. now injection E as <-.
  - destruct (isGoalState (leaf strategy s)); [discriminate | reflexivity].
Qed.

(** C4, as the code has it: when the search has gone through [n] passes of
    its loop with the memory usage within the ceiling and the next reading
    exceeds it, [Agent.search] raises [ResourceLimit], with the agent's status
    and saved solution as they were; [Agent.solve] lets the exception
    through: it returns neither a plan nor a message, the inbox is as the
    inbox step left it, and the agent's status and saved solution are those
    it had before the search, so the agent is not set to [fail]. *)
Theorem search_memory_exceeded_raises (n fuel : nat) (s s_n : searcher strategy)
  (self : Agent) :
  search_passes strategy n s = Some s_n ->
  isGoalState (leaf strategy s_n) = false ->
  (forall k, (k < n)%nat -> get_usage k <= MAX_USAGE) ->
  get_usage n > MAX_USAGE ->
  (n < fuel)%nat ->
  (exists self',
      search strategy fuel s self = Some (Raise ResourceLimit, self')
      /\ status self' = status self
      /\ saved_solution self' = saved_solution self)
  /\ forall (inbox inbox1 : list Message) (self0 : Agent),
       STATUS.eqb (status self0) STATUS.ok && negb (nonempty_option (helping self0))
       = false ->
       solve_inbox inbox self0 = (Ok tt, self, inbox1) ->
       new strategy (task self) (heuristic self) = Ok s ->
       exists self',
         solve strategy fuel inbox self0 = Some (Raise ResourceLimit, self', inbox1)
         /\ status self' = status self
         /\ saved_solution self' = saved_solution self.
Proof.
  intros Hp Hleaf Hu Hover Hfuel.
  assert (Hsearch : search strategy fuel s self = Some (Raise ResourceLimit, self)).
  { unfold search. rewrite (search_passes_not_goal n s s_n Hp Hleaf).
    replace fuel with (n + S (fuel - S n))%nat by lia.
    destruct (search_loop_passes n (S (fuel - S n)) O 0 s s_n self Hp Hu)
      as [it' ->].
    simpl. rewrite Hleaf.
    apply Z.gt_lt, Z.ltb_lt in Hover. rewrite Z.gtb_ltb, Hover. reflexivity. }
  split.
  - exists self. split; [exact Hsearch|]. split; reflexivity.
  - intros inbox inbox1 self0 Hcached Hinbox Hnew.
    exists self. unfold solve. rewrite Hcached, Hinbox, Hnew, Hsearch.
    split; [reflexivity|]. split; reflexivity.
Qed.

(** ** Agent._identify_problem and the SOS *)

Lemma blocking_box_none (state : StateInit) (bs : list (Key * (Pos * Color)))
  (trace : list Pos) :
  (forall box pos col agent_pos,
      In (box, (pos, col)) bs -> In agent_pos trace ->
      Neighbour state pos agent_pos = false) ->
  blocking_box state bs trace = None.
Proof.
  induction bs as [|[box [pos col]] bs IH]; intros Hn; [reflexivity|].
  simpl. replace (existsb _ trace) with false.
  - apply IH. intros b p c q Hb Hq. apply (Hn b p c q); [now right | exact Hq].
  - symmetry. apply not_true_is_false. intros Hex.
    apply existsb_exists in Hex. destruct Hex as (q & Hq & Hnb).
    rewrite (Hn box pos col q) in Hnb; [discriminate | now left | exact Hq].
Qed.

(** C8, as the code has it: when no box of another color is a 4-neighbour of
    a traced position of the agent, [_identify_problem] returns [None], the
    unpacking in [_sos] raises [TypeError], and the broadcast of the failed
    agent raises it too: no SOS message is produced, and the explored set is
    not reset. *)
Theorem broadcast_without_blocker_raises (self : Agent)
  (bs : list (Key * (Pos * Color))) (trace : list Pos) :
  status self = STATUS.fail ->
  other_boxes (color self) (boxes (task self)) = Ok bs ->
  track_back self = Ok trace ->
  (forall box pos col agent_pos,
      In (box, (pos, col)) bs -> In agent_pos trace ->
      Neighbour (task self) pos agent_pos = false) ->
  _identify_problem self = Ok None
  /\ broadcast self = (Raise TypeError, self).
Proof.
  intros Hst Hb Ht Hn.
  assert (Hid : _identify_problem self = Ok None).
  { unfold _identify_problem. rewrite Hb, Ht. simpl.
    now rewrite (blocking_box_none _ _ _ Hn). }
  split; [exact Hid|].
  unfold broadcast, bind, get. rewrite Hst. simpl.
  unfold _sos, bind, get, lift, throw. now rewrite Hid.
Qed.

(** What [_sos] gives when a blocking box is found. *)
Lemma _sos_found (self : Agent) (box : Key) (col : Color) :
  status self = STATUS.fail ->
  _identify_problem self = Ok (Some (box, col)) ->
  _sos self = (Ok (mkMessage box col (name self) STATUS.fail None), self).
Proof.
  intros Hst Hid. unfold _sos, bind, get, lift. rewrite Hid, Hst. reflexivity.
Qed.

(** A failed agent that helps nobody and finds a blocking box sends its SOS
    and forgets its exploration. *)
Lemma broadcast_failed_alone (self : Agent) (box : Key) (col : Color) :
  status self = STATUS.fail ->
  helping self = None ->
  _identify_problem self = Ok (Some (box, col)) ->
  broadcast self
  = (Ok (Some (mkMessage box col (name self) STATUS.fail None)),
     set_task self (forget_exploration (task self))).
Proof.
  intros Hst Hh Hid. unfold broadcast, bind, get, ret, modify.
  rewrite Hst. simpl. rewrite (_sos_found self box col Hst Hid). simpl.
  rewrite Hh. reflexivity.
Qed.

(** An agent that has not failed and helps somebody answers the request with
    the timeline of the box and its own status, and stops helping. *)
Lemma broadcast_helper (self : Agent) (request : Message) :
  status self = STATUS.ok ->
  helping self = Some request ->
  broadcast self
  = (Ok (Some (mkMessage (object_problem request) (msg_color request)
                 (requester request) STATUS.ok
                 (Some (bestPath_format (task self) (object_problem request))))),
     set_helping self None).
Proof.
  intros Hst Hh. unfold broadcast, bind, get, ret. rewrite Hst. simpl.
  rewrite Hh. unfold _send_success, bind, get, ret, lift, modify.
  rewrite Hh, Hst. reflexivity.
Qed.

(** An agent that has not failed and helps nobody sends nothing. *)
Lemma broadcast_silent (self : Agent) :
  status self <> STATUS.fail ->
  helping self = None ->
  broadcast self = (Ok None, self).
Proof.
  intros Hst Hh. unfold broadcast, bind, get, ret.
  destruct (status self); try contradiction; simpl; now rewrite Hh.
Qed.

(** C2, as the code has it: the two tests of [broadcast] are not
    alternatives.  A failed agent that holds a request first builds its SOS
    and resets the explored set, and then replaces the SOS by the answer to
    the request, sent with status [fail]; the SOS is lost. *)
Theorem broadcast_failed_helper_drops_sos (self : Agent) (request : Message)
  (box : Key) (col : Color) :
  status self = STATUS.fail ->
  helping self = Some request ->
  _identify_problem self = Ok (Some (box, col)) ->
  broadcast self
  = (Ok (Some (mkMessage (object_problem request) (msg_color request)
                 (requester request) STATUS.fail
                 (Some (bestPath_format (forget_exploration (task self))
                          (object_problem request))))),
     set_helping (set_task self (forget_exploration (task self))) None).
Proof.
  intros Hst Hh Hid. unfold broadcast, bind, get, ret, modify.
  rewrite Hst. simpl. rewrite (_sos_found self box col Hst Hid). simpl.
  rewrite Hh. unfold _send_success, bind, get, ret, lift, modify. simpl.
  rewrite Hh, Hst. reflexivity.
Qed.

(** ** The inbox step of Agent.solve *)

(** The inbox is the same list after the step, whatever the step does. *)
Lemma solve_inbox_keeps_inbox (inbox : list Message) (self : Agent) :
  snd (solve_inbox inbox self) = inbox.
Proof.
  unfold solve_inbox.
  destruct (nonempty inbox && STATUS.eqb (status self) STATUS.fail); [|reflexivity].
  destruct (first_request (name self) 0 inbox) as [[i message]|]; [|reflexivity].
  destruct (consume_message message self) as [[[]|e] self']; [|reflexivity].
  destruct (truthy (PyInt i)); reflexivity.
Qed.

Lemma first_request_found (nm : Key) (inbox : list Message) :
  forall (i j : Z) (message : Message),
    first_request nm i inbox = Some (j, message) ->
    i <= j /\ nonempty inbox = true /\ requester message = nm
    /\ nth_error inbox (Z.to_nat (j - i)) = Some message.
Proof.
  induction inbox as [|m inbox IH]; intros i j message; simpl; [discriminate|].
  destruct (String.eqb (requester m) nm) eqn:E.
  - intros H. injection H as <- <-. apply String.eqb_eq in E.
    rewrite Z.sub_diag. repeat split; [lia | exact E].
  - intros H. destruct (IH _ _ _ H) as (Hle & _ & Hr & Hn).
    repeat split; [lia | exact Hr |].
    replace (Z.to_nat (j - i)) with (S (Z.to_nat (j - (i + 1)))) by lia.
    exact Hn.
Qed.

(** C1, as the code has it: a failed agent that finds a message addressed to
    it at index [i] consumes it, and then the message is not removed.  At
    index 0 the test [if to_del] fails and the step ends with the inbox as it
    was; at any later index [del inbox[message]] raises [TypeError], which
    ends [Agent.solve].  Whatever [Agent.solve] returns, the inbox still
    holds every message. *)
Theorem solve_never_removes_request (fuel : nat) (inbox : list Message)
  (self self' : Agent) (i : Z) (message : Message) :
  status self = STATUS.fail ->
  first_request (name self) 0 inbox = Some (i, message) ->
  consume_message message self = (Ok tt, self') ->
  solve_inbox inbox self
  = (if i =? 0 then Ok tt else Raise TypeError, self', inbox)
  /\ (i <> 0 ->
      solve strategy fuel inbox self = Some (Raise TypeError, self', inbox))
  /\ (forall r a inbox',
        solve strategy fuel inbox self = Some (r, a, inbox') -> inbox' = inbox).
Proof.
  intros Hst Hfind Hcons.
  destruct (first_request_found _ _ _ _ _ Hfind) as (_ & Hne & _ & _).
  assert (Hstep : solve_inbox inbox self
                  = (if i =? 0 then Ok tt else Raise TypeError, self', inbox)).
  { unfold solve_inbox. rewrite Hne, Hst, Hfind, Hcons. simpl.
    destruct (i =? 0); reflexivity. }
  assert (Hcached :
    STATUS.eqb (status self) STATUS.ok && negb (nonempty_option (helping self))
    = false) by now rewrite Hst.
  split; [exact Hstep|]. split.
  - intros Hi. unfold solve. rewrite Hcached, Hstep.
    apply Z.eqb_neq in Hi. now rewrite Hi.
  - intros r a inbox'. unfold solve. rewrite Hcached, Hstep.
    destruct (i =? 0).
    + destruct (new strategy (task self') (heuristic self')) as [s|e].
      * destruct (search strategy fuel s self') as [[[path|e] self2]|];
          [|intros H; now injection H|discriminate].
        destruct (broadcast _) as [[m|e] self3]; intros H; now injection H.
      * intros H; now injection H.
    + intros H; now injection H.
Qed.

(** ** Agent.marginal_task_cost *)

(** No heuristic object of [heuristics.py] returns a value from its call. *)
Lemma Heuristic_call_returns_None (hr : Heuristic) (states scored : list StateInit)
  (value : option Cost) :
  Heuristic_call hr states = Ok (scored, value) -> value = None.
Proof.
  unfold Heuristic_call. destruct states as [|s0 rest].
  - intros H. now injection H.
  - destruct (for_states _ _); simpl; [|discriminate].
    intros H. now injection H.
Qed.

(** C3, as the code has it: whenever [marginal_task_cost] returns, it returns
    infinity.  On a color mismatch it returns it at once; otherwise the cost
    of the joint task is taken from the value returned by the heuristic call,
    which is [None] and is replaced by infinity, and infinity less the score
    of the subtask is infinity. *)
Theorem marginal_task_cost_always_infinite (self : Agent) (broadcasted_task : StateInit) :
  match marginal_task_cost self broadcasted_task with
  | Ok (cost, _) => cost = Inf
  | Raise _ => True
  end.
Proof.
  unfold marginal_task_cost.
  destruct (item0 (List.map snd (goals broadcasted_task))) as [goal0|];
    cbn [Res_bind]; [|exact I].
  destruct (item0 goal0) as [[pos col]|]; cbn [Res_bind]; [|exact I].
  destruct (item0 (List.map fst (goals broadcasted_task))) as [key0|];
    cbn [Res_bind]; [|exact I].
  destruct (char0 key0) as [goal_key|]; cbn [Res_bind]; [|exact I].
  destruct (negb (String.eqb col (color self))); [reflexivity|].
  destruct (Heuristic_call (heuristic self) [broadcasted_task])
    as [[scored v1]|]; cbn [Res_bind]; [|exact I].
  destruct (item0 scored) as [bt|]; cbn [Res_bind]; [|exact I].
  destruct (Heuristic_call (heuristic self) [addGoal (task self) goal_key pos col])
    as [[scored2 v2]|] eqn:E2; cbn [Res_bind]; [|exact I].
  now rewrite (Heuristic_call_returns_None _ _ _ _ E2).
Qed.

(** ** WeightedRule *)

Lemma lower_ascii_idempotent (c : ascii) : lower_ascii (lower_ascii c) = lower_ascii c.
Proof.
  destruct c as [[] [] [] [] [] [] [] []]; reflexivity.
Qed.

Lemma lower_idempotent (s : string) : lower (lower s) = lower s.
Proof.
  induction s as [|c s IH]; simpl; [reflexivity|].
  now rewrite lower_ascii_idempotent, IH.
Qed.

(** A weight key that is not in lower case matches no goal key. *)
Lemma weight_of_not_lower (key weight : string) :
  lower weight <> weight -> weight_of key weight = 1.
Proof.
  intros Hw. unfold weight_of.
  destruct (String.eqb (lower key) weight) eqn:E; [|reflexivity].
  apply String.eqb_eq in E. exfalso. apply Hw.
  rewrite <- E. apply lower_idempotent.
Qed.

(** C5, as the code has it: only the goal key is put in lower case before the
    comparison with the weight key.  An agent asked for help with a box key
    that has an upper-case letter switches to [WeightedRule] of that very
    key, and that heuristic multiplies the contribution of no goal, while the
    comparison of the specification would multiply the goals of that key by
    10. *)
Theorem help_request_upper_key_unweighted (message : Message) (self : Agent) :
  status self <> STATUS.fail ->
  lower (object_problem message) <> object_problem message ->
  heuristic (snd (consume_message message self)) = WeightedRule (object_problem message)
  /\ (forall key, weight_of key (object_problem message) = 1)
  /\ weight_of_spec (object_problem message) (object_problem message) = 10.
Proof.
  intros Hst Hup. repeat split.
  - unfold consume_message, bind, get, modify.
    destruct (status self); try contradiction; reflexivity.
  - intros key. now apply weight_of_not_lower.
  - unfold weight_of_spec. now rewrite String.eqb_refl.
Qed.

(** ** dGraph *)

(** C7, as the code has it: on a state with an agent, a box and a goal the
    call of [dGraph] raises [NameError] at the bare name
    [initializeGraphAttributes], before any path length is queried: neither
    [h] nor [f] is set. *)
Theorem dGraph_call_raises_NameError (state : StateInit) (more : list StateInit)
  (akey bkey gkey : Key) (agt box goal : Pos * Color)
  (amore bmore gmore : list (Pos * Color)) (arest brest grest : Objects) :
  agents state = (akey, agt :: amore) :: arest ->
  boxes state = (bkey, box :: bmore) :: brest ->
  goals state = (gkey, goal :: gmore) :: grest ->
  dGraph_state state = Raise NameError
  /\ Heuristic_call dGraph (state :: more) = Raise NameError.
Proof.
  intros Ha Hb Hg.
  assert (H : dGraph_state state = Raise NameError).
  { unfold dGraph_state. rewrite Ha, Hb, Hg. reflexivity. }
  split; [exact H|].
  unfold Heuristic_call. simpl. now rewrite H.
Qed.

End AgentFacts.

(** ** The A* kernel of emergency_aStar.py *)

Module emergency_aStar_facts.
Import emergency_aStar.

Section KernelFacts.
Context {SM : StateMethods}.





(** What the puts of one step add to the queue. *)
Lemma put_all_spec (states : list StateInit) :
  forall (q : list Entry) (c : Z) (q' : list Entry) (c' : Z),
    put_all q c states = (q', c') ->
    c' = c + Z.of_nat (List.length states)
    /\ exists new,
         q' = q ++ new
         /\ List.map entry_state new = states
         /\ Forall (fun e => priority e = f (entry_state e)) new
         /\ Forall (fun e => c < tiebreak e <= c') new
         /\ counters_increase new.
Proof.
  induction states as [|state states IH]; intros q c q' c'; simpl.
  - intros E. injection E as <- <-. split; [lia|].
    exists []. rewrite app_nil_r. repeat split; constructor.
  - intros E. apply IH in E. destruct E as (Hc & new & Hq & Hm & Hk & Hb & Hs).
    split; [lia|].
    exists ((f state, c + 1, state) :: new). unfold put in Hq.
    rewrite <- app_assoc in Hq. repeat split.
    + exact Hq.
    + simpl. now rewrite Hm.
    + constructor; [reflexivity | exact Hk].
    + constructor; [unfold tiebreak; simpl; lia|].
      eapply Forall_impl; [|exact Hb]. simpl. intros e He. lia.
    + constructor; [exact Hs|].
      eapply Forall_impl; [|exact Hb]. simpl. intros e He.
      unfold tiebreak at 1. simpl. lia.
Qed.

Lemma get_least_none (q : list Entry) : get_least q = None -> q = [].
Proof.
  destruct q as [|e r]; [reflexivity|]. simpl.
  destruct (get_least r) as [[m r']|]; [|discriminate].
  destruct (entry_le e m); discriminate.
Qed.

Lemma entry_le_true (a b : Entry) :
  entry_le a b = true <->
  priority a < priority b \/ (priority a = priority b /\ tiebreak a <= tiebreak b).
Proof.
  unfold entry_le. rewrite orb_true_iff, andb_true_iff.
  rewrite Z.ltb_lt, Z.eqb_eq, Z.leb_le. reflexivity.
Qed.

Lemma entry_le_false (a b : Entry) :
  entry_le a b = false <->
  priority b < priority a \/ (priority a = priority b /\ tiebreak b < tiebreak a).
Proof.
  unfold entry_le. rewrite orb_false_iff, andb_false_iff.
  rewrite Z.ltb_ge, Z.eqb_neq, Z.leb_gt. lia.
Qed.

(** [get] splits the queue around a least entry. *)
Lemma get_least_split (q : list Entry) :
  forall e rest,
    get_least q = Some (e, rest) ->
    exists before after,
      q = before ++ e :: after
      /\ rest = before ++ after
      /\ Forall (fun x => entry_le x e = false) before
      /\ Forall (fun x => entry_le e x = true) after.
Proof.
  induction q as [|e0 r IH]; intros e rest; simpl; [discriminate|].
  destruct (get_least r) as [[m r']|] eqn:Er.
  - destruct (IH m r' eq_refl) as (l1 & l2 & Hr & Hr' & H1 & H2).
    destruct (entry_le e0 m) eqn:E0; intros E; injection E as <- <-.
    + exists [], r. repeat split; [constructor|].
      rewrite Hr. apply Forall_app. split; [|constructor].
      * eapply Forall_impl; [|exact H1]. simpl. intros x Hx.
        apply entry_le_false in Hx. apply entry_le_true in E0.
        apply entry_le_true. lia.
      * exact E0.
      * eapply Forall_impl; [|exact H2]. simpl. intros x Hx.
        apply entry_le_true in Hx. apply entry_le_true in E0.
        apply entry_le_true. lia.
    + exists (e0 :: l1), l2. rewrite Hr, Hr'. repeat split.
      * constructor; [exact E0 | exact H1].
      * exact H2.
  - apply get_least_none in Er. subst r. intros E. injection E as <- <-.
    exists [], []. repeat split; constructor.
Qed.






End KernelFacts.

End emergency_aStar_facts.

(** ** The properties on concrete levels *)

Section Concrete.
Import SpecWorld.
#[local] Existing Instance methods.
#[local] Existing Instance open_map_query.

(** The color of the agent built on [corridor_two_colors] is the red of the
    goal, though the task lists the agent as blue. *)
Lemma Agent_init_two_colors :
  Agent_init corridor_two_colors None
  = Ok (mkAgent corridor_two_colors corridor_two_colors EasyRule "red" "0" (1, 1)
          STATUS.init None None)
  /\ exists gkey gpos gcolor gmore grest akey apos acolor amore arest,
       goals corridor_two_colors = (gkey, (gpos, gcolor) :: gmore) :: grest
       /\ agents corridor_two_colors = (akey, (apos, acolor) :: amore) :: arest
       /\ "red" = gcolor /\ "0" = akey /\ (1, 1) = apos
       /\ corridor_two_colors = corridor_two_colors /\ STATUS.init = STATUS.init.
Proof.
  split; [reflexivity|].
  apply (proj2 (Agent_init_first_goal_first_agent corridor_two_colors None)
           (mkAgent corridor_two_colors corridor_two_colors EasyRule "red" "0" (1, 1)
              STATUS.init None None)).
  reflexivity.
Defined.

(** The solved corridor: the plan is empty and the agent is [ok]. *)
Lemma solve_corridor_solved :
  (STATUS.eqb (status (agent_on corridor_solved)) STATUS.ok
   && negb (nonempty_option (helping (agent_on corridor_solved))) = false)
  /\ solve_inbox [] (agent_on corridor_solved) = (Ok tt, agent_on corridor_solved, [])
  /\ isGoalState corridor_solved = true
  /\ search (MEM := memory_free) aStar 0 (mkKernel [(0, 0, corridor_solved)] EasyRule corridor_solved 0)
       (agent_on corridor_solved)
     = Some (Ok (Some []), agent_on corridor_solved)
  /\ exists message self2,
       solve (MEM := memory_free) aStar 0 [] (agent_on corridor_solved)
       = Some (Ok (Some [], message), self2, [])
       /\ status self2 = STATUS.ok
       /\ saved_solution self2 = Some [].
Proof.
  split; [reflexivity|]. split; [reflexivity|]. split; [reflexivity|].
  apply (solve_goal_leaf_empty_plan (MEM := memory_free) aStar 0 [] []
           (agent_on corridor_solved) (agent_on corridor_solved)
           (mkKernel [(0, 0, corridor_solved)] EasyRule corridor_solved 0));
    reflexivity.
Defined.

(** The corridor with a process over the ceiling at the first reading: the
    exception leaves [Agent.solve]; the agent keeps the status [init] and has
    no saved solution, so no call returns with the agent marked [fail]. *)
Lemma solve_memory_exceeded_escapes :
  get_usage (Memory := memory_full) 0 > MAX_USAGE (Memory := memory_full)
  /\ (exists self',
        solve (MEM := memory_full) aStar 1 [] (agent_on corridor)
        = Some (Raise ResourceLimit, self', [])
        /\ status self' = STATUS.init
        /\ saved_solution self' = None)
  /\ ~ (exists path message self',
          solve (MEM := memory_full) aStar 1 [] (agent_on corridor)
          = Some (Ok (path, message), self', [])
          /\ status self' = STATUS.fail).
Proof.
  split; [reflexivity|]. split.
  - destruct (solve (MEM := memory_full) aStar 1 [] (agent_on corridor))
      as [[[r self'] inbox']|] eqn:E; [|vm_compute in E; discriminate].
    exists self'. vm_compute in E. injection E as <- <- <-.
    split; [reflexivity|]. split; reflexivity.
  - intros (path & message & self' & H & _). vm_compute in H. discriminate.
Qed.

(** The corridor with a process that passes the ceiling at the third
    reading, after two passes of the loop. *)
Lemma search_memory_exceeded_corridor :
  exists s_n,
    search_passes aStar 2 corridor_kernel = Some s_n
    /\ isGoalState (leaf aStar s_n) = false
    /\ get_usage (Memory := memory_filling) 2 > MAX_USAGE (Memory := memory_filling)
    /\ (exists self',
          search (MEM := memory_filling) aStar 3 corridor_kernel (agent_on corridor)
          = Some (Raise ResourceLimit, self')
          /\ status self' = status (agent_on corridor)
          /\ saved_solution self' = saved_solution (agent_on corridor))
    /\ forall inbox inbox1 self0,
         STATUS.eqb (status self0) STATUS.ok && negb (nonempty_option (helping self0))
         = false ->
         solve_inbox inbox self0 = (Ok tt, agent_on corridor, inbox1) ->
         new aStar (task (agent_on corridor)) (heuristic (agent_on corridor))
         = Ok corridor_kernel ->
         exists self',
           solve (MEM := memory_filling) aStar 3 inbox self0
           = Some (Raise ResourceLimit, self', inbox1)
           /\ status self' = status (agent_on corridor)
           /\ saved_solution self' = saved_solution (agent_on corridor).
Proof.
  destruct (search_passes aStar 2 corridor_kernel) as [s_n|] eqn:E;
    [|vm_compute in E; discriminate].
  assert (Hleaf : isGoalState (leaf aStar s_n) = false).
  { vm_compute in E. injection E as <-. reflexivity. }
  exists s_n. split; [reflexivity|]. split; [exact Hleaf|]. split; [reflexivity|].
  apply (search_memory_exceeded_raises (MEM := memory_filling) aStar 2 3
           corridor_kernel s_n (agent_on corridor)).
  - exact E.
  - exact Hleaf.
  - intros k Hk. destruct k as [|[|k]]; simpl; lia.
  - reflexivity.
  - lia.
Defined.

(** A failed agent with the answer addressed to it at index 0: the answer is
    consumed and stays in the inbox. *)
Lemma solve_keeps_answer_at_index_0 :
  first_request "0" 0 [answer_to_0] = Some (0, answer_to_0)
  /\ solve_inbox [answer_to_0] (failed_agent_on corridor_blocked)
     = (Ok tt,
        set_task (failed_agent_on corridor_blocked)
          (set_t (StateConcurrent corridor_blocked [(2, [("B", (2, 2))])]) 0),
        [answer_to_0])
  /\ (forall r a inbox',
        solve (MEM := memory_free) aStar 5 [answer_to_0] (failed_agent_on corridor_blocked)
        = Some (r, a, inbox') -> inbox' = [answer_to_0]).
Proof.
  split; [reflexivity|].
  destruct (solve_never_removes_request (MEM := memory_free) aStar 5 [answer_to_0]
              (failed_agent_on corridor_blocked)
              (set_task (failed_agent_on corridor_blocked)
                 (set_t (StateConcurrent corridor_blocked [(2, [("B", (2, 2))])]) 0))
              0 answer_to_0 eq_refl eq_refl eq_refl) as (Hstep & _ & Hsolve).
  split; [exact Hstep | exact Hsolve].
Defined.

(** The same answer behind another message, at index 1: [Agent.solve] ends
    with [TypeError], the answer consumed and both messages in the inbox. *)
Example solve_raises_at_index_1 :
  solve (MEM := memory_free) aStar 5 [sos_from_1; answer_to_0]
    (failed_agent_on corridor_blocked)
  = Some (Raise TypeError,
          set_task (failed_agent_on corridor_blocked)
            (set_t (StateConcurrent corridor_blocked [(2, [("B", (2, 2))])]) 0),
          [sos_from_1; answer_to_0]).
Proof. reflexivity. Qed.

(** A failed agent that holds the request of agent [1]: what it broadcasts is
    the answer to agent [1], not its own SOS about box [B]. *)
Lemma broadcast_failed_helper_corridor :
  _identify_problem (failed_helper_on corridor_blocked sos_from_1)
  = Ok (Some ("B", "blue"))
  /\ broadcast (failed_helper_on corridor_blocked sos_from_1)
     = (Ok (Some (mkMessage "A" "red" "1" STATUS.fail (Some [(0, (1, 4))]))),
        set_helping
          (set_task (failed_helper_on corridor_blocked sos_from_1)
             (forget_exploration corridor_blocked)) None).
Proof.
  split; [reflexivity|].
  exact (broadcast_failed_helper_drops_sos
           (failed_helper_on corridor_blocked sos_from_1) sos_from_1 "B" "blue"
           eq_refl eq_refl eq_refl).
Defined.

(** The failed agent of the walled-in box: no box of another color at all,
    and the broadcast raises. *)
Lemma broadcast_walled_box_raises :
  _identify_problem (failed_agent_on walled_box) = Ok None
  /\ broadcast (failed_agent_on walled_box)
     = (Raise TypeError, failed_agent_on walled_box).
Proof.
  apply (broadcast_without_blocker_raises (failed_agent_on walled_box) []
           [(1, 1); (1, 2)]).
  - reflexivity.
  - reflexivity.
  - reflexivity.
  - intros box pos col agent_pos [].
Defined.

(** The cost of the subtask [subtask_B] for the red agent of the corridor:
    infinite in the code, 3 in the words of the specification. *)
Example marginal_task_cost_corridor :
  marginal_task_cost (agent_on corridor) subtask_B
  = Ok (Inf, set_f (set_h subtask_B 3) 15)
  /\ marginal_task_cost_spec (agent_on corridor) subtask_B = Ok (Finite 3).
Proof. split; reflexivity. Qed.

(** Agent [0], asked for help with box [A], weights with the key ["A"]; on
    the corridor that gives the [h] of [EasyRule], 4, where the comparison
    of the specification gives 22. *)
Lemma help_request_A_unweighted :
  (heuristic (snd (consume_message sos_from_1 (agent_on corridor))) = WeightedRule "A"
   /\ (forall key, weight_of key "A" = 1)
   /\ weight_of_spec "A" "A" = 10)
  /\ score (WeightedRule "A") corridor = Ok 4
  /\ score EasyRule corridor = Ok 4
  /\ WeightedRule_spec_h "A" corridor = Ok 22.
Proof.
  split; [|repeat split; reflexivity].
  apply (help_request_upper_key_unweighted sos_from_1 (agent_on corridor)).
  - discriminate.
  - discriminate.
Defined.

(** [dGraph] on the corridor. *)
Lemma dGraph_corridor_raises :
  dGraph_state corridor = Raise NameError
  /\ Heuristic_call dGraph [corridor] = Raise NameError.
Proof.
  apply (dGraph_call_raises_NameError corridor [] "0" "A" "A"
           ((1, 1), "red") ((1, 3), "red") ((1, 5), "red") [] [] [] [] [] []);
    reflexivity.
Defined.



End Concrete.

(** * Further properties *)

(** ** Agent.solve, Agent.search and the messages *)

Section AgentMoreFacts.
Context {SM : StateMethods} {PQ : PathQuery} {MEM : Memory}.
Variable strategy : BestFirstSearch.

(** [broadcast] leaves status, saved plan, name, color and heuristic alone,
    and the request held is kept or dropped. *)
Lemma broadcast_preserves (self self' : Agent) (r : Res (option Message)) :
  broadcast self = (r, self') ->
  status self' = status self
  /\ saved_solution self' = saved_solution self
  /\ name self' = name self
  /\ color self' = color self
  /\ heuristic self' = heuristic self
  /\ init_task self' = init_task self
  /\ (helping self' = helping self \/ helping self' = None).
Proof.
  unfold broadcast, bind, get, ret, modify.
  destruct (STATUS.eqb (status self) STATUS.fail) eqn:Hst.
  - pose proof (_sos_reads self) as Hs.
    destruct (_sos self) as [[m|e] s1]; simpl in Hs; subst s1; simpl.
    + destruct (helping self) as [request|] eqn:Hh.
      * unfold _send_success, bind, get, ret, lift, modify. simpl. rewrite Hh.
        destruct (Message_init _ _ _ _ _); simpl; intros E; injection E as <- <-;
          simpl; rewrite ?Hh; repeat split; auto.
      * intros E; injection E as <- <-; simpl; rewrite ?Hh; repeat split; auto.
    + intros E; injection E as <- <-. repeat split; auto.
  - simpl. destruct (helping self) as [request|] eqn:Hh.
    + unfold _send_success, bind, get, ret, lift, modify. rewrite Hh.
      destruct (Message_init _ _ _ _ _); simpl; intros E; injection E as <- <-;
        simpl; rewrite ?Hh; repeat split; auto.
    + intros E; injection E as <- <-. repeat split; auto.
Qed.

(** What a failed agent gets through is a message of status [fail]. *)
Lemma broadcast_fail_message (self self' : Agent) (message : option Message) :
  status self = STATUS.fail ->
  broadcast self = (Ok message, self') ->
  exists m, message = Some m /\ msg_status m = STATUS.fail.
Proof.
  intros Hst. unfold broadcast, bind, get, ret, modify. rewrite Hst. simpl.
  unfold _sos at 1. unfold bind, get, lift, throw.
  destruct (_identify_problem self) as [[[box col]|]|e]; simpl; try discriminate.
  rewrite Hst. simpl.
  destruct (helping self) as [request|] eqn:Hh.
  - unfold _send_success, bind, get, ret, lift, modify. simpl. rewrite Hh, Hst. simpl.
    intros E. injection E as <- _. eexists. split; reflexivity.
  - intros E. injection E as <- _. eexists. split; reflexivity.
Qed.

(** The loop of [search] touches the agent only by storing the goal leaf. *)
Lemma search_loop_outcome (fuel : nat) :
  forall (polls : nat) (iterations : Z) (s : searcher strategy) (self self' : Agent)
         (r : Res (option (list Action))),
    search_loop strategy fuel polls iterations s self = Some (r, self') ->
    (self' = self /\ (forall plan, r <> Ok (Some plan)))
    \/ (exists s', isGoalState (leaf strategy s') = true
                   /\ self' = set_task self (leaf strategy s')
                   /\ r = Ok (Some (walk_best_path strategy s'))).
Proof.
  induction fuel as [|fuel IH]; intros polls iterations s self self' r; simpl;
    [discriminate|].
  destruct (isGoalState (leaf strategy s)).
  { intros E. injection E as <- <-. left. split; [reflexivity | discriminate]. }
  destruct (get_usage polls >? MAX_USAGE).
  { intros E. injection E as <- <-. left. split; [reflexivity | discriminate]. }
  destruct (explore_and_add strategy s) as [s1|e].
  2:{ intros E. injection E as <- <-. left. split; [reflexivity | discriminate]. }
  destruct (frontier_empty strategy s1).
  { intros E. injection E as <- <-. left. split; [reflexivity | discriminate]. }
  destruct (get_and_remove_leaf strategy s1) as [s2|e].
  2:{ intros E. injection E as <- <-. left. split; [reflexivity | discriminate]. }
  destruct (isGoalState (leaf strategy s2)) eqn:Hg.
  { intros E. injection E as <- <-. right. exists s2. auto. }
  apply IH.
Qed.


(** [search] never touches anything but the task. *)
Lemma search_keeps_fields (fuel : nat) (s : searcher strategy) (self self' : Agent)
  (r : Res (option (list Action))) :
  search strategy fuel s self = Some (r, self') ->
  status self' = status self /\ helping self' = helping self
  /\ heuristic self' = heuristic self /\ name self' = name self
  /\ color self' = color self /\ saved_solution self' = saved_solution self
  /\ init_task self' = init_task self.
Proof.
  unfold search. destruct (isGoalState (leaf strategy s)).
  - intros E. injection E as _ <-. repeat split; reflexivity.
  - intros E. apply search_loop_outcome in E.
    destruct E as [[-> _] | (s' & _ & -> & _)]; repeat split; reflexivity.
Qed.

(** The inbox step never touches status, request held or heuristic. *)
Lemma solve_inbox_keeps_fields (inbox : list Message) (self : Agent) :
  let self' := snd (fst (solve_inbox inbox self)) in
  status self' = status self /\ helping self' = helping self
  /\ heuristic self' = heuristic self /\ name self' = name self
  /\ color self' = color self /\ init_task self' = init_task self
  /\ saved_solution self' = saved_solution self.
Proof.
  unfold solve_inbox.
  destruct (nonempty inbox && STATUS.eqb (status self) STATUS.fail) eqn:Hc;
    [|simpl; repeat split; reflexivity].
  apply andb_true_iff in Hc. destruct Hc as [_ Hst].
  destruct (first_request (name self) 0 inbox) as [[i message]|];
    [|simpl; repeat split; reflexivity].
  assert (Hk : let self' := snd (consume_message message self) in
               status self' = status self /\ helping self' = helping self
               /\ heuristic self' = heuristic self /\ name self' = name self
               /\ color self' = color self /\ init_task self' = init_task self
               /\ saved_solution self' = saved_solution self).
  { unfold consume_message, bind, get, modify, lift, throw. rewrite Hst.
    destruct (time message) as [events|]; [|simpl; repeat split; reflexivity].
    destruct (item0 events); simpl; repeat split; reflexivity. }
  destruct (consume_message message self) as [[[]|e] self1]; simpl in Hk.
  - destruct (truthy (PyInt i)); [|exact Hk].
    destruct (list_delitem inbox (PyMessage message)); exact Hk.
  - exact Hk.
Qed.

(** A call of [solve] that ran the search and returned: the broadcast it
    ended with, on the agent with the status and the plan set. *)
Lemma solve_searched_broadcast (fuel : nat) (inbox inbox' : list Message)
  (self self' : Agent) (path : option (list Action)) (message : option Message) :
  STATUS.eqb (status self) STATUS.ok && negb (nonempty_option (helping self)) = false ->
  solve strategy fuel inbox self = Some (Ok (path, message), self', inbox') ->
  exists self2,
    broadcast
      (set_saved_solution
         (set_status self2 (match path with None => STATUS.fail | Some _ => STATUS.ok end))
         path)
    = (Ok message, self').
Proof.
  intros Hcached. unfold solve. rewrite Hcached.
  destruct (solve_inbox inbox self) as [[[[]|e] self1] inbox1]; [|discriminate].
  destruct (new strategy (task self1) (heuristic self1)) as [s|e]; [|discriminate].
  destruct (search strategy fuel s self1) as [[[path1|e] self2]|]; try discriminate.
  set (self3 := set_saved_solution (set_status self2 _) path1).
  destruct (broadcast self3) as [[message1|e] self4] eqn:Hb; [|discriminate].
  intros E. injection E as <- <- <- <-. exists self2. exact Hb.
Qed.

(** After such a call the plan is saved and the status tells whether there
    is one; an agent with a plan holds no request. *)
Lemma solve_searched_fields (fuel : nat) (inbox inbox' : list Message)
  (self self' : Agent) (path : option (list Action)) (message : option Message) :
  STATUS.eqb (status self) STATUS.ok && negb (nonempty_option (helping self)) = false ->
  solve strategy fuel inbox self = Some (Ok (path, message), self', inbox') ->
  saved_solution self' = path
  /\ status self' = match path with Some _ => STATUS.ok | None => STATUS.fail end
  /\ (path <> None -> helping self' = None).
Proof.
  intros Hcached Hsolve.
  destruct (solve_searched_broadcast _ _ _ _ _ _ _ Hcached Hsolve) as [self2 Hb].
  destruct (broadcast_preserves _ _ _ Hb) as (Hst & Hsv & _).
  rewrite Hst, Hsv. simpl.
  split; [reflexivity|]. split; [now destruct path|].
  intros Hp. destruct path as [plan|]; [|contradiction].
  destruct (broadcast_ok_status
              (set_saved_solution (set_status self2 STATUS.ok) (Some plan)) eq_refl)
    as (m' & s' & Hb' & _ & _ & Hh).
  rewrite Hb in Hb'. injection Hb' as _ <-. exact Hh.
Qed.

(** X2: what a returned [Agent.solve] leaves on the agent when it ran the
    search: the plan is saved, the status is [ok] exactly when there is a
    plan, a plan leaves no request held, and without a plan the message
    returned is one of status [fail]. *)
Theorem solve_status_reflects_plan (fuel : nat) (inbox inbox' : list Message)
  (self self' : Agent) (path : option (list Action)) (message : option Message) :
  STATUS.eqb (status self) STATUS.ok && negb (nonempty_option (helping self)) = false ->
  solve strategy fuel inbox self = Some (Ok (path, message), self', inbox') ->
  saved_solution self' = path
  /\ status self' = match path with Some _ => STATUS.ok | None => STATUS.fail end
  /\ (path <> None -> helping self' = None)
  /\ (path = None -> exists m, message = Some m /\ msg_status m = STATUS.fail).
Proof.
  intros Hcached Hsolve.
  destruct (solve_searched_fields _ _ _ _ _ _ _ Hcached Hsolve) as (Hsv & Hst & Hh).
  split; [exact Hsv|]. split; [exact Hst|]. split; [exact Hh|].
  intros ->.
  destruct (solve_searched_broadcast _ _ _ _ _ _ _ Hcached Hsolve) as [self2 Hb].
  eapply broadcast_fail_message; [|exact Hb]. reflexivity.
Qed.

(** X3: once a call of [Agent.solve] has returned a plan, every later call,
    with any inbox and any bound, returns that plan again with no message,
    without searching and without touching the agent or the inbox. *)
Theorem solve_again_returns_cached (fuel fuel2 : nat) (inbox inbox' inbox2 : list Message)
  (self self' : Agent) (plan : list Action) (message : option Message) :
  STATUS.eqb (status self) STATUS.ok && negb (nonempty_option (helping self)) = false ->
  solve strategy fuel inbox self = Some (Ok (Some plan, message), self', inbox') ->
  solve strategy fuel2 inbox2 self' = Some (Ok (Some plan, None), self', inbox2).
Proof.
  intros Hcached Hsolve.
  destruct (solve_searched_fields _ _ _ _ _ _ _ Hcached Hsolve) as (Hsv & Hst & Hh).
  specialize (Hh ltac:(discriminate)).
  unfold solve. rewrite Hst, Hh. simpl.
  rewrite broadcast_silent; [|rewrite Hst; discriminate | exact Hh].
  now rewrite Hsv.
Qed.

(** X4: [Agent.solve] never makes the agent a helper and never changes its
    heuristic: whatever the inbox holds, after the call the agent holds the
    request it held before or none, and its heuristic, name and color are
    the same.  (The branch of [consume_message] that registers a request is
    reached only on an agent that has not failed, and [solve] reads the
    inbox only when the agent has failed.) *)
Theorem solve_never_takes_request (fuel : nat) (inbox inbox' : list Message)
  (self self' : Agent) (r : Res (option (list Action) * option Message)) :
  solve strategy fuel inbox self = Some (r, self', inbox') ->
  (helping self' = helping self \/ helping self' = None)
  /\ heuristic self' = heuristic self
  /\ name self' = name self
  /\ color self' = color self
  /\ init_task self' = init_task self.
Proof.
  unfold solve.
  destruct (STATUS.eqb (status self) STATUS.ok && negb (nonempty_option (helping self))).
  - destruct (broadcast self) as [[m|e] s1] eqn:Hb; intros E; injection E as _ <- _;
      destruct (broadcast_preserves _ _ _ Hb) as (_ & _ & Hn & Hc & Hh & Hi & Hp);
      repeat split; assumption.
  - pose proof (solve_inbox_keeps_fields inbox self) as Hk. simpl in Hk.
    destruct (solve_inbox inbox self) as [[[[]|e] self1] inbox1]; simpl in Hk;
      destruct Hk as (_ & Hh1 & Hr1 & Hn1 & Hc1 & Hi1 & _).
    2:{ intros E. injection E as _ <- _. repeat split; auto. }
    destruct (new strategy (task self1) (heuristic self1)) as [s|e].
    2:{ intros E. injection E as _ <- _. repeat split; auto. }
    destruct (search strategy fuel s self1) as [[[path|e] self2]|] eqn:Hs;
      [| |discriminate];
      destruct (search_keeps_fields _ _ _ _ _ Hs) as (_ & Hh2 & Hr2 & Hn2 & Hc2 & _ & Hi2).
    2:{ intros E. injection E as _ <- _. repeat split; try congruence.
        left. congruence. }
    destruct (broadcast _) as [[m|e] self4] eqn:Hb;
      intros E; injection E as _ <- _;
      destruct (broadcast_preserves _ _ _ Hb) as (_ & _ & Hn & Hc & Hh & Hi & Hp);
      simpl in *;
      (split;
       [destruct Hp as [Hp | Hp]; [left | right]; congruence
       | repeat split; congruence]).
Qed.

(** X5: a failed agent that finds its own SOS in the inbox cannot go on:
    the SOS is addressed to the agent itself and carries no timeline, so
    [consume_message] raises [TypeError] and [Agent.solve] ends with it,
    agent and inbox untouched. *)
Theorem solve_own_sos_raises (fuel : nat) (self self1 : Agent) (sos : Message)
  (rest : list Message) :
  status self = STATUS.fail ->
  _sos self = (Ok sos, self1) ->
  requester sos = name self /\ time sos = None
  /\ solve strategy fuel (sos :: rest) self = Some (Raise TypeError, self, sos :: rest).
Proof.
  intros Hst Hsos.
  assert (Hm : requester sos = name self /\ time sos = None).
  { unfold _sos, bind, get, lift, throw in Hsos.
    destruct (_identify_problem self) as [[[box col]|]|e]; try discriminate.
    rewrite Hst in Hsos. simpl in Hsos. injection Hsos as <- _. split; reflexivity. }
  destruct Hm as [Hreq Htime]. repeat split; [exact Hreq | exact Htime |].
  unfold solve, solve_inbox. rewrite Hst. simpl.
  rewrite Hreq, String.eqb_refl.
  unfold consume_message, bind, get, throw. rewrite Hst, Htime. simpl. reflexivity.
Qed.

End AgentMoreFacts.

(** ** Messages consumed, problems identified, tasks added *)

Section AgentBeliefFacts.
Context {SM : StateMethods}.

Lemma dict_set_In {V : Type} (d : list (Z * V)) (k : Z) (v : V) (e : Z * V) :
  In e (dict_set d k v) -> e = (k, v) \/ In e d.
Proof.
  induction d as [|[k' v'] d IH]; simpl.
  - intros [<- | []]. now left.
  - destruct (k' =? k).
    + intros [<- | H]; [now left | right; now right].
    + intros [<- | H]; [right; now left|].
      destruct (IH H) as [-> | H']; [now left | right; now right].
Qed.

Lemma dict_set_keys {V : Type} (d : list (Z * V)) (k : Z) (v : V) (k0 : Z) :
  In k0 (List.map fst (dict_set d k v)) -> k0 = k \/ In k0 (List.map fst d).
Proof.
  intros H. apply in_map_iff in H. destruct H as (e & <- & He).
  apply dict_set_In in He. destruct He as [-> | He]; [now left|].
  right. now apply in_map.
Qed.

Lemma dict_set_NoDup {V : Type} (d : list (Z * V)) (k : Z) (v : V) :
  NoDup (List.map fst d) -> NoDup (List.map fst (dict_set d k v)).
Proof.
  induction d as [|[k' v'] d IH]; simpl; intros Hn.
  - constructor; [intros [] | constructor].
  - inversion Hn as [|? ? Hnot Hrest]; subst.
    destruct (k' =? k) eqn:E.
    + apply Z.eqb_eq in E. subst k'. simpl. now constructor.
    + simpl. constructor; [|now apply IH].
      intros Hin. apply dict_set_keys in Hin. apply Z.eqb_neq in E.
      destruct Hin as [-> | Hin]; [now apply E | now apply Hnot].
Qed.

Lemma concurrent_events_entries (obj : Key) (events : Timeline) :
  forall (curr_pos : Pos) (acc : Overlay) (e : Z * list (Key * Pos)),
    In e (concurrent_events obj events curr_pos acc) ->
    In e acc \/ exists pos, snd e = [(obj, pos)] /\ In (fst e, pos) events.
Proof.
  induction events as [|[t0 pos] events IH]; intros curr_pos acc e; simpl.
  - now left.
  - destruct (negb (fst curr_pos =? fst pos) || negb (snd curr_pos =? snd pos)).
    + intros H. apply IH in H. destruct H as [H | (p & Hp & Hin)].
      * apply dict_set_In in H. destruct H as [-> | H]; [|now left].
        right. exists pos. split; [reflexivity | now left].
      * right. exists p. split; [exact Hp | now right].
    + intros H. apply IH in H. destruct H as [H | (p & Hp & Hin)]; [now left|].
      right. exists p. split; [exact Hp | now right].
Qed.

Lemma concurrent_events_NoDup (obj : Key) (events : Timeline) :
  forall (curr_pos : Pos) (acc : Overlay),
    NoDup (List.map fst acc) ->
    NoDup (List.map fst (concurrent_events obj events curr_pos acc)).
Proof.
  induction events as [|[t0 pos] events IH]; intros curr_pos acc Hn; simpl;
    [exact Hn|].
  destruct (negb (fst curr_pos =? fst pos) || negb (snd curr_pos =? snd pos)).
  - apply IH. now apply dict_set_NoDup.
  - now apply IH.
Qed.

Lemma concurrent_events_still (obj : Key) (events : Timeline) (curr_pos : Pos)
  (acc : Overlay) :
  (forall e, In e events -> snd e = curr_pos) ->
  concurrent_events obj events curr_pos acc = acc.
Proof.
  induction events as [|[t0 pos] events IH]; intros Hs; simpl; [reflexivity|].
  assert (Hp : pos = curr_pos) by (apply (Hs (t0, pos)); now left). subst pos.
  rewrite !Z.eqb_refl. simpl. apply IH. intros e He. apply Hs. now right.
Qed.

(** X6: a failed agent that consumes an answer with a timeline puts the
    task under an overlay and restarts its clock; status, request held and
    heuristic stay.  Every entry of the overlay is an event of the timeline,
    for the object of the message; no time has two entries; and a timeline
    on which the object never leaves its first cell gives the empty
    overlay. *)
Theorem consume_answer_overlay (message : Message) (self : Agent)
  (event0 : Z * Pos) (events : Timeline) :
  status self = STATUS.fail ->
  time message = Some (event0 :: events) ->
  exists overlay,
    consume_message message self
    = (Ok tt, set_task self (set_t (StateConcurrent (task self) overlay) 0))
    /\ (forall t_ entry, In (t_, entry) overlay ->
          exists pos, entry = [(object_problem message, pos)]
                      /\ In (t_, pos) (event0 :: events))
    /\ NoDup (List.map fst overlay)
    /\ ((forall e, In e events -> snd e = snd event0) -> overlay = []).
Proof.
  intros Hst Ht.
  exists (concurrent_events (object_problem message) (event0 :: events) (snd event0) []).
  repeat split.
  - unfold consume_message, bind, get, modify, lift. rewrite Hst, Ht. reflexivity.
  - intros t_ entry Hin. apply concurrent_events_entries in Hin.
    destruct Hin as [[] | (pos & Hp & Hin)]. exists pos. split; assumption.
  - apply concurrent_events_NoDup. constructor.
  - intros Hs. apply concurrent_events_still.
    intros e [<- | He]; [reflexivity | now apply Hs].
Qed.

Lemma other_boxes_sound (c : Color) (items : Objects) :
  forall bs, other_boxes c items = Ok bs ->
  forall box pos col, In (box, (pos, col)) bs ->
    col <> c /\ exists more, In (box, (pos, col) :: more) items.
Proof.
  induction items as [|[box0 pos_color] items IH]; intros bs; simpl.
  - intros E. injection E as <-. intros box pos col [].
  - destruct pos_color as [|[pos0 col0] more]; simpl; [discriminate|].
    destruct (other_boxes c items) as [rest|] eqn:Er; cbn [Res_bind]; [|discriminate].
    destruct (negb (String.eqb col0 c)) eqn:Ec; intros E; injection E as <-;
      intros box pos col Hin.
    + destruct Hin as [Heq | Hin].
      * injection Heq as <- <- <-. split.
        -- apply negb_true_iff, String.eqb_neq in Ec. exact Ec.
        -- exists more. now left.
      * destruct (IH rest eq_refl box pos col Hin) as [Hc (m & Hm)].
        split; [exact Hc | exists m; now right].
    + destruct (IH rest eq_refl box pos col Hin) as [Hc (m & Hm)].
      split; [exact Hc | exists m; now right].
Qed.

Lemma blocking_box_sound (state : StateInit) (trace : list Pos) :
  forall bs box col,
    blocking_box state bs trace = Some (box, col) ->
    exists pos agent_pos,
      In (box, (pos, col)) bs /\ In agent_pos trace
      /\ Neighbour state pos agent_pos = true.
Proof.
  induction bs as [|[box0 [pos0 col0]] bs IH]; intros box col; simpl; [discriminate|].
  destruct (existsb _ trace) eqn:Ex.
  - intros E. injection E as <- <-. apply existsb_exists in Ex.
    destruct Ex as (q & Hq & Hn). exists pos0, q. repeat split; [now left | exact Hq | exact Hn].
  - intros E. destruct (IH _ _ E) as (pos & q & Hin & Hq & Hn).
    exists pos, q. repeat split; [now right | exact Hq | exact Hn].
Qed.

Lemma track_dicts_sound (nm : Key) (exp : list Objects) :
  forall acc trace p,
    track_dicts nm exp acc = Ok trace -> In p trace ->
    In p acc
    \/ exists c more rest, In ((nm, (p, c) :: more) :: rest) exp.
Proof.
  induction exp as [|object_dict exp IH]; intros acc trace p; simpl.
  - intros E. injection E as <-. now left.
  - destruct object_dict as [|[key value] rest]; simpl; [discriminate|].
    destruct (String.eqb key nm) eqn:Ek.
    + destruct value as [|[q c] more]; simpl; [discriminate|].
      intros E Hin. apply String.eqb_eq in Ek. subst key.
      destruct (IH _ _ _ E Hin) as [Hacc | (c' & m' & r' & H')].
      * apply in_app_or in Hacc. destruct Hacc as [Hacc | [<- | []]]; [now left|].
        right. exists c, more, rest. now left.
      * right. exists c', m', r'. now right.
    + intros E Hin. destruct (IH _ _ _ E Hin) as [Hacc | (c' & m' & r' & H')];
        [now left|]. right. exists c', m', r'. now right.
Qed.

Lemma track_explored_sound (nm : Key) (explored_ : list (list Objects)) :
  forall acc trace p,
    track_explored nm explored_ acc = Ok trace -> In p trace ->
    In p acc
    \/ exists exp c more rest,
         In exp explored_ /\ In ((nm, (p, c) :: more) :: rest) exp.
Proof.
  induction explored_ as [|exp explored_ IH]; intros acc trace p; simpl.
  - intros E. injection E as <-. now left.
  - destruct (track_dicts nm exp acc) as [acc'|] eqn:Ed; cbn [Res_bind]; [|discriminate].
    intros E Hin. destruct (IH _ _ _ E Hin) as [Hacc | (exp' & c & m & r & He & Hd)].
    + destruct (track_dicts_sound _ _ _ _ _ Ed Hacc) as [H | (c & m & r & Hd)];
        [now left|]. right. exists exp, c, m, r. split; [now left | exact Hd].
    + right. exists exp', c, m, r. split; [now right | exact Hd].
Qed.

(** X7: every position [track_back] returns was the agent's own: it is the
    first position listed under the agent's name in a dict that has that
    name as first key, in one of the explored representations of the task. *)
Theorem track_back_sound (self : Agent) (trace : list Pos) (p : Pos) :
  track_back self = Ok trace ->
  In p trace ->
  exists exp c more rest,
    In exp (explored (task self))
    /\ In ((name self, (p, c) :: more) :: rest) exp.
Proof.
  unfold track_back. intros E Hin.
  destruct (track_explored_sound _ _ _ _ _ E Hin) as [[] | H]. exact H.
Qed.

(** X8: the box [_identify_problem] names is a box the agent cannot move
    and has been next to: its key is listed in the task with a first entry of
    another color than the agent's, at a position that is a neighbour of a
    position traced back for the agent.  The color returned is that of the
    first entry. *)
Theorem identify_problem_sound (self : Agent) (box : Key) (col : Color) :
  _identify_problem self = Ok (Some (box, col)) ->
  col <> color self
  /\ exists pos more trace agent_pos,
       In (box, (pos, col) :: more) (boxes (task self))
       /\ track_back self = Ok trace
       /\ In agent_pos trace
       /\ Neighbour (task self) pos agent_pos = true.
Proof.
  unfold _identify_problem.
  destruct (other_boxes (color self) (boxes (task self))) as [bs|] eqn:Eb;
    cbn [Res_bind]; [|discriminate].
  destruct (track_back self) as [trace|] eqn:Et; cbn [Res_bind]; [|discriminate].
  intros E. injection E as E.
  destruct (blocking_box_sound _ _ _ _ _ E) as (pos & q & Hin & Hq & Hn).
  destruct (other_boxes_sound _ _ _ Eb _ _ _ Hin) as [Hc (more & Hm)].
  split; [exact Hc|]. exists pos, more, trace, q. repeat split; assumption.
Qed.

Lemma dict_get_put {V : Type} (d : list (string * V)) (k : string) (v : V) (k0 : string) :
  dict_get (dict_put d k v) k0 = if String.eqb k k0 then Some v else dict_get d k0.
Proof.
  induction d as [|[k' v'] d IH]; simpl.
  - reflexivity.
  - destruct (String.eqb k' k) eqn:E; simpl.
    + apply String.eqb_eq in E. subst k'. now destruct (String.eqb k k0).
    + rewrite IH. destruct (String.eqb k' k0) eqn:E0; [|reflexivity].
      apply String.eqb_eq in E0. subst k0.
      rewrite String.eqb_sym, E. reflexivity.
Qed.

Lemma dict_get_merge {V : Type} (d2 d1 : list (string * V)) (k0 : string) :
  dict_get (dict_merge d1 d2) k0
  = match dict_get (rev d2) k0 with
    | Some v => Some v
    | None => dict_get d1 k0
    end.
Proof.
  unfold dict_merge. revert d1.
  induction d2 as [|[k v] d2 IH]; intros d1; simpl; [reflexivity|].
  rewrite IH, dict_get_put.
  assert (Happ : forall (a b : list (string * V)),
             dict_get (a ++ b) k0
             = match dict_get a k0 with Some x => Some x | None => dict_get b k0 end).
  { induction a as [|[ka va] a IHa]; intros b; simpl; [reflexivity|].
    destruct (String.eqb ka k0); [reflexivity | apply IHa]. }
  rewrite Happ. simpl.
  destruct (dict_get (rev d2) k0); [reflexivity|].
  destruct (String.eqb k k0); reflexivity.
Qed.

Lemma dict_get_app {V : Type} (a b : list (string * V)) (k0 : string) :
  dict_get (a ++ b) k0
  = match dict_get a k0 with Some x => Some x | None => dict_get b k0 end.
Proof.
  induction a as [|[ka va] a IHa]; simpl; [reflexivity|].
  destruct (String.eqb ka k0); [reflexivity | apply IHa].
Qed.

Lemma dict_get_Some_key {V : Type} (d : list (string * V)) (k0 : string) (v : V) :
  dict_get d k0 = Some v -> In k0 (List.map fst d).
Proof.
  induction d as [|[k' v'] d IH]; simpl; [discriminate|].
  destruct (String.eqb k' k0) eqn:E.
  - apply String.eqb_eq in E. now left.
  - intros H. right. now apply IH.
Qed.

(** In a dict, where no key comes twice, the order of the items does not
    matter to a lookup. *)
Lemma dict_get_rev {V : Type} (d : list (string * V)) (k0 : string) :
  NoDup (List.map fst d) -> dict_get (rev d) k0 = dict_get d k0.
Proof.
  induction d as [|[k v] d IH]; simpl; intros Hn; [reflexivity|].
  inversion Hn as [|? ? Hnot Hrest]; subst.
  rewrite dict_get_app, (IH Hrest). simpl.
  destruct (dict_get d k0) as [x|] eqn:Ed.
  - destruct (String.eqb k k0) eqn:E; [|reflexivity].
    apply String.eqb_eq in E. subst k0. exfalso. apply Hnot.
    now apply dict_get_Some_key in Ed.
  - reflexivity.
Qed.

(** X9: [Agent.add_task] never refuses a task: on a task of another color
    no exception leaves the call, and the goals are merged all the same.
    After the call a goal key of the added task maps to the entries the added
    task gives it (the entries the agent had under that key are replaced, not
    extended), and every other key maps to what it did.  Name, color and
    status are unchanged; a task without goals raises [IndexError]. *)
Theorem add_task_merges_any_color (task_ : StateInit) (self : Agent) :
  NoDup (List.map fst (goals task_)) ->
  (goals task_ = [] -> add_task task_ self = (Raise IndexError, self))
  /\ (forall gkey entry more rest,
        goals task_ = (gkey, entry :: more) :: rest ->
        exists self',
          add_task task_ self = (Ok tt, self')
          /\ (forall key,
                dict_get (goals (task self')) key
                = match dict_get (goals task_) key with
                  | Some v => Some v
                  | None => dict_get (goals (task self)) key
                  end)
          /\ name self' = name self /\ color self' = color self
          /\ status self' = status self /\ init_task self' = init_task self
          /\ agents (task self') = agents (task self)
          /\ boxes (task self') = boxes (task self)).
Proof.
  intros Hdict. split.
  - intros E. unfold add_task, bind, lift. rewrite E. reflexivity.
  - intros gkey entry more rest E.
    exists (set_task self
              (set_goals (task self) (dict_merge (goals (task self)) (goals task_)))).
    split.
    + unfold add_task, bind, lift, get, ret, modify. rewrite E. simpl.
      destruct (negb (String.eqb (snd entry) (color self))); reflexivity.
    + split; [|repeat split].
      intros key. rewrite <- (dict_get_rev (goals task_) key Hdict).
      apply (dict_get_merge (goals task_) (goals (task self)) key).
Qed.

End AgentBeliefFacts.

(** ** The Manhattan heuristics *)

(** X10: [manha_dist] is a metric on the cells: never negative, zero exactly
    between a cell and itself, symmetric, and it obeys the triangle
    inequality.  [default_heuristic] of [emergency_aStar.py] is the same
    function. *)
Theorem manha_dist_metric (a b c : Pos) :
  0 <= manha_dist a b
  /\ (manha_dist a b = 0 <-> a = b)
  /\ manha_dist a b = manha_dist b a
  /\ manha_dist a c <= manha_dist a b + manha_dist b c
  /\ emergency_aStar.default_heuristic a b = manha_dist a b.
Proof.
  destruct a as [x1 y1], b as [x2 y2], c as [x3 y3].
  unfold manha_dist, emergency_aStar.default_heuristic.
  repeat split; try lia.
  - intros H. f_equal; lia.
  - intros H. injection H as -> ->. lia.
Qed.

Section HeuristicFacts.
Context {SM : StateMethods} {PQ : PathQuery}.

Lemma manha_dist_nonneg (a b : Pos) : 0 <= manha_dist a b.
Proof. destruct a, b. unfold manha_dist. lia. Qed.

Lemma nonneg_snoc (l : list Z) (x : Z) : nonneg l -> 0 <= x -> nonneg (l ++ [x]).
Proof.
  intros Hl Hx. apply Forall_app. split; [exact Hl | now constructor].
Qed.

Lemma fold_min_nonneg (xs : list Z) : forall x, 0 <= x -> nonneg xs -> 0 <= fold_left Z.min xs x.
Proof.
  induction xs as [|y xs IH]; intros x Hx Hn; simpl; [exact Hx|].
  inversion Hn; subst. apply IH; [lia | assumption].
Qed.

Lemma fold_add_nonneg (xs : list Z) : forall x, 0 <= x -> nonneg xs -> 0 <= fold_left Z.add xs x.
Proof.
  induction xs as [|y xs IH]; intros x Hx Hn; simpl; [exact Hx|].
  inversion Hn; subst. apply IH; [lia | assumption].
Qed.

Lemma add_min_nonneg (c w : Z) (l : list Z) :
  0 <= c -> 0 <= w -> nonneg l -> 0 <= add_min c w l.
Proof.
  intros Hc Hw Hl. unfold add_min. destruct l as [|x xs]; [exact Hc|].
  inversion Hl as [|? ? Hx Hxs]; subst.
  pose proof (fold_min_nonneg xs x Hx Hxs) as Hm.
  apply Z.add_nonneg_nonneg; [exact Hc | now apply Z.mul_nonneg_nonneg].
Qed.

Lemma add_min_mono (c c' w : Z) (l : list Z) :
  c <= c' -> 1 <= w -> nonneg l -> add_min c 1 l <= add_min c' w l.
Proof.
  intros Hc Hw Hl. unfold add_min. destruct l as [|x xs]; [exact Hc|].
  inversion Hl as [|? ? Hx Hxs]; subst.
  pose proof (fold_min_nonneg xs x Hx Hxs) as Hm.
  apply Z.add_le_mono; [exact Hc|]. rewrite Z.mul_1_r.
  rewrite <- (Z.mul_1_r (fold_left Z.min xs x)) at 1.
  now apply Z.mul_le_mono_nonneg_l.
Qed.

Lemma add_sum_nonneg (c : Z) (l : list Z) : 0 <= c -> nonneg l -> 0 <= add_sum c l.
Proof.
  intros Hc Hl. unfold add_sum, py_sum. destruct (nonempty l); [|exact Hc].
  pose proof (fold_add_nonneg l 0 ltac:(lia) Hl). lia.
Qed.

Lemma agents_loop_nonneg (state : StateInit) (box_pos : Pos) (agent_keys : list Key) :
  forall acc res, agents_loop 1 state agent_keys box_pos acc = Ok res ->
                  nonneg acc -> nonneg res.
Proof.
  induction agent_keys as [|k ks IH]; intros acc res; cbn [agents_loop].
  - intros E. now injection E as <-.
  - destruct (item0 (getAgentsByKey state k)) as [entry|]; cbn [Res_bind]; [|discriminate].
    intros E Hn. apply (IH _ _ E). apply nonneg_snoc; [exact Hn|].
    pose proof (manha_dist_nonneg (fst entry) box_pos). lia.
Qed.

Lemma EasyRule_boxes_nonneg (state : StateInit) (goal_pos : Pos) (goal_color : Color)
  (box_params : list (Pos * Color)) :
  forall bgcs abcs bgcs' abcs',
    EasyRule_boxes state goal_pos goal_color box_params bgcs abcs = Ok (bgcs', abcs') ->
    (nonneg bgcs -> nonneg bgcs') /\ (nonneg abcs -> nonneg abcs').
Proof.
  induction box_params as [|[box_pos c] rest IH]; intros bgcs abcs bgcs' abcs'; simpl.
  - intros E. injection E as <- <-. auto.
  - destruct (existsb _ _).
    + destruct (manha_dist goal_pos box_pos =? 0); [apply IH|].
      destruct (agents_loop 1 state _ box_pos abcs) as [abcs1|] eqn:Ea;
        cbn [Res_bind]; [|discriminate].
      intros E. destruct (IH _ _ _ _ E) as [H1 H2]. split.
      * intros Hn. apply H1, nonneg_snoc; [exact Hn | apply manha_dist_nonneg].
      * intros Hn. apply H2. now apply (agents_loop_nonneg _ _ _ _ _ Ea).
    + intros E. destruct (IH _ _ _ _ E) as [H1 H2]. split; [|exact H2].
      intros Hn. apply H1, nonneg_snoc; [exact Hn | apply manha_dist_nonneg].
Qed.

Lemma WeightedRule_boxes_nonneg (state : StateInit) (goal_pos : Pos) (goal_color : Color)
  (box_params : list (Pos * Color)) :
  forall bgcs abcs bgcs' abcs',
    WeightedRule_boxes state goal_pos goal_color box_params bgcs abcs = Ok (bgcs', abcs') ->
    (nonneg bgcs -> nonneg bgcs') /\ (nonneg abcs -> nonneg abcs').
Proof.
  induction box_params as [|[box_pos c] rest IH]; intros bgcs abcs bgcs' abcs'; simpl.
  - intros E. injection E as <- <-. auto.
  - destruct (manha_dist goal_pos box_pos =? 0); [apply IH|].
    destruct (agents_loop 1 state _ box_pos abcs) as [abcs1|] eqn:Ea;
      cbn [Res_bind]; [|discriminate].
    intros E. destruct (IH _ _ _ _ E) as [H1 H2]. split.
    + intros Hn. apply H1, nonneg_snoc; [exact Hn | apply manha_dist_nonneg].
    + intros Hn. apply H2. now apply (agents_loop_nonneg _ _ _ _ _ Ea).
Qed.

Lemma weight_of_pos (key weight : string) : 1 <= weight_of key weight.
Proof. unfold weight_of. destruct (String.eqb _ _); lia. Qed.

Lemma EasyRule_goals_nonneg (state : StateInit) (box_params goal_params : list (Pos * Color)) :
  forall bgc abcs bgc' abcs',
    EasyRule_goals state goal_params box_params bgc abcs = Ok (bgc', abcs') ->
    0 <= bgc -> nonneg abcs -> 0 <= bgc' /\ nonneg abcs'.
Proof.
  induction goal_params as [|[goal_pos goal_color] rest IH]; intros bgc abcs bgc' abcs'; simpl.
  - intros E. injection E as <- <-. auto.
  - destruct (EasyRule_boxes state goal_pos goal_color box_params [] abcs)
      as [[bgcs abcs1]|] eqn:Eb; cbn [Res_bind]; [|discriminate].
    destruct (EasyRule_boxes_nonneg _ _ _ _ _ _ _ _ Eb) as [H1 H2].
    intros E Hb Ha. apply (IH _ _ _ _ E).
    + apply add_min_nonneg; [exact Hb | lia | apply H1; constructor].
    + now apply H2.
Qed.

Lemma WeightedRule_goals_nonneg (weight : string) (key : Key) (state : StateInit)
  (box_params goal_params : list (Pos * Color)) :
  forall bgc abcs bgc' abcs',
    WeightedRule_goals weight key state goal_params box_params bgc abcs = Ok (bgc', abcs') ->
    0 <= bgc -> nonneg abcs -> 0 <= bgc' /\ nonneg abcs'.
Proof.
  induction goal_params as [|[goal_pos goal_color] rest IH]; intros bgc abcs bgc' abcs'; simpl.
  - intros E. injection E as <- <-. auto.
  - destruct (WeightedRule_boxes state goal_pos goal_color box_params [] abcs)
      as [[bgcs abcs1]|] eqn:Eb; cbn [Res_bind]; [|discriminate].
    destruct (WeightedRule_boxes_nonneg _ _ _ _ _ _ _ _ Eb) as [H1 H2].
    intros E Hb Ha. apply (IH _ _ _ _ E).
    + apply add_min_nonneg; [exact Hb | | apply H1; constructor].
      pose proof (weight_of_pos key weight). lia.
    + now apply H2.
Qed.

Lemma EasyRule_keys_nonneg (state : StateInit) (keys : list Key) :
  forall bgc ac abcs bgc' ac',
    EasyRule_keys state keys bgc ac abcs = Ok (bgc', ac') ->
    0 <= bgc -> 0 <= ac -> nonneg abcs -> 0 <= bgc' /\ 0 <= ac'.
Proof.
  induction keys as [|key rest IH]; intros bgc ac abcs bgc' ac'; simpl.
  - intros E. injection E as <- <-. auto.
  - destruct (EasyRule_goals state _ _ bgc abcs) as [[bgc1 abcs1]|] eqn:Eg;
      cbn [Res_bind]; [|discriminate].
    intros E Hb Ha Hn.
    destruct (EasyRule_goals_nonneg _ _ _ _ _ _ _ Eg Hb Hn) as [Hb1 Hn1].
    apply (IH _ _ _ _ _ E); [exact Hb1 | now apply add_sum_nonneg | exact Hn1].
Qed.

Lemma WeightedRule_keys_nonneg (weight : string) (state : StateInit) (keys : list Key) :
  forall bgc ac abcs bgc' ac',
    WeightedRule_keys weight state keys bgc ac abcs = Ok (bgc', ac') ->
    0 <= bgc -> 0 <= ac -> nonneg abcs -> 0 <= bgc' /\ 0 <= ac'.
Proof.
  induction keys as [|key rest IH]; intros bgc ac abcs bgc' ac'; simpl.
  - intros E. injection E as <- <-. auto.
  - destruct (WeightedRule_goals weight key state _ _ bgc abcs) as [[bgc1 abcs1]|] eqn:Eg;
      cbn [Res_bind]; [|discriminate].
    intros E Hb Ha Hn.
    destruct (WeightedRule_goals_nonneg _ _ _ _ _ _ _ _ _ Eg Hb Hn) as [Hb1 Hn1].
    apply (IH _ _ _ _ _ E); [exact Hb1 | now apply add_sum_nonneg | exact Hn1].
Qed.

(** X11: scoring a state with [EasyRule] or [WeightedRule] writes [h] and
    [f] and nothing else: the state scored is the state given with [h] set to
    a number that is never negative and [f] set to [5 * h + g]. *)
Theorem EasyRule_WeightedRule_score (hr : Heuristic) (state state' : StateInit) :
  hr = EasyRule \/ (exists weight, hr = WeightedRule weight) ->
  Heuristic_body hr state = Ok state' ->
  exists v, 0 <= v /\ state' = set_f (set_h state v) (v * 5 + g state).
Proof.
  intros [-> | [weight ->]]; simpl.
  - unfold EasyRule_state.
    destruct (EasyRule_keys state (getGoalKeys state) 0 0 []) as [[bgc ac]|] eqn:Ek;
      cbn [Res_bind]; [|discriminate].
    destruct (EasyRule_keys_nonneg _ _ _ _ _ _ _ Ek) as [Hb Ha];
      [lia | lia | constructor |].
    intros E. injection E as <-. exists (bgc + ac). split; [lia | reflexivity].
  - unfold WeightedRule_state.
    destruct (WeightedRule_keys weight state (getGoalKeys state) 0 0 [])
      as [[bgc ac]|] eqn:Ek; cbn [Res_bind]; [|discriminate].
    destruct (WeightedRule_keys_nonneg _ _ _ _ _ _ _ _ Ek) as [Hb Ha];
      [lia | lia | constructor |].
    intros E. injection E as <-. exists (bgc + ac). split; [lia | reflexivity].
Qed.

Lemma boxes_loops_agree (state : StateInit) (goal_pos : Pos) (goal_color : Color)
  (box_params : list (Pos * Color)) :
  existsb (String.eqb goal_color) (List.map fst (agentColor state)) = true ->
  forall bgcs abcs,
    WeightedRule_boxes state goal_pos goal_color box_params bgcs abcs
    = EasyRule_boxes state goal_pos goal_color box_params bgcs abcs.
Proof.
  intros Hk. induction box_params as [|[box_pos c] rest IH]; intros bgcs abcs; simpl;
    [reflexivity|].
  rewrite Hk. destruct (manha_dist goal_pos box_pos =? 0); [apply IH|].
  destruct (agents_loop 1 state _ box_pos abcs); cbn [Res_bind]; [apply IH | reflexivity].
Qed.

Lemma goals_loops_compare (weight : string) (key : Key) (state : StateInit)
  (box_params goal_params : list (Pos * Color)) :
  (forall pos col, In (pos, col) goal_params ->
     existsb (String.eqb col) (List.map fst (agentColor state)) = true) ->
  forall bgc bgc' abcs b a,
    bgc <= bgc' ->
    EasyRule_goals state goal_params box_params bgc abcs = Ok (b, a) ->
    exists b',
      WeightedRule_goals weight key state goal_params box_params bgc' abcs = Ok (b', a)
      /\ b <= b'
      /\ (weight_of key weight = 1 -> bgc = bgc' -> b = b').
Proof.
  induction goal_params as [|[goal_pos goal_color] rest IH]; intros Hk bgc bgc' abcs b a Hle;
    simpl.
  - intros E. injection E as <- <-. exists bgc'. auto.
  - rewrite boxes_loops_agree by (apply (Hk goal_pos goal_color); now left).
    destruct (EasyRule_boxes state goal_pos goal_color box_params [] abcs)
      as [[bgcs abcs1]|] eqn:Eb; cbn [Res_bind]; [|discriminate].
    destruct (EasyRule_boxes_nonneg _ _ _ _ _ _ _ _ Eb) as [H1 _].
    specialize (H1 ltac:(constructor)).
    intros E.
    destruct (IH ltac:(intros p c Hin; apply (Hk p c); now right)
                (add_min bgc 1 bgcs) (add_min bgc' (weight_of key weight) bgcs)
                abcs1 b a
                ltac:(apply add_min_mono; [exact Hle | apply weight_of_pos | exact H1])
                E) as (b' & Hw & Hb & Heq).
    exists b'. repeat split; [exact Hw | exact Hb |].
    intros H1w Hbb. apply Heq; [exact H1w|]. now rewrite H1w, Hbb.
Qed.

Lemma keys_loops_compare (weight : string) (state : StateInit) (keys : list Key) :
  goal_colors_known state keys ->
  forall bgc bgc' ac abcs b a,
    bgc <= bgc' ->
    EasyRule_keys state keys bgc ac abcs = Ok (b, a) ->
    exists b',
      WeightedRule_keys weight state keys bgc' ac abcs = Ok (b', a)
      /\ b <= b'
      /\ ((forall key, In key keys -> weight_of key weight = 1) -> bgc = bgc' -> b = b').
Proof.
  induction keys as [|key rest IH]; intros Hk bgc bgc' ac abcs b a Hle; simpl.
  - intros E. injection E as <- <-. exists bgc'. auto.
  - destruct (EasyRule_goals state _ _ bgc abcs) as [[bgc1 abcs1]|] eqn:Eg;
      cbn [Res_bind]; [|discriminate].
    destruct (goals_loops_compare weight key state _ _
                ltac:(intros p c Hin; apply (Hk key p c); [now left | exact Hin])
                bgc bgc' abcs bgc1 abcs1 Hle Eg) as (bgc1' & Hw & Hb & Heq).
    rewrite Hw. cbn [Res_bind]. intros E.
    destruct (IH ltac:(intros k p c Hin; apply (Hk k p c); now right)
                bgc1 bgc1' (add_sum ac abcs1) abcs1 b a Hb E) as (b' & Hw' & Hb' & Heq').
    exists b'. repeat split; [exact Hw' | exact Hb' |].
    intros Hall Hbb. apply Heq'.
    + intros k Hin. apply Hall. now right.
    + apply Heq; [apply Hall; now left | exact Hbb].
Qed.

(** X12: on a state where every goal has a color that some agent has,
    whenever [EasyRule] scores the state, [WeightedRule] scores it too, with
    an [h] that is at least that of [EasyRule]; and when no goal key, put in
    lower case, equals the weight key, the two scored states are the same. *)
Theorem WeightedRule_dominates_EasyRule (weight : string) (state scored : StateInit) :
  goal_colors_known state (getGoalKeys state) ->
  EasyRule_state state = Ok scored ->
  exists scored',
    WeightedRule_state weight state = Ok scored'
    /\ h scored <= h scored'
    /\ ((forall key, In key (getGoalKeys state) -> String.eqb (lower key) weight = false) ->
        scored' = scored).
Proof.
  intros Hk. unfold EasyRule_state, WeightedRule_state.
  destruct (EasyRule_keys state (getGoalKeys state) 0 0 []) as [[b a]|] eqn:Ek;
    cbn [Res_bind]; [|discriminate].
  destruct (keys_loops_compare weight state _ Hk 0 0 0 [] b a (Z.le_refl 0) Ek)
    as (b' & Hw & Hb & Heq).
  rewrite Hw. cbn [Res_bind]. intros E. injection E as <-.
  eexists. split; [reflexivity|]. split; [simpl; lia|].
  intros Hno. rewrite (Heq ltac:(intros k Hin; unfold weight_of; now rewrite (Hno k Hin)) eq_refl).
  reflexivity.
Qed.

End HeuristicFacts.

(** ** More on the kernel of emergency_aStar.py *)

Module emergency_aStar_more.
Import emergency_aStar.

Section KernelMoreFacts.
Context {SM : StateMethods} {PQ : PathQuery}.

Lemma default_heuristic_nonneg (a b : Pos) : 0 <= default_heuristic a b.
Proof. destruct a, b. unfold default_heuristic. lia. Qed.

Lemma calc_agents_nonneg (state : StateInit) (boxPos goalPos : Pos) (agentKeys : list Key) :
  forall c l c' l',
    calc_agents state agentKeys boxPos goalPos c l = Ok (c', l') ->
    0 <= c -> nonneg l -> 0 <= c' /\ nonneg l'.
Proof.
  induction agentKeys as [|k ks IH]; intros c l c' l'; simpl.
  - intros E. injection E as <- <-. auto.
  - destruct (item0 (getAgentsByKey state k)) as [entry|]; cbn [Res_bind]; [|discriminate].
    intros E Hc Hl. apply (IH _ _ _ _ E).
    + pose proof (default_heuristic_nonneg boxPos goalPos). lia.
    + apply Forall_app. split; [exact Hl|]. constructor; [|constructor].
      apply default_heuristic_nonneg.
Qed.

Lemma calc_boxes_nonneg (state : StateInit) (goalPos : Pos) (goalColor : Color)
  (boxParams : list (Pos * Color)) :
  forall c l c' l',
    calc_boxes state goalPos goalColor boxParams c l = Ok (c', l') ->
    0 <= c -> nonneg l -> 0 <= c' /\ nonneg l'.
Proof.
  induction boxParams as [|[boxPos col] rest IH]; intros c l c' l'; simpl.
  - intros E. injection E as <- <-. auto.
  - destruct (calc_agents state _ boxPos goalPos c l) as [[c1 l1]|] eqn:Ea;
      cbn [Res_bind]; [|discriminate].
    intros E Hc Hl. destruct (calc_agents_nonneg _ _ _ _ _ _ _ _ Ea Hc Hl).
    now apply (IH _ _ _ _ E).
Qed.

Lemma calc_goals_nonneg (state : StateInit) (boxParams goalParams : list (Pos * Color)) :
  forall c l c' l',
    calc_goals state goalParams boxParams c l = Ok (c', l') ->
    0 <= c -> nonneg l -> 0 <= c' /\ nonneg l'.
Proof.
  induction goalParams as [|[goalPos col] rest IH]; intros c l c' l'; simpl.
  - intros E. injection E as <- <-. auto.
  - destruct (calc_boxes state goalPos col boxParams c l) as [[c1 l1]|] eqn:Ea;
      cbn [Res_bind]; [|discriminate].
    intros E Hc Hl. destruct (calc_boxes_nonneg _ _ _ _ _ _ _ _ Ea Hc Hl).
    now apply (IH _ _ _ _ E).
Qed.

Lemma calc_keys_nonneg (state : StateInit) (goalKeys : list Key) :
  forall c l c' l',
    calc_keys state goalKeys c l = Ok (c', l') ->
    0 <= c -> nonneg l -> 0 <= c' /\ nonneg l'.
Proof.
  induction goalKeys as [|key rest IH]; intros c l c' l'; simpl.
  - intros E. injection E as <- <-. auto.
  - destruct (calc_goals state _ _ c l) as [[c1 l1]|] eqn:Ea;
      cbn [Res_bind]; [|discriminate].
    intros E Hc Hl. destruct (calc_goals_nonneg _ _ _ _ _ _ _ Ea Hc Hl).
    now apply (IH _ _ _ _ E).
Qed.

Lemma py_min_nonneg (l : list Z) (m : Z) : py_min l = Ok m -> nonneg l -> 0 <= m.
Proof.
  destruct l as [|x xs]; simpl; [discriminate|].
  intros E Hn. injection E as <-. inversion Hn as [|? ? Hx Hxs]; subst.
  clear Hn. revert x Hx. induction xs as [|y ys IH]; intros x Hx; simpl; [exact Hx|].
  inversion Hxs; subst. apply IH; [assumption | lia].
Qed.

Lemma for_states_Forall2 (P : StateInit -> StateInit -> Prop)
  (body : StateInit -> Res StateInit) :
  (forall x y, body x = Ok y -> P x y) ->
  forall states scored, for_states body states = Ok scored -> Forall2 P states scored.
Proof.
  intros Hbody. induction states as [|x states IH]; intros scored; simpl.
  - intros E. injection E as <-. constructor.
  - destruct (body x) as [y|] eqn:Ex; cbn [Res_bind]; [|discriminate].
    destruct (for_states body states) as [ys|]; cbn [Res_bind]; [|discriminate].
    intros E. injection E as <-. constructor; [now apply Hbody | now apply IH].
Qed.

(** X13: [calc_heuristic_for] scores each state of the list in place and
    writes nothing but [h] and [f]: state by state, the scored state is the
    state given with [h] set to a number that is never negative and [f] set
    to [g + h]. *)
Theorem calc_heuristic_for_score (states scored : list StateInit) :
  calc_heuristic_for states = Ok scored ->
  Forall2 (fun state state' =>
             exists v, 0 <= v /\ state' = set_f (set_h state v) (g state + v))
    states scored.
Proof.
  unfold calc_heuristic_for. destruct states as [|state0 rest].
  - intros E. injection E as <-. constructor.
  - apply for_states_Forall2. intros x y. unfold calc_state.
    destruct (calc_keys x (getGoalKeys state0) 0 []) as [[c l]|] eqn:Ek;
      cbn [Res_bind]; [|discriminate].
    destruct (py_min l) as [m|] eqn:Em; cbn [Res_bind]; [|discriminate].
    destruct (calc_keys_nonneg _ _ _ _ _ _ Ek) as [Hc Hl]; [lia | constructor|].
    pose proof (py_min_nonneg _ _ Em Hl).
    intros E. injection E as <-. exists (c + m). split; [lia | reflexivity].
Qed.

(** X14: a task without goal keys cannot be searched by this kernel:
    [calc_heuristic_for] takes the minimum of an empty list, so the
    constructor raises [ValueError] (and so does the function kept from the
    first version), whereas [EasyRule] scores the same state with [h = 0]. *)
Theorem kernel_without_goals_raises (init_state : StateInit) (hr : option Heuristic) :
  getGoalKeys init_state = [] ->
  BestFirstSearch_init init_state hr = Raise ValueError
  /\ (forall fuel count_,
        emergency_aStar_func.aStarSearch_func fuel count_ init_state
        = Some (Raise ValueError))
  /\ Heuristic_call EasyRule [init_state]
     = Ok ([set_f (set_h init_state 0) (g init_state)], None).
Proof.
  intros Hk. repeat split.
  - unfold BestFirstSearch_init, calc_heuristic_for, calc_state. simpl.
    rewrite Hk. reflexivity.
  - intros fuel count_.
    unfold emergency_aStar_func.aStarSearch_func, emergency_aStar_func.calcHuristicsFor,
      emergency_aStar_func.legacy_state. simpl. rewrite Hk. reflexivity.
  - unfold Heuristic_call. simpl. unfold EasyRule_state. rewrite Hk. reflexivity.
Qed.

Lemma Forall2_length_eq {A B : Type} (P : A -> B -> Prop) (l : list A) (l' : list B) :
  Forall2 P l l' -> List.length l = List.length l'.
Proof. induction 1; simpl; congruence. Qed.

(** Scoring gives back as many states as it was given. *)
Lemma calc_heuristic_for_length (states scored : list StateInit) :
  calc_heuristic_for states = Ok scored -> List.length states = List.length scored.
Proof.
  unfold calc_heuristic_for. destruct states as [|state0 rest].
  - intros E. now injection E as <-.
  - intros E. apply (Forall2_length_eq (fun _ _ => True)).
    revert E. apply for_states_Forall2. auto.
Qed.

(** X15: the account of one step of the kernel.  When
    [get_and_remove_leaf] returns, the counter has grown by the number of
    successors of the old leaf, the frontier holds one entry less than the
    old frontier and the successors together, and the new leaf is the state
    of an entry that was in the frontier or was put in this step.  When the
    old leaf has no successor and the frontier is empty, the step waits on
    the empty queue for ever. *)
Theorem get_and_remove_leaf_account (s : aStarSearch) :
  (forall s',
      get_and_remove_leaf s = Ok s' ->
      count s' = count s + Z.of_nat (List.length (explore (leaf s)))
      /\ (List.length (frontier s') + 1
          = List.length (frontier s) + List.length (explore (leaf s)))%nat
      /\ heuristic s' = heuristic s
      /\ exists e scored,
           calc_heuristic_for (explore (leaf s)) = Ok scored
           /\ leaf s' = entry_state e
           /\ (In e (frontier s) \/ In (entry_state e) scored))
  /\ (explore (leaf s) = [] -> frontier s = [] ->
      get_and_remove_leaf s = Raise Blocked).
Proof.
  split.
  - intros s'. unfold get_and_remove_leaf.
    destruct (calc_heuristic_for (explore (leaf s))) as [scored|] eqn:Hcalc;
      cbn [Res_bind]; [|discriminate].
    pose proof (calc_heuristic_for_length _ _ Hcalc) as Hlen.
    destruct (put_all (frontier s) (count s) scored) as [q c] eqn:Hput.
    destruct (emergency_aStar_facts.put_all_spec _ _ _ _ _ Hput)
      as (Hc & new & Hq & Hm & _).
    destruct (get_least q) as [[e rest]|] eqn:Hget; [|discriminate].
    destruct (emergency_aStar_facts.get_least_split _ _ _ Hget)
      as (l1 & l2 & Hq' & Hrest & _).
    intros E. injection E as <-. simpl. repeat split.
    + rewrite Hc, Hlen. reflexivity.
    + assert (Hl : List.length q = (List.length (frontier s) + List.length scored)%nat).
      { rewrite Hq, length_app. f_equal. rewrite <- Hm. now rewrite length_map. }
      rewrite Hq' in Hl. rewrite Hrest. rewrite !length_app in *. simpl in Hl. lia.
    + exists e, scored. repeat split.
      assert (Hin : In e q) by (rewrite Hq'; apply in_or_app; right; now left).
      rewrite Hq in Hin. apply in_app_or in Hin. destruct Hin as [Hin | Hin];
        [now left | right]. rewrite <- Hm. now apply in_map.
  - intros He Hf. unfold get_and_remove_leaf. rewrite He, Hf. reflexivity.
Qed.

Lemma legacy_agents_eq (state : StateInit) (boxPos goalPos : Pos) (agentKeys : list Key) :
  forall c l,
    emergency_aStar_func.legacy_agents state agentKeys boxPos goalPos c l
    = calc_agents state agentKeys boxPos goalPos c l.
Proof.
  induction agentKeys as [|k ks IH]; intros c l; simpl; [reflexivity|].
  destruct (item0 (getAgentsByKey state k)); cbn [Res_bind]; [apply IH | reflexivity].
Qed.

Lemma legacy_boxes_eq (state : StateInit) (goalPos : Pos) (goalColor : Color)
  (boxParams : list (Pos * Color)) :
  forall c l,
    emergency_aStar_func.legacy_boxes state goalPos goalColor boxParams c l
    = calc_boxes state goalPos goalColor boxParams c l.
Proof.
  induction boxParams as [|[boxPos col] rest IH]; intros c l; simpl; [reflexivity|].
  rewrite legacy_agents_eq.
  destruct (calc_agents _ _ _ _ _ _) as [[c1 l1]|]; cbn [Res_bind];
    [apply IH | reflexivity].
Qed.

Lemma legacy_goals_eq (state : StateInit) (boxParams goalParams : list (Pos * Color)) :
  forall c l,
    emergency_aStar_func.legacy_goals state goalParams boxParams c l
    = calc_goals state goalParams boxParams c l.
Proof.
  induction goalParams as [|[goalPos col] rest IH]; intros c l; simpl; [reflexivity|].
  rewrite legacy_boxes_eq.
  destruct (calc_boxes _ _ _ _ _ _) as [[c1 l1]|]; cbn [Res_bind];
    [apply IH | reflexivity].
Qed.

Lemma legacy_keys_eq (state : StateInit) (goalKeys : list Key) :
  forall c l,
    emergency_aStar_func.legacy_keys state goalKeys c l = calc_keys state goalKeys c l.
Proof.
  induction goalKeys as [|key rest IH]; intros c l; simpl; [reflexivity|].
  rewrite legacy_goals_eq.
  destruct (calc_goals _ _ _ _ _) as [[c1 l1]|]; cbn [Res_bind];
    [apply IH | reflexivity].
Qed.

Lemma for_states_ext (body1 body2 : StateInit -> Res StateInit) :
  (forall x, body1 x = body2 x) ->
  forall states, for_states body1 states = for_states body2 states.
Proof.
  intros Hb. induction states as [|x states IH]; simpl; [reflexivity|].
  now rewrite Hb, IH.
Qed.

(** X16: the function [calcHuristicsFor] kept from the first version and
    the method [BestFirstSearch.calc_heuristic_for] are the same function:
    on every list of states they give the same scores or raise the same
    exception. *)
Theorem calcHuristicsFor_is_calc_heuristic_for (states : list StateInit) :
  emergency_aStar_func.calcHuristicsFor states = calc_heuristic_for states.
Proof.
  unfold emergency_aStar_func.calcHuristicsFor, calc_heuristic_for.
  destruct states as [|state0 rest]; [reflexivity|].
  apply for_states_ext. intros x.
  unfold emergency_aStar_func.legacy_state, calc_state.
  now rewrite legacy_keys_eq.
Qed.

Lemma aStarSearch_loop_sound (fuel : nat) :
  forall frontier_ count_ leaf_ path leaf' count',
    emergency_aStar_func.aStarSearch_loop fuel frontier_ count_ leaf_
    = Some (Ok (path, leaf', count')) ->
    isGoalState leaf' = true /\ path = bestPath leaf' /\ count_ <= count'.
Proof.
  induction fuel as [|fuel IH]; intros frontier_ count_ leaf_ path leaf' count'; simpl;
    [discriminate|].
  destruct (isGoalState leaf_) eqn:Hg.
  - intros E. injection E as <- <- <-. repeat split; [exact Hg | lia].
  - destruct (emergency_aStar_func.calcHuristicsFor (explore leaf_)) as [scored|];
      [|discriminate].
    destruct (emergency_aStar_func.put_all_h frontier_ count_ scored) as [q c] eqn:Hput.
    assert (Hc : count_ <= c).
    { clear - Hput. revert frontier_ count_ q c Hput.
      induction scored as [|st scored IHs]; intros frontier_ count_ q c; simpl.
      - intros E. injection E as _ <-. lia.
      - intros E. apply IHs in E. lia. }
    destruct (get_least q) as [[e rest]|]; [|discriminate].
    intros E. apply IH in E. destruct E as (H1 & H2 & H3). repeat split; [assumption..|lia].
Qed.

(** X17: the search function kept from the first version returns only
    goals: when [aStarSearch_func] returns, the state returned is a goal
    state, the path is its best path, and the module counter has not gone
    down. *)
Theorem aStarSearch_func_sound (fuel : nat) (count_ count' : Z)
  (initState leaf' : StateInit) (path : list Action) :
  emergency_aStar_func.aStarSearch_func fuel count_ initState
  = Some (Ok (path, leaf', count')) ->
  isGoalState leaf' = true /\ path = bestPath leaf' /\ count_ <= count'.
Proof.
  unfold emergency_aStar_func.aStarSearch_func.
  destruct (emergency_aStar_func.calcHuristicsFor [initState]) as [scored|];
    [|discriminate].
  destruct (item0 scored) as [leaf_|]; [|discriminate].
  apply aStarSearch_loop_sound.
Qed.

End KernelMoreFacts.

End emergency_aStar_more.

(** ** The keypoints of dGraph *)

Section KeypointFacts.

Lemma cells_shift (g_ : Z -> Pos) (r dir : Z) (n : nat) :
  (forall i, g_ (r + dir + dir * Z.of_nat i) = g_ (r + dir * Z.of_nat (S i))) ->
  List.map (fun i => g_ (r + dir + dir * Z.of_nat i)) (seq 1 n)
  = List.map (fun i => g_ (r + dir * Z.of_nat i)) (seq 2 n).
Proof.
  intros Hg. rewrite <- (seq_shift n 1), map_map. apply map_ext. intros i. apply Hg.
Qed.

Lemma np_get_error (m : list string) (p : Pos) (e : Exn) :
  np_get m p = Raise e -> e = IndexError.
Proof.
  unfold np_get, np_index.
  destruct ((0 <=? fst p) && (fst p <? Z.of_nat (List.length m))); cbn [Res_bind].
  2: destruct ((- Z.of_nat (List.length m) <=? fst p) && (fst p <? 0)); cbn [Res_bind].
  3: intros E; now injection E.
  all: set (row := nth _ m "");
    destruct ((0 <=? snd p) && (snd p <? Z.of_nat (String.length row))); cbn [Res_bind];
    [|destruct ((- Z.of_nat (String.length row) <=? snd p) && (snd p <? 0));
      cbn [Res_bind]; [|intros E; now injection E]];
    destruct (String.get _ row); try discriminate; intros E; now injection E.
Qed.

Lemma probe_rows_spec (m : list string) (c kr dir : Z) (n : nat) :
  dir <> 0 ->
  forall r,
    kr = r + dir * Z.of_nat n ->
    let cells := List.map (fun i => (r + dir * Z.of_nat i, c)) (seq 1 n) in
    probe_rows n m r c kr dir <> Raise Blocked
    /\ (forall x, probe_rows n m r c kr dir = Ok (Some x) -> x = kr)
    /\ (Forall (free_cell m) cells <-> probe_rows n m r c kr dir = Ok (Some kr)).
Proof.
  intros Hdir. induction n as [|n IH]; intros r Hkr cells; subst cells.
  - simpl. replace (r =? kr) with true by (symmetry; apply Z.eqb_eq; lia).
    repeat split; try discriminate.
    + intros x E. injection E as <-. lia.
    + intros _. f_equal. f_equal. lia.
    + constructor.
  - assert (Hne : (r =? kr) = false) by (apply Z.eqb_neq; nia).
    cbn [probe_rows]. rewrite Hne.
    assert (Hkr' : kr = r + dir + dir * Z.of_nat n) by lia.
    specialize (IH (r + dir) Hkr'). cbn zeta in IH.
    destruct IH as (Hb & Hx & Hiff).
    assert (Hcells :
      List.map (fun i => (r + dir * Z.of_nat i, c)) (seq 1 (S n))
      = (r + dir, c) :: List.map (fun i => (r + dir + dir * Z.of_nat i, c)) (seq 1 n)).
    { cbn [seq List.map]. f_equal; [f_equal; lia|].
      symmetry. apply (cells_shift (fun z => (z, c))). intros i. f_equal. lia. }
    rewrite Hcells.
    destruct (np_get m (r + dir, c)) as [ch|e] eqn:Eg; cbn [Res_bind].
    + destruct (Ascii.eqb ch "+") eqn:Ech.
      * repeat split; try discriminate.
        intros Hf. inversion Hf as [|? ? (ch' & Hg' & Hne') _]; subst.
        rewrite Eg in Hg'. injection Hg' as <-.
        apply Ascii.eqb_eq in Ech. contradiction.
      * repeat split; [exact Hb | exact Hx | |].
        -- intros Hf. inversion Hf; subst. now apply Hiff.
        -- intros E. constructor; [|now apply Hiff].
           exists ch. split; [exact Eg | now apply Ascii.eqb_neq].
    + apply np_get_error in Eg as He. subst e.
      repeat split; try discriminate.
      intros Hf. inversion Hf as [|? ? (ch' & Hg' & _) _]; subst.
      rewrite Eg in Hg'. discriminate.
Qed.
Lemma probe_cols_spec (m : list string) (r0 kr dir : Z) (n : nat) :
  dir <> 0 ->
  forall r,
    kr = r + dir * Z.of_nat n ->
    let cells := List.map (fun i => (r0, r + dir * Z.of_nat i)) (seq 1 n) in
    probe_cols n m r0 r kr dir <> Raise Blocked
    /\ (forall x, probe_cols n m r0 r kr dir = Ok (Some x) -> x = kr)
    /\ (Forall (free_cell m) cells <-> probe_cols n m r0 r kr dir = Ok (Some kr)).
Proof.
  intros Hdir. induction n as [|n IH]; intros r Hkr cells; subst cells.
  - simpl. replace (r =? kr) with true by (symmetry; apply Z.eqb_eq; lia).
    repeat split; try discriminate.
    + intros x E. injection E as <-. lia.
    + intros _. f_equal. f_equal. lia.
    + constructor.
  - assert (Hne : (r =? kr) = false) by (apply Z.eqb_neq; nia).
    cbn [probe_cols]. rewrite Hne.
    assert (Hkr' : kr = r + dir + dir * Z.of_nat n) by lia.
    specialize (IH (r + dir) Hkr'). cbn zeta in IH.
    destruct IH as (Hb & Hx & Hiff).
    assert (Hcells :
      List.map (fun i => (r0, r + dir * Z.of_nat i)) (seq 1 (S n))
      = (r0, r + dir) :: List.map (fun i => (r0, r + dir + dir * Z.of_nat i)) (seq 1 n)).
    { cbn [seq List.map]. f_equal; [f_equal; lia|].
      symmetry. apply (cells_shift (fun z => (r0, z))). intros i. f_equal. lia. }
    rewrite Hcells.
    destruct (np_get m (r0, r + dir)) as [ch|e] eqn:Eg; cbn [Res_bind].
    + destruct (Ascii.eqb ch "+") eqn:Ech.
      * repeat split; try discriminate.
        intros Hf. inversion Hf as [|? ? (ch' & Hg' & Hne') _]; subst.
        rewrite Eg in Hg'. injection Hg' as <-.
        apply Ascii.eqb_eq in Ech. contradiction.
      * repeat split; [exact Hb | exact Hx | |].
        -- intros Hf. inversion Hf; subst. now apply Hiff.
        -- intros E. constructor; [|now apply Hiff].
           exists ch. split; [exact Eg | now apply Ascii.eqb_neq].
    + apply np_get_error in Eg as He. subst e.
      repeat split; try discriminate.
      intros Hf. inversion Hf as [|? ? (ch' & Hg' & _) _]; subst.
      rewrite Eg in Hg'. discriminate.
Qed.

Lemma app_one_neq {A : Type} (l : list A) (x : A) : l ++ [x] <> l.
Proof.
  intros E. apply (f_equal (@List.length A)) in E. rewrite length_app in E.
  simpl in E. lia.
Qed.

(** When [getValidKeypoint] appends the keypoint, and what it returns
    otherwise. *)
Lemma getValidKeypoint_appends (m : list string) (pos kp : Pos) (validKps : list Pos) :
  (Forall (free_cell m) (L_path pos kp)
   <-> getValidKeypoint m pos kp validKps = Ok (validKps ++ [kp]))
  /\ (forall res, getValidKeypoint m pos kp validKps = Ok res ->
                  res = validKps \/ res = validKps ++ [kp]).
Proof.
  unfold getValidKeypoint, L_path. cbn [fst snd].
  set (dir0 := if fst pos - fst kp <? 0 then 1 else -1).
  set (dir1 := if snd pos - snd kp <? 0 then 1 else -1).
  set (n0 := Z.to_nat (Z.abs (fst pos - fst kp))).
  set (n1 := Z.to_nat (Z.abs (snd pos - snd kp))).
  assert (Hd0 : dir0 <> 0)
    by (subst dir0; destruct (fst pos - fst kp <? 0); discriminate).
  assert (Hd1 : dir1 <> 0)
    by (subst dir1; destruct (snd pos - snd kp <? 0); discriminate).
  assert (Hk0 : fst kp = fst pos + dir0 * Z.of_nat n0).
  { subst dir0 n0. destruct (fst pos - fst kp <? 0) eqn:E;
      [apply Z.ltb_lt in E | apply Z.ltb_ge in E]; lia. }
  assert (Hk1 : snd kp = snd pos + dir1 * Z.of_nat n1).
  { subst dir1 n1. destruct (snd pos - snd kp <? 0) eqn:E;
      [apply Z.ltb_lt in E | apply Z.ltb_ge in E]; lia. }
  destruct (probe_rows_spec m (snd pos) (fst kp) dir0 n0 Hd0 (fst pos) Hk0)
    as (Hb0 & Hx0 & Hiff0).
  rewrite Forall_app.
  destruct (probe_rows n0 m (fst pos) (snd pos) (fst kp) dir0) as [[x|]|e] eqn:E0;
    cbn [Res_bind].
  - specialize (Hx0 x eq_refl). subst x.
    destruct (probe_cols_spec m (fst kp) (snd kp) dir1 n1 Hd1 (snd pos) Hk1)
      as (Hb1 & Hx1 & Hiff1).
    destruct (probe_cols n1 m (fst kp) (snd pos) (snd kp) dir1) as [[y|]|e] eqn:E1;
      cbn [Res_bind].
    + specialize (Hx1 y eq_refl). subst y.
      split; [split|].
      * intros _. reflexivity.
      * intros _. split; [now apply Hiff0 | now apply Hiff1].
      * intros res E. injection E as <-. now right.
    + split; [split|].
      * intros [_ H1]. apply Hiff1 in H1. discriminate.
      * intros E. injection E as E. symmetry in E. now apply app_one_neq in E.
      * intros res E. injection E as <-. now left.
    + split; [split|].
      * intros [_ H1]. apply Hiff1 in H1. discriminate.
      * discriminate.
      * discriminate.
  - split; [split|].
    + intros [H0 _]. apply Hiff0 in H0. discriminate.
    + intros E. injection E as E. symmetry in E. now apply app_one_neq in E.
    + intros res E. injection E as <-. now left.
  - split; [split|].
    + intros [H0 _]. apply Hiff0 in H0. discriminate.
    + discriminate.
    + discriminate.
Qed.

(** X18: the probe of [getValidKeypoint].  The call always ends (its two
    loops step towards the keypoint), and it appends the keypoint exactly
    when every cell of the L-shaped walk from the position, first along the
    rows and then along the columns, can be read and is not a wall; in every
    other case that returns, the list is left as it was. *)
Theorem getValidKeypoint_visible (m : list string) (pos kp : Pos) (validKps : list Pos) :
  getValidKeypoint m pos kp validKps <> Raise Blocked
  /\ (Forall (free_cell m) (L_path pos kp)
      <-> getValidKeypoint m pos kp validKps = Ok (validKps ++ [kp]))
  /\ (forall res, getValidKeypoint m pos kp validKps = Ok res ->
                  res = validKps \/ res = validKps ++ [kp]).
Proof.
  split; [|exact (getValidKeypoint_appends m pos kp validKps)].
  unfold getValidKeypoint. cbn [fst snd].
  set (dir0 := if fst pos - fst kp <? 0 then 1 else -1).
  set (dir1 := if snd pos - snd kp <? 0 then 1 else -1).
  set (n0 := Z.to_nat (Z.abs (fst pos - fst kp))).
  set (n1 := Z.to_nat (Z.abs (snd pos - snd kp))).
  assert (Hd0 : dir0 <> 0)
    by (subst dir0; destruct (fst pos - fst kp <? 0); discriminate).
  assert (Hd1 : dir1 <> 0)
    by (subst dir1; destruct (snd pos - snd kp <? 0); discriminate).
  assert (Hk0 : fst kp = fst pos + dir0 * Z.of_nat n0).
  { subst dir0 n0. destruct (fst pos - fst kp <? 0) eqn:E;
      [apply Z.ltb_lt in E | apply Z.ltb_ge in E]; lia. }
  assert (Hk1 : snd kp = snd pos + dir1 * Z.of_nat n1).
  { subst dir1 n1. destruct (snd pos - snd kp <? 0) eqn:E;
      [apply Z.ltb_lt in E | apply Z.ltb_ge in E]; lia. }
  destruct (probe_rows_spec m (snd pos) (fst kp) dir0 n0 Hd0 (fst pos) Hk0)
    as (Hb0 & Hx0 & _).
  destruct (probe_rows n0 m (fst pos) (snd pos) (fst kp) dir0) as [[x|]|e] eqn:E0;
    cbn [Res_bind].
  - specialize (Hx0 x eq_refl). subst x.
    destruct (probe_cols_spec m (fst kp) (snd kp) dir1 n1 Hd1 (snd pos) Hk1)
      as (Hb1 & _ & _).
    destruct (probe_cols n1 m (fst kp) (snd pos) (snd kp) dir1) as [[y|]|e] eqn:E1;
      cbn [Res_bind]; try discriminate.
    intros E. injection E as ->. now apply Hb1.
  - discriminate.
  - intros E. injection E as ->. now apply Hb0.
Qed.

Lemma insert_sorted_In {A : Type} (key : A -> Z) (x y : A) (l : list A) :
  In y (insert_sorted key x l) <-> y = x \/ In y l.
Proof.
  induction l as [|z l IH]; simpl.
  - intuition.
  - destruct (key x <=? key z); simpl; [intuition|]. rewrite IH. intuition.
Qed.

Lemma py_sorted_In {A : Type} (key : A -> Z) (y : A) (l : list A) :
  In y (py_sorted key l) <-> In y l.
Proof.
  induction l as [|x l IH]; simpl; [reflexivity|].
  rewrite insert_sorted_In, IH. intuition.
Qed.

Lemma insert_sorted_sorted {A : Type} (key : A -> Z) (x : A) (l : list A) :
  StronglySorted (fun a b => key a <= key b) l ->
  StronglySorted (fun a b => key a <= key b) (insert_sorted key x l).
Proof.
  induction l as [|z l IH]; simpl; intros Hs.
  - constructor; constructor.
  - apply StronglySorted_inv in Hs. destruct Hs as [Hs Hf].
    destruct (key x <=? key z) eqn:E.
    + apply Z.leb_le in E. constructor; [now constructor|].
      constructor; [exact E|]. eapply Forall_impl; [|exact Hf]. simpl. intros a Ha. lia.
    + apply Z.leb_gt in E. constructor; [now apply IH|].
      apply Forall_forall. intros a Ha. apply insert_sorted_In in Ha.
      destruct Ha as [-> | Ha]; [lia|]. rewrite Forall_forall in Hf. now apply Hf.
Qed.

Lemma py_sorted_sorted {A : Type} (key : A -> Z) (l : list A) :
  StronglySorted (fun a b => key a <= key b) (py_sorted key l).
Proof.
  induction l as [|x l IH]; simpl; [constructor | now apply insert_sorted_sorted].
Qed.

Lemma keypoints_loop_spec (m : list string) (pos : Pos) (R : Pos -> Pos -> Prop)
  (sortedKp : list Pos) :
  StronglySorted R sortedKp ->
  forall acc res,
    keypoints_loop m pos sortedKp acc = Ok res ->
    exists extra,
      res = acc ++ extra
      /\ (forall kp, In kp extra ->
            In kp sortedKp /\ Forall (free_cell m) (L_path pos kp))
      /\ StronglySorted R extra
      /\ ((List.length acc < 4)%nat -> (List.length res <= 4)%nat)
      /\ ((List.length res < 4)%nat ->
          forall kp, In kp sortedKp -> Forall (free_cell m) (L_path pos kp) ->
                     In kp extra).
Proof.
  induction sortedKp as [|kp rest IH]; intros Hs acc res; simpl.
  - intros E. injection E as <-. exists []. rewrite app_nil_r.
    split; [reflexivity|]. split; [intros k []|]. split; [constructor|].
    split; [lia | intros _ k []].
  - apply StronglySorted_inv in Hs. destruct Hs as [Hs Hf].
    destruct (getValidKeypoint_appends m pos kp acc) as (Hiff & Hcases).
    destruct (getValidKeypoint m pos kp acc) as [acc1|] eqn:Eg; cbn [Res_bind];
      [|discriminate].
    destruct (Hcases acc1 eq_refl) as [-> | ->].
    + (* the keypoint is not visible *)
      assert (Hnv : ~ Forall (free_cell m) (L_path pos kp)).
      { intros Hv. apply Hiff in Hv. injection Hv as Hv. symmetry in Hv.
        now apply app_one_neq in Hv. }
      destruct (4 <=? Z.of_nat (List.length acc)) eqn:E4.
      * intros E. injection E as <-. exists []. rewrite app_nil_r.
        apply Z.leb_le in E4.
        split; [reflexivity|]. split; [intros k []|]. split; [constructor|].
        split; lia.
      * intros E. destruct (IH Hs _ _ E) as (extra & Hres & Hin & Hss & Hlen & Hall).
        exists extra. split; [exact Hres|]. split; [|split; [exact Hss|split]].
        -- intros k Hk. destruct (Hin k Hk) as [H1 H2]. split; [now right | exact H2].
        -- exact Hlen.
        -- intros Hl k [<- | Hk] Hv; [contradiction | now apply Hall].
    + (* the keypoint is appended *)
      assert (Hv : Forall (free_cell m) (L_path pos kp)) by now apply Hiff.
      destruct (4 <=? Z.of_nat (List.length (acc ++ [kp]))) eqn:E4.
      * intros E. injection E as <-. exists [kp].
        apply Z.leb_le in E4. rewrite length_app in *. simpl in *.
        split; [reflexivity|]. split; [|split; [|split]].
        -- intros k [<- | []]. split; [now left | exact Hv].
        -- constructor; constructor.
        -- lia.
        -- lia.
      * intros E. destruct (IH Hs _ _ E) as (extra & Hres & Hin & Hss & Hlen & Hall).
        apply Z.leb_gt in E4. rewrite length_app in *. simpl in *.
        exists (kp :: extra). split; [|split; [|split; [|split]]].
        -- rewrite Hres, <- app_assoc. reflexivity.
        -- intros k [<- | Hk]; [split; [now left | exact Hv]|].
           destruct (Hin k Hk) as [H1 H2]. split; [now right | exact H2].
        -- constructor; [exact Hss|]. apply Forall_forall. intros k Hk.
           rewrite Forall_forall in Hf. apply Hf. now apply Hin.
        -- intros _. apply Hlen. lia.
        -- intros Hl k [<- | Hk] Hvk; [now left | right; now apply Hall].
Qed.

(** X19: the anchors [findBestKeyPoint] gives a position.  There are at
    most four; each is one of the corners and is visible from the position by
    the L-shaped walk; they come nearest first by Manhattan distance; and
    when fewer than four come back, they are all the visible corners there
    are. *)
Theorem findBestKeyPoint_anchors (m : list string) (uniqueCorners : list Pos)
  (pos : Pos) (res : list Pos) :
  findBestKeyPoint m uniqueCorners pos = Ok res ->
  (List.length res <= 4)%nat
  /\ (forall kp, In kp res ->
        In kp uniqueCorners /\ Forall (free_cell m) (L_path pos kp))
  /\ StronglySorted (fun a b => manha_dist pos a <= manha_dist pos b) res
  /\ ((List.length res < 4)%nat ->
      forall kp, In kp uniqueCorners -> Forall (free_cell m) (L_path pos kp) ->
                 In kp res).
Proof.
  unfold findBestKeyPoint. intros E.
  destruct (keypoints_loop_spec m pos _ _
              (py_sorted_sorted (fun kp => manha_dist pos kp) uniqueCorners) _ _ E)
    as (extra & Hres & Hin & Hss & Hlen & Hall).
  simpl in Hres. subst res.
  split; [apply Hlen; simpl; lia|]. split; [|split; [exact Hss|]].
  - intros kp Hk. destruct (Hin kp Hk) as [H1 H2]. split; [|exact H2].
    now apply (py_sorted_In (fun kp => manha_dist pos kp)).
  - intros Hl kp Hk Hv. apply Hall; [exact Hl | | exact Hv].
    now apply py_sorted_In.
Qed.

End KeypointFacts.

(** ** The keypoint graph *)

Section GraphFacts.
Context {SO : SetOrder}.

Lemma Pos_eqb_eq (a b : Pos) : Pos_eqb a b = true <-> a = b.
Proof.
  destruct a as [a1 a2], b as [b1 b2]. unfold Pos_eqb. simpl.
  rewrite andb_true_iff, !Z.eqb_eq. split; [intros [-> ->]; reflexivity|].
  intros E. injection E as -> ->. auto.
Qed.

Lemma add_edge_new (G : Graph) (u v : Pos) (w : Z) : In (u, v, w) (add_edge G u v w).
Proof.
  induction G as [|[[u' v'] w'] G IH]; simpl; [now left|].
  destruct (Pos_eqb u' u && Pos_eqb v' v); [now left | right; exact IH].
Qed.

Lemma add_edge_In (G : Graph) (u v : Pos) (w : Z) (e : Pos * Pos * Z) :
  In e (add_edge G u v w) -> e = (u, v, w) \/ In e G.
Proof.
  induction G as [|[[u' v'] w'] G IH]; simpl.
  - intros [<- | []]. now left.
  - destruct (Pos_eqb u' u && Pos_eqb v' v).
    + intros [<- | H]; [now left | right; now right].
    + intros [<- | H]; [right; now left|].
      destruct (IH H) as [-> | H']; [now left | right; now right].
Qed.

Lemma add_edge_keeps (G : Graph) (u v : Pos) (w : Z) (a b : Pos) (w' : Z) :
  In (a, b, w') G -> In (a, b, w') (add_edge G u v w) \/ (a = u /\ b = v).
Proof.
  induction G as [|[[u' v'] x] G IH]; simpl; [intros []|].
  destruct (Pos_eqb u' u && Pos_eqb v' v) eqn:E.
  - apply andb_true_iff in E. destruct E as [E1 E2].
    apply Pos_eqb_eq in E1, E2. subst u' v'.
    intros [H | H]; [injection H as <- <- _; now right | left; now right].
  - intros [H | H]; [left; now left|].
    destruct (IH H) as [H' | H']; [left; now right | now right].
Qed.

Lemma manha_dist_sym (a b : Pos) : manha_dist a b = manha_dist b a.
Proof. destruct a, b. unfold manha_dist. lia. Qed.

Lemma add_pair_ok (P : Pos -> Prop) (G : Graph) (c1 c2 : Pos) :
  c1 <> c2 -> P c1 -> P c2 -> edges_ok P G ->
  edges_ok P (add_edge (add_edge G c1 c2 (manha_dist c1 c2)) c2 c1 (manha_dist c1 c2)).
Proof.
  intros Hne H1 H2 Hok u v w Hin.
  set (d := manha_dist c1 c2) in *.
  assert (Hfirst : In (c1, c2, d) (add_edge (add_edge G c1 c2 d) c2 c1 d)).
  { destruct (add_edge_keeps (add_edge G c1 c2 d) c2 c1 d c1 c2 d (add_edge_new _ _ _ _))
      as [H | [Ha Hb]]; [exact H | congruence]. }
  pose proof (add_edge_new (add_edge G c1 c2 d) c2 c1 d) as Hsecond.
  apply add_edge_In in Hin. destruct Hin as [E | Hin].
  { injection E as -> -> ->. subst d. rewrite (manha_dist_sym c2 c1).
    repeat split; auto. }
  apply add_edge_In in Hin. destruct Hin as [E | Hin].
  { injection E as -> -> ->. repeat split; auto. }
  destruct (Hok u v w Hin) as (Hw & Huv & Hrev & Pu & Pv).
  repeat split; try assumption.
  destruct (add_edge_keeps G c1 c2 d v u w Hrev) as [H | [-> ->]].
  - destruct (add_edge_keeps _ c2 c1 d v u w H) as [H' | [-> ->]]; [exact H'|].
    assert (Hwd : w = d)
      by (subst d; rewrite Hw; first [reflexivity | apply manha_dist_sym]).
    rewrite Hwd. exact Hsecond.
  - assert (Hwd : w = d)
      by (subst d; rewrite Hw; first [reflexivity | apply manha_dist_sym]).
    rewrite Hwd. exact Hfirst.
Qed.

Lemma contour_edges_ok (P : Pos -> Prop) (corners : list Pos) :
  (forall x, In x corners -> P x) ->
  forall G, edges_ok P G -> edges_ok P (contour_edges corners G).
Proof.
  induction corners as [|c1 rest IH]; intros HP G Hok; simpl; [exact Hok|].
  destruct rest as [|c2 rest']; [exact Hok|].
  apply IH; [intros x Hx; apply HP; now right|].
  destruct (Pos_eqb c1 c2) eqn:E; [exact Hok|].
  apply add_pair_ok; [| apply HP; now left | apply HP; right; now left | exact Hok].
  intros Heq. apply Pos_eqb_eq in Heq. congruence.
Qed.

Lemma fold_contours_ok (P : Pos -> Prop) (sets : list (list Pos)) :
  (forall cs x, In cs sets -> In x cs -> P x) ->
  forall G, edges_ok P G ->
            edges_ok P (fold_left (fun G corners => contour_edges corners G) sets G).
Proof.
  induction sets as [|cs sets IH]; intros HP G Hok; simpl; [exact Hok|].
  apply IH; [intros cs' x Hcs Hx; apply (HP cs' x); [now right | exact Hx]|].
  apply contour_edges_ok; [|exact Hok]. intros x Hx. apply (HP cs x); [now left | exact Hx].
Qed.

Lemma set_add_In (s : list Pos) (x y : Pos) : In y (set_add s x) <-> y = x \/ In y s.
Proof.
  unfold set_add. destruct (existsb (Pos_eqb x) s) eqn:E.
  - split; [now right|]. intros [-> | H]; [|exact H].
    apply existsb_exists in E. destruct E as (z & Hz & Hxz).
    apply Pos_eqb_eq in Hxz. now subst z.
  - rewrite in_app_iff. simpl. intuition.
Qed.

Lemma set_add_NoDup (s : list Pos) (x : Pos) : NoDup s -> NoDup (set_add s x).
Proof.
  intros Hn. unfold set_add. destruct (existsb (Pos_eqb x) s) eqn:E; [exact Hn|].
  apply NoDup_app; [exact Hn | constructor; [intros [] | constructor] |].
  intros y Hy [Exy | []]. subst y.
  assert (Ht : existsb (Pos_eqb x) s = true).
  { apply existsb_exists. exists x. split; [exact Hy | now apply Pos_eqb_eq]. }
  congruence.
Qed.

Lemma fold_set_add (l : list Pos) :
  forall s, NoDup s ->
            NoDup (fold_left set_add l s)
            /\ (forall y, In y (fold_left set_add l s) <-> In y s \/ In y l).
Proof.
  induction l as [|x l IH]; intros s Hn; simpl.
  - split; [exact Hn | intuition].
  - destruct (IH (set_add s x) (set_add_NoDup s x Hn)) as [H1 H2].
    split; [exact H1|]. intros y. rewrite H2, set_add_In. intuition.
Qed.

Lemma rotate_last_In {A : Type} (l : list A) (x : A) : In x (rotate_last l) <-> In x l.
Proof.
  unfold rotate_last. rewrite in_app_iff.
  rewrite <- (firstn_skipn (List.length l - 1) l) at 5.
  rewrite in_app_iff. intuition.
Qed.

(** *** Writing on the array *)

Lemma np_index_lt (i n : Z) (k : nat) : np_index i n = Ok k -> Z.of_nat k < n.
Proof.
  unfold np_index.
  destruct ((0 <=? i) && (i <? n)) eqn:E1.
  - intros E. injection E as <-. apply andb_prop in E1. destruct E1 as [H1 H2].
    apply Z.leb_le in H1. apply Z.ltb_lt in H2. lia.
  - destruct ((- n <=? i) && (i <? 0)) eqn:E2; [|discriminate].
    intros E. injection E as <-. apply andb_prop in E2. destruct E2 as [H1 H2].
    apply Z.leb_le in H1. apply Z.ltb_lt in H2. lia.
Qed.

Lemma np_index_error (i n : Z) (e : Exn) : np_index i n = Raise e -> e = IndexError.
Proof.
  unfold np_index. destruct ((0 <=? i) && (i <? n)); [discriminate|].
  destruct ((- n <=? i) && (i <? 0)); [discriminate|]. intros E. now injection E.
Qed.

Lemma string_get_lt (s : string) :
  forall i, (i < String.length s)%nat -> exists c, String.get i s = Some c.
Proof.
  induction s as [|c s IH]; intros i Hi; simpl in Hi; [lia|].
  destruct i as [|i]; simpl; [now exists c|]. apply IH. lia.
Qed.

Lemma string_set_length (s : string) (ch : ascii) :
  forall i, String.length (string_set s i ch) = String.length s.
Proof.
  induction s as [|c s IH]; intros i; [reflexivity|].
  destruct i as [|i]; simpl; [reflexivity|]. now rewrite IH.
Qed.

Lemma string_get_set_same (s : string) (ch : ascii) :
  forall i, (i < String.length s)%nat -> String.get i (string_set s i ch) = Some ch.
Proof.
  induction s as [|c s IH]; intros i Hi; simpl in Hi; [lia|].
  destruct i as [|i]; simpl; [reflexivity|]. apply IH. lia.
Qed.

Lemma string_get_set_other (s : string) (ch : ascii) :
  forall i j, i <> j -> String.get j (string_set s i ch) = String.get j s.
Proof.
  induction s as [|c s IH]; intros i j Hij; [reflexivity|].
  destruct i as [|i], j as [|j]; simpl; try reflexivity; [congruence|].
  apply IH. congruence.
Qed.

Lemma rows_set_same (m : list string) (row : string) :
  forall i, (i < List.length m)%nat -> nth i (rows_set m i row) "" = row.
Proof.
  induction m as [|row0 m IH]; intros i Hi; simpl in Hi; [lia|].
  destruct i as [|i]; simpl; [reflexivity|]. apply IH. lia.
Qed.

Lemma rows_set_other (m : list string) (row : string) :
  forall i j, i <> j -> nth j (rows_set m i row) "" = nth j m "".
Proof.
  induction m as [|row0 m IH]; intros i j Hij; [reflexivity|].
  destruct i as [|i], j as [|j]; simpl; try reflexivity; [congruence|].
  apply IH. congruence.
Qed.

Lemma rows_set_shape (m : list string) (row : string) :
  forall i, String.length row = String.length (nth i m "") ->
            same_shape m (rows_set m i row).
Proof.
  unfold same_shape.
  induction m as [|row0 m IH]; intros i Hlen; [reflexivity|].
  destruct i as [|i]; simpl in *; [now rewrite Hlen|]. now rewrite IH.
Qed.

Lemma same_shape_length (m m' : list string) :
  same_shape m m' -> List.length m' = List.length m.
Proof.
  unfold same_shape. intros H. apply (f_equal (@List.length nat)) in H.
  now rewrite !length_map in H.
Qed.

Lemma same_shape_row (m m' : list string) (i : nat) :
  same_shape m m' -> String.length (nth i m' "") = String.length (nth i m "").
Proof.
  unfold same_shape. intros H.
  rewrite <- (map_nth String.length m' "" i), <- (map_nth String.length m "" i).
  now rewrite H.
Qed.

Lemma same_shape_sym (m m' : list string) : same_shape m m' -> same_shape m' m.
Proof. unfold same_shape. intros H. now symmetry. Qed.

Lemma same_shape_trans (m1 m2 m3 : list string) :
  same_shape m1 m2 -> same_shape m2 m3 -> same_shape m1 m3.
Proof. unfold same_shape. intros H1 H2. now rewrite H2. Qed.

Lemma np_get_Ok (m : list string) (p : Pos) (ch : ascii) :
  np_get m p = Ok ch
  <-> exists r c,
        np_index (fst p) (Z.of_nat (List.length m)) = Ok r
        /\ np_index (snd p) (Z.of_nat (String.length (nth r m ""))) = Ok c
        /\ String.get c (nth r m "") = Some ch.
Proof.
  unfold np_get. split.
  - destruct (np_index (fst p) _) as [r|]; cbn [Res_bind]; [|discriminate].
    destruct (np_index (snd p) _) as [c|] eqn:Ec; cbn [Res_bind]; [|discriminate].
    destruct (String.get c _) as [x|] eqn:Eg; [|discriminate].
    intros E. injection E as <-. exists r, c. repeat split; assumption.
  - intros (r & c & -> & Hc & Hg). cbn [Res_bind]. rewrite Hc. cbn [Res_bind].
    now rewrite Hg.
Qed.

Lemma np_set_Ok (m m' : list string) (p : Pos) (ch : ascii) :
  np_set m p ch = Ok m'
  <-> exists r c,
        np_index (fst p) (Z.of_nat (List.length m)) = Ok r
        /\ np_index (snd p) (Z.of_nat (String.length (nth r m ""))) = Ok c
        /\ m' = rows_set m r (string_set (nth r m "") c ch).
Proof.
  unfold np_set. split.
  - destruct (np_index (fst p) _) as [r|]; cbn [Res_bind]; [|discriminate].
    destruct (np_index (snd p) _) as [c|] eqn:Ec; cbn [Res_bind]; [|discriminate].
    intros E. injection E as <-. exists r, c. repeat split. exact Ec.
  - intros (r & c & -> & Hc & ->). cbn [Res_bind]. rewrite Hc. reflexivity.
Qed.

Lemma np_set_error (m : list string) (p : Pos) (ch : ascii) (e : Exn) :
  np_set m p ch = Raise e -> e = IndexError.
Proof.
  unfold np_set.
  destruct (np_index (fst p) _) as [r|] eqn:Er; cbn [Res_bind];
    [|intros E; injection E as <-; exact (np_index_error _ _ _ Er)].
  destruct (np_index (snd p) _) as [c|] eqn:Ec; cbn [Res_bind]; [discriminate|].
  intros E. injection E as <-. exact (np_index_error _ _ _ Ec).
Qed.

(** The assignment goes through exactly where the cell can be read. *)
Lemma np_set_in_bounds (m : list string) (p : Pos) (ch : ascii) :
  in_bounds m p <-> exists m', np_set m p ch = Ok m'.
Proof.
  unfold in_bounds. split.
  - intros [x Hx]. apply np_get_Ok in Hx. destruct Hx as (r & c & Hr & Hc & _).
    eexists. apply np_set_Ok. exists r, c. repeat split; assumption.
  - intros [m' Hm]. apply np_set_Ok in Hm. destruct Hm as (r & c & Hr & Hc & _).
    pose proof (np_index_lt _ _ _ Hc) as Hlt.
    destruct (string_get_lt (nth r m "") c ltac:(lia)) as [x Hx].
    exists x. apply np_get_Ok. exists r, c. repeat split; assumption.
Qed.

Lemma np_set_shape (m m' : list string) (p : Pos) (ch : ascii) :
  np_set m p ch = Ok m' -> same_shape m m'.
Proof.
  intros H. apply np_set_Ok in H. destruct H as (r & c & _ & _ & ->).
  apply rows_set_shape. apply string_set_length.
Qed.

(** Whether a cell can be read depends on the shape of the array only. *)
Lemma in_bounds_shape (m m' : list string) (q : Pos) :
  same_shape m m' -> in_bounds m q -> in_bounds m' q.
Proof.
  intros Hs [x Hx]. apply np_get_Ok in Hx. destruct Hx as (r & c & Hr & Hc & _).
  pose proof (np_index_lt _ _ _ Hc) as Hlt.
  rewrite <- (same_shape_row m m' r Hs) in Hc, Hlt.
  rewrite <- (same_shape_length m m' Hs) in Hr.
  destruct (string_get_lt (nth r m' "") c ltac:(lia)) as [y Hy].
  exists y. apply np_get_Ok. exists r, c. repeat split; assumption.
Qed.

Lemma np_get_set_same (m m' : list string) (p : Pos) (ch : ascii) :
  np_set m p ch = Ok m' -> np_get m' p = Ok ch.
Proof.
  intros H. pose proof (np_set_shape _ _ _ _ H) as Hs.
  apply np_set_Ok in H. destruct H as (r & c & Hr & Hc & Hm).
  pose proof (np_index_lt _ _ _ Hr) as Hrl. pose proof (np_index_lt _ _ _ Hc) as Hcl.
  apply np_get_Ok. exists r, c.
  rewrite (same_shape_length _ _ Hs), (same_shape_row _ _ r Hs).
  split; [exact Hr|]. split; [exact Hc|]. subst m'.
  rewrite rows_set_same by lia. apply string_get_set_same. lia.
Qed.

(** A cell read after an assignment holds what it held or what was written. *)
Lemma np_get_set_other (m m' : list string) (p q : Pos) (ch x : ascii) :
  np_set m p ch = Ok m' -> np_get m q = Ok x ->
  np_get m' q = Ok x \/ np_get m' q = Ok ch.
Proof.
  intros H Hq. pose proof (np_set_shape _ _ _ _ H) as Hs.
  apply np_set_Ok in H. destruct H as (r & c & Hr & Hc & Hm).
  pose proof (np_index_lt _ _ _ Hr) as Hrl. pose proof (np_index_lt _ _ _ Hc) as Hcl.
  apply np_get_Ok in Hq. destruct Hq as (rq & cq & Hrq & Hcq & Hg).
  assert (Hread : forall y, String.get cq (nth rq m' "") = Some y -> np_get m' q = Ok y).
  { intros y Hy. apply np_get_Ok. exists rq, cq.
    rewrite (same_shape_length _ _ Hs), (same_shape_row _ _ rq Hs).
    repeat split; assumption. }
  destruct (Nat.eq_dec r rq) as [<- | Hne].
  - destruct (Nat.eq_dec c cq) as [<- | Hnc].
    + right. apply Hread. subst m'. rewrite rows_set_same by lia.
      apply string_get_set_same. lia.
    + left. apply Hread. subst m'. rewrite rows_set_same by lia.
      now rewrite string_get_set_other.
  - left. apply Hread. subst m'. now rewrite rows_set_other.
Qed.

(** The loop that collects and marks the corners of one corner set. *)
Lemma mark_corners_spec (corners : list Pos) :
  forall uc m uc' m',
    mark_corners corners uc m = Ok (uc', m') ->
    uc' = fold_left set_add corners uc
    /\ same_shape m m'
    /\ Forall (in_bounds m) corners
    /\ (forall x, In x corners -> np_get m' x = Ok "O"%char)
    /\ (forall x, np_get m x = Ok "O"%char -> np_get m' x = Ok "O"%char).
Proof.
  induction corners as [|corner rest IH]; intros uc m uc' m'; cbn [mark_corners].
  - intros E. injection E as <- <-.
    split; [reflexivity|]. split; [reflexivity|]. split; [constructor|].
    split; [intros x []|]. auto.
  - destruct (np_set m corner "O") as [m1|] eqn:Eset; cbn [Res_bind]; [|discriminate].
    intros E. destruct (IH _ _ _ _ E) as (Huc & Hs & Hin & Hmark & Hkeep).
    pose proof (np_set_shape _ _ _ _ Eset) as Hs1.
    split; [exact Huc|]. split; [exact (same_shape_trans _ _ _ Hs1 Hs)|].
    split; [|split].
    + constructor.
      * apply (np_set_in_bounds m corner "O"). now exists m1.
      * eapply Forall_impl; [|exact Hin]. intros x.
        apply in_bounds_shape. now apply same_shape_sym.
    + intros x [<- | Hx]; [|now apply Hmark].
      apply Hkeep. exact (np_get_set_same _ _ _ _ Eset).
    + intros x Hx. apply Hkeep.
      destruct (np_get_set_other _ _ _ x _ _ Eset Hx) as [H | H]; exact H.
Qed.

Lemma mark_corners_error (corners : list Pos) :
  forall uc m e, mark_corners corners uc m = Raise e -> e = IndexError.
Proof.
  induction corners as [|corner rest IH]; intros uc m e; cbn [mark_corners];
    [discriminate|].
  destruct (np_set m corner "O") as [m1|] eqn:Eset; cbn [Res_bind].
  - apply IH.
  - intros E. injection E as <-. exact (np_set_error _ _ _ _ Eset).
Qed.

Lemma mark_corners_total (corners : list Pos) :
  forall uc m, Forall (in_bounds m) corners ->
               exists uc' m', mark_corners corners uc m = Ok (uc', m').
Proof.
  induction corners as [|corner rest IH]; intros uc m Hin; cbn [mark_corners].
  - now exists uc, m.
  - inversion Hin as [|? ? Hc Hrest]; subst.
    destruct (proj1 (np_set_in_bounds m corner "O") Hc) as [m1 Eset].
    rewrite Eset. cbn [Res_bind]. apply IH.
    eapply Forall_impl; [|exact Hrest]. intros x.
    apply in_bounds_shape. exact (np_set_shape _ _ _ _ Eset).
Qed.

(** The same over all the corner sets. *)
Lemma mark_sets_spec (cornerSets : list (list Pos)) :
  forall uc m uc' m',
    mark_sets cornerSets uc m = Ok (uc', m') ->
    uc' = fold_left set_add (List.concat cornerSets) uc
    /\ same_shape m m'
    /\ Forall (in_bounds m) (List.concat cornerSets)
    /\ (forall x, In x (List.concat cornerSets) -> np_get m' x = Ok "O"%char)
    /\ (forall x, np_get m x = Ok "O"%char -> np_get m' x = Ok "O"%char).
Proof.
  induction cornerSets as [|corners rest IH]; intros uc m uc' m'; cbn [mark_sets].
  - intros E. injection E as <- <-.
    split; [reflexivity|]. split; [reflexivity|]. split; [constructor|].
    split; [intros x []|]. auto.
  - destruct (mark_corners corners uc m) as [[uc1 m1]|] eqn:E1; cbn [Res_bind];
      [|discriminate].
    intros E.
    destruct (mark_corners_spec _ _ _ _ _ E1) as (Huc1 & Hs1 & Hin1 & Hmark1 & Hkeep1).
    destruct (IH _ _ _ _ E) as (Huc & Hs & Hin & Hmark & Hkeep).
    cbn [List.concat]. rewrite fold_left_app, <- Huc1.
    split; [exact Huc|]. split; [exact (same_shape_trans _ _ _ Hs1 Hs)|].
    split; [|split].
    + apply Forall_app. split; [exact Hin1|].
      eapply Forall_impl; [|exact Hin]. intros x.
      apply in_bounds_shape. now apply same_shape_sym.
    + intros x Hx. apply in_app_or in Hx. destruct Hx as [Hx | Hx].
      * apply Hkeep. now apply Hmark1.
      * now apply Hmark.
    + intros x Hx. apply Hkeep. now apply Hkeep1.
Qed.

Lemma mark_sets_error (cornerSets : list (list Pos)) :
  forall uc m e, mark_sets cornerSets uc m = Raise e -> e = IndexError.
Proof.
  induction cornerSets as [|corners rest IH]; intros uc m e; cbn [mark_sets];
    [discriminate|].
  destruct (mark_corners corners uc m) as [[uc1 m1]|] eqn:E1; cbn [Res_bind].
  - apply IH.
  - intros E. injection E as <-. exact (mark_corners_error _ _ _ _ E1).
Qed.

Lemma mark_sets_total (cornerSets : list (list Pos)) :
  forall uc m, Forall (in_bounds m) (List.concat cornerSets) ->
               exists uc' m', mark_sets cornerSets uc m = Ok (uc', m').
Proof.
  induction cornerSets as [|corners rest IH]; intros uc m Hin; cbn [mark_sets].
  - now exists uc, m.
  - cbn [List.concat] in Hin. apply Forall_app in Hin. destruct Hin as [H1 H2].
    destruct (mark_corners_total corners uc m H1) as (uc1 & m1 & E1).
    rewrite E1. cbn [Res_bind]. apply IH.
    destruct (mark_corners_spec _ _ _ _ _ E1) as (_ & Hs1 & _).
    eapply Forall_impl; [|exact H2]. intros x. now apply in_bounds_shape.
Qed.

(** What a returned [generateGraph] has built. *)
Lemma generateGraph_sound (m m' : list string) (cornerSets sets : list (list Pos))
  (uniqueCorners : list Pos) (G : Graph) :
  generateGraph m cornerSets = Ok (uniqueCorners, sets, G, m') ->
  (exists first others,
      cornerSets = first :: others /\ sets = rotate_last first :: others)
  /\ (forall x, In x uniqueCorners -> in_bounds m x /\ np_get m' x = Ok "O"%char)
  /\ NoDup uniqueCorners
  /\ (forall x, In x uniqueCorners <-> exists cs, In cs cornerSets /\ In x cs)
  /\ edges_ok (fun x => In x uniqueCorners) G.
Proof.
  unfold generateGraph.
  destruct (mark_sets cornerSets [] m) as [[uc0 m1]|] eqn:Em; cbn [Res_bind];
    [|discriminate].
  destruct cornerSets as [|first others]; [discriminate|]. cbn [item0 Res_bind tl].
  intros E. injection E as <- <- <- <-.
  destruct (mark_sets_spec _ _ _ _ _ Em) as (Huc & _ & Hin & Hmark & _).
  destruct (fold_set_add (List.concat (first :: others)) [] ltac:(constructor))
    as [Hnd Hfold].
  rewrite <- Huc in Hnd, Hfold.
  pose proof (list_of_set_perm uc0) as Hperm.
  assert (Hset : forall x, In x (list_of_set uc0) <-> In x (List.concat (first :: others))).
  { intros x. split.
    - intros Hx. apply (Permutation_in x (Permutation_sym Hperm)) in Hx.
      apply Hfold in Hx. destruct Hx as [[] | Hx]. exact Hx.
    - intros Hx. apply (Permutation_in x Hperm). apply Hfold. now right. }
  assert (Hmem : forall x, In x (list_of_set uc0)
                           <-> exists cs, In cs (first :: others) /\ In x cs).
  { intros x. rewrite Hset, in_concat. reflexivity. }
  split; [now exists first, others|].
  split.
  { intros x Hx. apply Hset in Hx. split; [|now apply Hmark].
    rewrite Forall_forall in Hin. now apply Hin. }
  split; [exact (Permutation_NoDup Hperm Hnd)|]. split; [exact Hmem|].
  change (edges_ok
            (fun x => In x (list_of_set uc0))
            (fold_left (fun G corners => contour_edges corners G)
               (rotate_last first :: others) [])).
  apply fold_contours_ok; [|unfold edges_ok; intros u v w []].
  intros cs x [<- | Hcs] Hx; apply Hmem.
  - exists first. split; [now left | now apply rotate_last_In].
  - exists cs. split; [now right | exact Hx].
Qed.

(** X20: the graph [generateGraph] builds, and when it builds none.  The
    call raises [IndexError], and nothing else, exactly when there is no
    corner set or a corner lies outside the array it marks; otherwise it
    returns.  When it returns, every corner collected lies within the array
    and reads [O] in the marked array; the corners collected are the cells of
    the corner sets, each once; and every edge of the graph joins two
    different corners, weighs their Manhattan distance, and has its reverse
    edge of the same weight in the graph. *)
Theorem generateGraph_edges (m : list string) (cornerSets : list (list Pos)) :
  (cornerSets = []
   \/ (exists cs x, In cs cornerSets /\ In x cs /\ np_get m x = Raise IndexError) ->
   generateGraph m cornerSets = Raise IndexError)
  /\ (cornerSets <> [] ->
      (forall cs x, In cs cornerSets -> In x cs -> in_bounds m x) ->
      exists uniqueCorners sets G m',
        generateGraph m cornerSets = Ok (uniqueCorners, sets, G, m'))
  /\ (forall uniqueCorners sets G m',
        generateGraph m cornerSets = Ok (uniqueCorners, sets, G, m') ->
        (forall x, In x uniqueCorners -> in_bounds m x /\ np_get m' x = Ok "O"%char)
        /\ NoDup uniqueCorners
        /\ (forall x, In x uniqueCorners <-> exists cs, In cs cornerSets /\ In x cs)
        /\ edges_ok (fun x => In x uniqueCorners) G).
Proof.
  split; [|split].
  - intros [-> | (cs & x & Hcs & Hx & Hout)]; [reflexivity|].
    unfold generateGraph.
    destruct (mark_sets cornerSets [] m) as [[uc0 m1]|e] eqn:Em; cbn [Res_bind].
    + exfalso. destruct (mark_sets_spec _ _ _ _ _ Em) as (_ & _ & Hin & _).
      rewrite Forall_forall in Hin.
      destruct (Hin x) as [ch Hch]; [|congruence].
      apply in_concat. exists cs. split; assumption.
    + now rewrite (mark_sets_error _ _ _ _ Em).
  - intros Hne Hin. unfold generateGraph.
    destruct (mark_sets_total cornerSets [] m) as (uc0 & m1 & ->).
    { apply Forall_forall. intros x Hx. apply in_concat in Hx.
      destruct Hx as (cs & Hcs & Hx). exact (Hin cs x Hcs Hx). }
    cbn [Res_bind]. destruct cornerSets as [|first others]; [congruence|].
    cbn [item0 Res_bind]. do 4 eexists. reflexivity.
  - intros uniqueCorners sets G m' E.
    destruct (generateGraph_sound _ _ _ _ _ _ E) as (_ & H).
    exact H.
Qed.

End GraphFacts.

(** ** SearchClient._formatl *)

Section FormatFacts.

Lemma pad_plus_S (n : nat) (s : string) :
  pad_plus (S n) s = String "+"%char (pad_plus n s).
Proof.
  revert s. induction n as [|n IH]; intros s; [reflexivity|].
  change (pad_plus (S (S n)) s) with (pad_plus (S n) (String "+"%char s)).
  rewrite IH. reflexivity.
Qed.

Lemma pad_plus_length (n : nat) (s : string) :
  String.length (pad_plus n s) = (n + String.length s)%nat.
Proof.
  revert s. induction n as [|n IH]; intros s; simpl; [reflexivity|].
  rewrite IH. simpl. lia.
Qed.

Lemma after_first_plus_length (line rest : string) :
  after_first_plus line = Some rest ->
  (String.length rest < String.length line)%nat.
Proof.
  induction line as [|c line IH]; simpl; [discriminate|].
  destruct (Ascii.eqb c "+").
  - intros E. injection E as <-. lia.
  - destruct (Ascii.eqb c "010"); [discriminate|].
    intros E. apply IH in E. lia.
Qed.

Lemma after_first_plus_split (before rest : string) :
  (forall i c, String.get i before = Some c -> c <> "+"%char /\ c <> "010"%char) ->
  after_first_plus (before ++ String "+"%char rest)%string = Some rest.
Proof.
  induction before as [|c before IH]; intros Hb; simpl.
  - reflexivity.
  - destruct (Hb O c eq_refl) as [H1 H2].
    apply Ascii.eqb_neq in H1, H2. rewrite H1, H2.
    apply IH. intros i c' Hg. apply (Hb (S i) c'). exact Hg.
Qed.

Lemma after_first_plus_none (line : string) :
  (forall i c, String.get i line = Some c -> c <> "+"%char) ->
  after_first_plus line = None.
Proof.
  induction line as [|c line IH]; intros Hb; simpl; [reflexivity|].
  pose proof (Hb O c eq_refl) as H1. apply Ascii.eqb_neq in H1. rewrite H1.
  destruct (Ascii.eqb c "010"); [reflexivity|].
  apply IH. intros i c' Hg. apply (Hb (S i) c'). exact Hg.
Qed.

Lemma length_append (a b : string) :
  String.length (a ++ b)%string = (String.length a + String.length b)%nat.
Proof. induction a as [|c a IH]; simpl; [reflexivity | now rewrite IH]. Qed.

Lemma _formatl_leading_plus (s : string) :
  _formatl (String "+"%char s) = String "+"%char s.
Proof.
  unfold _formatl, sub_to_first_plus. simpl. rewrite Nat.sub_diag. reflexivity.
Qed.

(** X21: what [_formatl] does to a line of the level.  The length is kept.
    A line whose first [+] comes after [k] characters (none of them a
    newline) comes back with those [k] characters and the [+] replaced by
    [k + 1] times [+] and the rest untouched; a line without [+] comes back
    as it is; and formatting a formatted line changes nothing. *)
Theorem _formatl_shape (line : string) :
  String.length (_formatl line) = String.length line
  /\ _formatl (_formatl line) = _formatl line
  /\ (forall before rest,
        line = (before ++ String "+"%char rest)%string ->
        (forall i c, String.get i before = Some c -> c <> "+"%char /\ c <> "010"%char) ->
        _formatl line = pad_plus (S (String.length before)) rest)
  /\ ((forall i c, String.get i line = Some c -> c <> "+"%char) -> _formatl line = line).
Proof.
  assert (Hform : forall rest, after_first_plus line = Some rest ->
            _formatl line
            = pad_plus (S (String.length line - S (String.length rest))) rest).
  { intros rest E. unfold _formatl, sub_to_first_plus. rewrite E.
    cbn [String.length]. reflexivity. }
  assert (Hnone : after_first_plus line = None -> _formatl line = line).
  { intros E. unfold _formatl, sub_to_first_plus. rewrite E.
    now rewrite Nat.sub_diag. }
  split; [|split; [|split]].
  - destruct (after_first_plus line) as [rest|] eqn:E.
    + rewrite (Hform rest eq_refl), pad_plus_length.
      apply after_first_plus_length in E. lia.
    + now rewrite Hnone.
  - destruct (after_first_plus line) as [rest|] eqn:E.
    + rewrite (Hform rest eq_refl), pad_plus_S. apply _formatl_leading_plus.
    + now rewrite !Hnone.
  - intros before rest -> Hb.
    rewrite (Hform rest (after_first_plus_split before rest Hb)).
    f_equal. rewrite length_append. simpl. lia.
  - intros Hb. apply Hnone. now apply after_first_plus_none.
Qed.

End FormatFacts.

(** ** The further properties on concrete levels *)

Section ConcreteMore.
Import SpecWorld.
#[local] Existing Instance methods.
#[local] Existing Instance open_map_query.
#[local] Existing Instance insertion_order.


(** The same through [Agent.solve]. *)
Lemma solve_corridor_push_status :
  exists message self',
    solve (SM := methods_push) (MEM := memory_free) aStar_push 20 [] (agent_on corridor)
    = Some (Ok (Some ["Move(E)"; "Push(E,E)"; "Push(E,E)"], message), self', [])
    /\ saved_solution self' = Some ["Move(E)"; "Push(E,E)"; "Push(E,E)"]
    /\ status self' = STATUS.ok
    /\ (Some ["Move(E)"; "Push(E,E)"; "Push(E,E)"] <> None -> helping self' = None)
    /\ (Some ["Move(E)"; "Push(E,E)"; "Push(E,E)"] = None ->
        exists m, message = Some m /\ msg_status m = STATUS.fail).
Proof.
  destruct (solve (SM := methods_push) (MEM := memory_free) aStar_push 20 []
              (agent_on corridor)) as [[[[[path message]|e] self'] inbox']|] eqn:E;
    try (vm_compute in E; discriminate).
  assert (Hp : path = Some ["Move(E)"; "Push(E,E)"; "Push(E,E)"] /\ inbox' = [])
    by (vm_compute in E; injection E as <- _ _ <-; split; reflexivity).
  destruct Hp as [-> ->].
  exists message, self'. split; [reflexivity|].
  exact (solve_status_reflects_plan (SM := methods_push) (MEM := memory_free)
           aStar_push 20 [] [] (agent_on corridor) self' _ message eq_refl E).
Defined.

(** A second call, with another bound and an inbox that holds messages,
    returns the saved plan at once. *)
Lemma solve_corridor_push_again :
  exists message self',
    solve (SM := methods_push) (MEM := memory_free) aStar_push 20 [] (agent_on corridor)
    = Some (Ok (Some ["Move(E)"; "Push(E,E)"; "Push(E,E)"], message), self', [])
    /\ solve (SM := methods_push) (MEM := memory_free) aStar_push 0 [sos_from_1] self'
       = Some (Ok (Some ["Move(E)"; "Push(E,E)"; "Push(E,E)"], None), self', [sos_from_1]).
Proof.
  destruct (solve (SM := methods_push) (MEM := memory_free) aStar_push 20 []
              (agent_on corridor)) as [[[[[path message]|e] self'] inbox']|] eqn:E;
    try (vm_compute in E; discriminate).
  assert (Hp : path = Some ["Move(E)"; "Push(E,E)"; "Push(E,E)"] /\ inbox' = [])
    by (vm_compute in E; injection E as <- _ _ <-; split; reflexivity).
  destruct Hp as [-> ->].
  exists message, self'. split; [reflexivity|].
  exact (solve_again_returns_cached (SM := methods_push) (MEM := memory_free)
           aStar_push 20 0 [] [] [sos_from_1] (agent_on corridor) self' _ message
           eq_refl E).
Defined.
(** An agent that has not failed is not made a helper by a request that
    waits in the inbox. *)
Lemma solve_ignores_request :
  exists r self' inbox',
    solve (SM := methods) (MEM := memory_free) aStar 5 [sos_from_1]
      (agent_on corridor_blocked) = Some (r, self', inbox')
    /\ (helping self' = helping (agent_on corridor_blocked) \/ helping self' = None)
    /\ heuristic self' = heuristic (agent_on corridor_blocked)
    /\ name self' = name (agent_on corridor_blocked)
    /\ color self' = color (agent_on corridor_blocked)
    /\ init_task self' = init_task (agent_on corridor_blocked).
Proof.
  destruct (solve (SM := methods) (MEM := memory_free) aStar 5 [sos_from_1]
              (agent_on corridor_blocked)) as [[[r self'] inbox']|] eqn:E;
    [|vm_compute in E; discriminate].
  exists r, self', inbox'. split; [reflexivity|].
  exact (solve_never_takes_request (SM := methods) (MEM := memory_free) aStar 5
           [sos_from_1] inbox' (agent_on corridor_blocked) self' r E).
Defined.

(** The blocked agent and its own SOS. *)
Lemma solve_own_sos_corridor :
  _sos (SM := methods) (failed_agent_on corridor_blocked)
  = (Ok (mkMessage "B" "blue" "0" STATUS.fail None), failed_agent_on corridor_blocked)
  /\ requester (mkMessage "B" "blue" "0" STATUS.fail None)
     = name (failed_agent_on corridor_blocked)
  /\ time (mkMessage "B" "blue" "0" STATUS.fail None) = None
  /\ solve (SM := methods) (MEM := memory_free) aStar 5
       [mkMessage "B" "blue" "0" STATUS.fail None; sos_from_1]
       (failed_agent_on corridor_blocked)
     = Some (Raise TypeError, failed_agent_on corridor_blocked,
             [mkMessage "B" "blue" "0" STATUS.fail None; sos_from_1]).
Proof.
  split; [reflexivity|].
  exact (solve_own_sos_raises (SM := methods) (MEM := memory_free) aStar 5
           (failed_agent_on corridor_blocked) (failed_agent_on corridor_blocked)
           (mkMessage "B" "blue" "0" STATUS.fail None) [sos_from_1] eq_refl eq_refl).
Defined.

(** The answer to agent [0]: of its three events only the last is kept. *)
Lemma consume_answer_corridor :
  exists overlay,
    consume_message (SM := methods) answer_to_0 (failed_agent_on corridor_blocked)
    = (Ok tt,
       set_task (failed_agent_on corridor_blocked)
         (set_t (StateConcurrent (task (failed_agent_on corridor_blocked)) overlay) 0))
    /\ (forall t_ entry, In (t_, entry) overlay ->
          exists pos, entry = [(object_problem answer_to_0, pos)]
                      /\ In (t_, pos) [(0, (1, 2)); (1, (1, 2)); (2, (2, 2))])
    /\ NoDup (List.map fst overlay)
    /\ ((forall e, In e [(1, (1, 2)); (2, (2, 2))] -> snd e = snd (0, (1, 2))) ->
        overlay = []).
Proof.
  exact (consume_answer_overlay (SM := methods) answer_to_0
           (failed_agent_on corridor_blocked) (0, (1, 2)) [(1, (1, 2)); (2, (2, 2))]
           eq_refl eq_refl).
Defined.

(** The positions traced for the agent of the walled-in box. *)
Lemma track_back_walled_box :
  track_back (failed_agent_on walled_box) = Ok [(1, 1); (1, 2)]
  /\ exists exp c more rest,
       In exp (explored (task (failed_agent_on walled_box)))
       /\ In ((name (failed_agent_on walled_box), ((1, 2), c) :: more) :: rest) exp.
Proof.
  split; [reflexivity|].
  apply (track_back_sound (failed_agent_on walled_box) [(1, 1); (1, 2)] (1, 2));
    [reflexivity | right; left; reflexivity].
Defined.

(** The blocked agent names the blue box next to it. *)
Lemma identify_problem_corridor :
  _identify_problem (SM := methods) (failed_agent_on corridor_blocked)
  = Ok (Some ("B", "blue"))
  /\ "blue" <> color (failed_agent_on corridor_blocked)
  /\ exists pos more trace agent_pos,
       In ("B", (pos, "blue") :: more) (boxes (task (failed_agent_on corridor_blocked)))
       /\ track_back (failed_agent_on corridor_blocked) = Ok trace
       /\ In agent_pos trace
       /\ Neighbour (StateMethods := methods) (task (failed_agent_on corridor_blocked))
            pos agent_pos = true.
Proof.
  split; [reflexivity|].
  exact (identify_problem_sound (SM := methods) (failed_agent_on corridor_blocked)
           "B" "blue" eq_refl).
Defined.

(** The red agent of the corridor is given a blue subtask and takes it. *)
Lemma add_task_blue_subtask :
  NoDup (List.map fst (goals subtask_C_blue))
  /\ color (agent_on corridor) = "red"
  /\ exists self',
       add_task subtask_C_blue (agent_on corridor) = (Ok tt, self')
       /\ goals (task self') = [("A", [((1, 5), "red")]); ("C", [((1, 4), "blue")])]
       /\ (forall key,
             dict_get (goals (task self')) key
             = match dict_get (goals subtask_C_blue) key with
               | Some v => Some v
               | None => dict_get (goals (task (agent_on corridor))) key
               end).
Proof.
  assert (Hn : NoDup (List.map fst (goals subtask_C_blue))).
  { simpl. constructor; [intros [] | constructor]. }
  split; [exact Hn|]. split; [reflexivity|].
  destruct (proj2 (add_task_merges_any_color subtask_C_blue (agent_on corridor) Hn)
              "C" ((1, 4), "blue") [] [] eq_refl) as (self' & Hadd & Hget & _).
  exists self'. split; [exact Hadd|]. split; [|exact Hget].
  vm_compute in Hadd. injection Hadd as <-. reflexivity.
Defined.

(** Distances between three cells of the corridor. *)
Lemma manha_dist_corridor :
  0 <= manha_dist (1, 1) (1, 3)
  /\ (manha_dist (1, 1) (1, 3) = 0 <-> (1, 1) = (1, 3))
  /\ manha_dist (1, 1) (1, 3) = manha_dist (1, 3) (1, 1)
  /\ manha_dist (1, 1) (1, 5) <= manha_dist (1, 1) (1, 3) + manha_dist (1, 3) (1, 5)
  /\ emergency_aStar.default_heuristic (1, 1) (1, 3) = manha_dist (1, 1) (1, 3).
Proof. exact (manha_dist_metric (1, 1) (1, 3) (1, 5)). Defined.

(** The corridor scored by [EasyRule]. *)
Lemma EasyRule_corridor_score :
  Heuristic_body (SM := methods) (PQ := open_map_query) EasyRule corridor
  = Ok (set_f (set_h corridor 4) 20)
  /\ exists v, 0 <= v /\ set_f (set_h corridor 4) 20
                         = set_f (set_h corridor v) (v * 5 + g corridor).
Proof.
  split; [reflexivity|].
  apply (EasyRule_WeightedRule_score (SM := methods) (PQ := open_map_query)
           EasyRule corridor (set_f (set_h corridor 4) 20));
    [left; reflexivity | reflexivity].
Defined.

(** The corridor under the weight key in lower case. *)
Lemma WeightedRule_corridor_dominates :
  goal_colors_known (SM := methods) corridor (getGoalKeys (StateMethods := methods) corridor)
  /\ EasyRule_state (SM := methods) corridor = Ok (set_f (set_h corridor 4) 20)
  /\ WeightedRule_state (SM := methods) "a" corridor = Ok (set_f (set_h corridor 22) 110)
  /\ exists scored',
       WeightedRule_state (SM := methods) "a" corridor = Ok scored'
       /\ h (set_f (set_h corridor 4) 20) <= h scored'
       /\ ((forall key, In key (getGoalKeys (StateMethods := methods) corridor) ->
                        String.eqb (lower key) "a" = false) ->
           scored' = set_f (set_h corridor 4) 20).
Proof.
  assert (Hk : goal_colors_known (SM := methods) corridor
                 (getGoalKeys (StateMethods := methods) corridor)).
  { intros key pos col [<- | []] [E | []]. injection E as <- <-. reflexivity. }
  split; [exact Hk|]. split; [reflexivity|]. split; [reflexivity|].
  exact (WeightedRule_dominates_EasyRule (SM := methods) "a" corridor
           (set_f (set_h corridor 4) 20) Hk eq_refl).
Defined.

(** The corridor scored by the kernel of [emergency_aStar.py]. *)
Lemma calc_heuristic_for_corridor :
  emergency_aStar.calc_heuristic_for (SM := methods) [corridor]
  = Ok [set_f (set_h corridor 4) 4]
  /\ Forall2 (fun state state' =>
                exists v, 0 <= v /\ state' = set_f (set_h state v) (g state + v))
       [corridor] [set_f (set_h corridor 4) 4].
Proof.
  split; [reflexivity|].
  exact (emergency_aStar_more.calc_heuristic_for_score (SM := methods) [corridor]
           [set_f (set_h corridor 4) 4] eq_refl).
Defined.

(** The corridor without goals. *)
Lemma kernel_corridor_no_goals :
  getGoalKeys (StateMethods := methods) corridor_no_goals = []
  /\ emergency_aStar.BestFirstSearch_init (SM := methods) corridor_no_goals None
     = Raise ValueError
  /\ (forall fuel count_,
        emergency_aStar_func.aStarSearch_func (SM := methods) fuel count_ corridor_no_goals
        = Some (Raise ValueError))
  /\ Heuristic_call (SM := methods) (PQ := open_map_query) EasyRule [corridor_no_goals]
     = Ok ([set_f (set_h corridor_no_goals 0) (g corridor_no_goals)], None).
Proof.
  split; [reflexivity|].
  exact (emergency_aStar_more.kernel_without_goals_raises (SM := methods)
           (PQ := open_map_query) corridor_no_goals None eq_refl).
Defined.

(** One step of the kernel from the corridor: one successor, counter 1. *)
Lemma get_and_remove_leaf_corridor :
  let s := emergency_aStar.mkSearch [] None (set_f (set_h corridor 4) 4) 0 in
  exists s',
    emergency_aStar.get_and_remove_leaf (SM := methods) s = Ok s'
    /\ emergency_aStar.count s' = 1
    /\ (List.length (emergency_aStar.frontier s') + 1 = 0 + 1)%nat.
Proof.
  intros s.
  destruct (emergency_aStar.get_and_remove_leaf (SM := methods) s) as [s'|] eqn:E;
    [|vm_compute in E; discriminate].
  exists s'. split; [reflexivity|].
  destruct (proj1 (emergency_aStar_more.get_and_remove_leaf_account (SM := methods) s)
              s' E) as (Hc & Hl & _).
  split; [exact Hc | exact Hl].
Defined.

(** The search function of the first version on the corridor with pushes. *)
Lemma aStarSearch_func_corridor :
  exists path leaf' count',
    emergency_aStar_func.aStarSearch_func (SM := methods_push) 20 0 corridor
    = Some (Ok (path, leaf', count'))
    /\ path = ["Move(E)"; "Push(E,E)"; "Push(E,E)"]
    /\ isGoalState (StateMethods := methods_push) leaf' = true
    /\ path = bestPath (StateMethods := methods_push) leaf'
    /\ 0 <= count'.
Proof.
  destruct (emergency_aStar_func.aStarSearch_func (SM := methods_push) 20 0 corridor)
    as [[[[path leaf'] count']|e]|] eqn:E; try (vm_compute in E; discriminate).
  exists path, leaf', count'. split; [reflexivity|]. split.
  - vm_compute in E. injection E as <- _ _. reflexivity.
  - exact (emergency_aStar_more.aStarSearch_func_sound (SM := methods_push) 20 0 count'
             corridor leaf' path E).
Defined.

(** Probes in the room with the inner wall: from (1,1) the corner (3,5) is
    visible, from (1,2) the corner (3,3) is not. *)
Lemma getValidKeypoint_room :
  getValidKeypoint room (1, 1) (3, 5) [] = Ok [(3, 5)]
  /\ Forall (free_cell room) (L_path (1, 1) (3, 5))
  /\ getValidKeypoint room (1, 2) (3, 3) [] = Ok []
  /\ ~ Forall (free_cell room) (L_path (1, 2) (3, 3)).
Proof.
  split; [reflexivity|]. split.
  - apply (proj1 (proj2 (getValidKeypoint_visible room (1, 1) (3, 5) []))). reflexivity.
  - split; [reflexivity|]. intros Hf.
    apply (proj1 (proj2 (getValidKeypoint_visible room (1, 2) (3, 3) []))) in Hf.
    discriminate.
Defined.

(** The anchors of the cell (1,2) of the room. *)
Lemma findBestKeyPoint_room :
  findBestKeyPoint room room_corners (1, 2) = Ok [(1, 1); (1, 3); (1, 5)]
  /\ (List.length [(1, 1); (1, 3); (1, 5)] <= 4)%nat
  /\ (forall kp, In kp [(1, 1); (1, 3); (1, 5)] ->
        In kp room_corners /\ Forall (free_cell room) (L_path (1, 2) kp))
  /\ StronglySorted (fun a b => manha_dist (1, 2) a <= manha_dist (1, 2) b)
       [(1, 1); (1, 3); (1, 5)]
  /\ ((List.length [(1, 1); (1, 3); (1, 5)] < 4)%nat ->
      forall kp, In kp room_corners -> Forall (free_cell room) (L_path (1, 2) kp) ->
                 In kp [(1, 1); (1, 3); (1, 5)]).
Proof.
  split; [reflexivity|].
  exact (findBestKeyPoint_anchors room room_corners (1, 2) [(1, 1); (1, 3); (1, 5)]
           eq_refl).
Defined.

(** The graph of the contour of the wide room: the four corners are marked
    on the array and joined along the ring; a contour with a corner below
    the last row raises [IndexError]. *)
Lemma generateGraph_wide_room :
  (exists uniqueCorners sets G,
     generateGraph wide_room wide_room_contours
     = Ok (uniqueCorners, sets, G,
           ["+++++++++"; "+O     O+"; "+ +++++ +"; "+O     O+"; "+++++++++"])
     /\ sets = [[(1, 1); (3, 1); (3, 7); (1, 7)]]
     /\ G = [((1, 1), (3, 1), 2); ((3, 1), (1, 1), 2);
             ((3, 1), (3, 7), 6); ((3, 7), (3, 1), 6);
             ((3, 7), (1, 7), 2); ((1, 7), (3, 7), 2)]
     /\ (forall x, In x uniqueCorners ->
           in_bounds wide_room x
           /\ np_get ["+++++++++"; "+O     O+"; "+ +++++ +"; "+O     O+"; "+++++++++"] x
              = Ok "O"%char)
     /\ NoDup uniqueCorners
     /\ (forall x, In x uniqueCorners <-> exists cs, In cs wide_room_contours /\ In x cs)
     /\ edges_ok (fun x => In x uniqueCorners) G)
  /\ np_get wide_room (5, 1) = Raise IndexError
  /\ generateGraph wide_room [[(3, 1); (5, 1)]] = Raise IndexError.
Proof.
  split; [|split; [reflexivity|]].
  - destruct (generateGraph wide_room wide_room_contours)
      as [[[[uniqueCorners sets] G] m']|] eqn:E; [|vm_compute in E; discriminate].
    assert (Hm : m' = ["+++++++++"; "+O     O+"; "+ +++++ +"; "+O     O+"; "+++++++++"])
      by (vm_compute in E; injection E as _ _ _ <-; reflexivity).
    assert (Hs : sets = [[(1, 1); (3, 1); (3, 7); (1, 7)]])
      by (vm_compute in E; injection E as _ <- _ _; reflexivity).
    assert (HG : G = [((1, 1), (3, 1), 2); ((3, 1), (1, 1), 2);
                      ((3, 1), (3, 7), 6); ((3, 7), (3, 1), 6);
                      ((3, 7), (1, 7), 2); ((1, 7), (3, 7), 2)])
      by (vm_compute in E; injection E as _ _ <- _; reflexivity).
    exists uniqueCorners, sets, G. rewrite <- Hm.
    split; [reflexivity|]. split; [exact Hs|]. split; [exact HG|].
    exact (proj2 (proj2 (generateGraph_edges wide_room wide_room_contours))
             uniqueCorners sets G m' E).
  - apply (proj1 (generateGraph_edges wide_room [[(3, 1); (5, 1)]])).
    right. exists [(3, 1); (5, 1)], (5, 1).
    split; [now left|]. split; [right; now left | reflexivity].
Defined.

(** A line of a level with the agent outside the wall. *)
Lemma _formatl_line :
  _formatl "  +A 0+" = "+++A 0+"
  /\ String.length (_formatl "  +A 0+") = String.length "  +A 0+"
  /\ _formatl (_formatl "  +A 0+") = _formatl "  +A 0+"
  /\ _formatl "  +A 0+" = pad_plus 3 "A 0+".
Proof.
  split; [reflexivity|].
  destruct (_formatl_shape "  +A 0+") as (Hl & Hi & Hs & _).
  split; [exact Hl|]. split; [exact Hi|].
  apply (Hs "  " "A 0+" eq_refl).
  intros i c Hg. destruct i as [|[|i]]; simpl in Hg; try discriminate;
    injection Hg as <-; split; discriminate.
Defined.

End ConcreteMore.

(** ** The contours of dGraph *)

Section ContourFacts.
Context {SO : SetOrder}.

Lemma set_add_from (s : list Pos) (x p : Pos) : In p (set_add s x) -> p = x \/ In p s.
Proof. intros H. now apply set_add_In in H. Qed.

Lemma checkAndAddCorner_free (m : list string) (corners corners' : list Pos)
  (cornerPos : Pos) (b : bool) :
  checkAndAddCorner m corners cornerPos = Ok (b, corners') ->
  Forall (free_cell m) corners -> Forall (free_cell m) corners'.
Proof.
  unfold checkAndAddCorner.
  destruct (np_get m cornerPos) as [ch|] eqn:Eg; cbn [Res_bind]; [|discriminate].
  destruct (Ascii.eqb ch "+") eqn:Ech; intros E Hf; injection E as _ <-; [exact Hf|].
  apply Forall_app. split; [exact Hf|]. constructor; [|constructor].
  exists ch. split; [exact Eg | now apply Ascii.eqb_neq].
Qed.

Lemma addCorner_keeps (m : list string) (newPos pos : Pos) (dir prevDir : Z)
  (explored_ corners explored' corners' : list Pos) (b : bool) :
  addCorner m newPos pos dir prevDir explored_ corners = Ok (b, explored', corners') ->
  (Forall (free_cell m) corners -> Forall (free_cell m) corners')
  /\ (forall p, In p explored' -> In p explored_ \/ np_get m p = Ok "+"%char)
  /\ (b = true -> free_cell m newPos).
Proof.
  unfold addCorner.
  destruct (np_get m newPos) as [ch|] eqn:Eg; cbn [Res_bind]; [|discriminate].
  destruct (Ascii.eqb ch "+") eqn:Ech; simpl.
  - intros E. injection E as <- <- <-. split; [auto|]. split; [|discriminate].
    intros p Hp. apply set_add_from in Hp. destruct Hp as [-> | Hp]; [right | now left].
    apply Ascii.eqb_eq in Ech. subst ch. exact Eg.
  - assert (Hfree : free_cell m newPos)
      by (exists ch; split; [exact Eg | now apply Ascii.eqb_neq]).
    destruct (negb (existsb (Pos_eqb newPos) explored_)).
    + destruct (dir - prevDir =? -1).
      * destruct (checkAndAddCorner m corners pos) as [[b0 corners0]|] eqn:Ec;
          cbn [Res_bind]; [|discriminate].
        intros E. injection E as <- <- <-. split; [|split; auto].
        now apply (checkAndAddCorner_free _ _ _ _ _ Ec).
      * intros E. injection E as <- <- <-. auto.
    + intros E. injection E as <- <- <-. split; [auto|]. split; [auto | discriminate].
Qed.

Lemma turn_keeps (m : list string) (initPos : Pos) (explored0 : list Pos) (j : nat) :
  forall w w',
    turn j m initPos w = Ok w' ->
    Forall (free_cell m) (w_corners w) ->
    (forall p, In p (w_explored w) -> In p explored0 \/ np_get m p = Ok "+"%char) ->
    Forall (free_cell m) (w_corners w')
    /\ (forall p, In p (w_explored w') -> In p explored0 \/ np_get m p = Ok "+"%char).
Proof.
  induction j as [|j IH]; intros w w'; simpl.
  - intros E. injection E as <-. auto.
  - destruct (dirs_get (w_dir w + 1)) as [step|]; cbn [Res_bind]; [|discriminate].
    destruct (addCorner m _ (w_pos w) (w_dir w + 1) (w_prevDir w) (w_explored w)
                (w_corners w)) as [[[moved explored_] corners]|] eqn:Ea;
      cbn [Res_bind]; [|discriminate].
    destruct (addCorner_keeps _ _ _ _ _ _ _ _ _ _ Ea) as (Hc & He & _).
    intros E Hf Hx.
    assert (Hx' : forall p, In p explored_ -> In p explored0 \/ np_get m p = Ok "+"%char).
    { intros p Hp. destruct (He p Hp) as [H | H]; [now apply Hx | now right]. }
    destruct moved.
    + injection E as <-. simpl. split; [now apply Hc | exact Hx'].
    + apply (IH _ _ E); simpl; [now apply Hc | exact Hx'].
Qed.

Lemma findEdges_loop_keeps (m : list string) (initPos : Pos) (explored0 : list Pos)
  (fuel : nat) :
  forall w w',
    findEdges_loop fuel m initPos w = Ok w' ->
    Forall (free_cell m) (w_corners w) ->
    (forall p, In p (w_explored w) -> In p explored0 \/ np_get m p = Ok "+"%char) ->
    Forall (free_cell m) (w_corners w')
    /\ (forall p, In p (w_explored w') -> In p explored0 \/ np_get m p = Ok "+"%char).
Proof.
  induction fuel as [|fuel IH]; intros w w'; cbn [findEdges_loop].
  - destruct (w_isDone w); [|discriminate]. intros E. injection E as <-. auto.
  - destruct (w_isDone w). { intros E. injection E as <-. auto. }
    destruct (turn 4 m initPos w) as [w1|] eqn:Et; cbn [Res_bind]; [|discriminate].
    intros E Hf Hx. destruct (turn_keeps _ _ explored0 _ _ _ Et Hf Hx) as [Hf1 Hx1].
    apply (IH _ _ E); simpl; assumption.
Qed.

(** The corners of a walk are free cells. *)
Lemma findEdges_free (fuel : nat) (initPos : Pos) (m : list string)
  (explored_ corners explored' : list Pos) :
  findEdges fuel initPos m explored_ = Ok (corners, explored') ->
  Forall (free_cell m) corners.
Proof.
  unfold findEdges.
  destruct (findEdges_loop fuel m initPos _) as [w|] eqn:El; cbn [Res_bind];
    [|discriminate].
  intros E. injection E as <- _.
  apply (findEdges_loop_keeps _ _ explored_ _ _ _ El); simpl; [constructor | auto].
Qed.

(** X22: the corners [findEdges] returns are cells of the map that are not
    walls, and the cells it adds to [explored] are walls. *)
Theorem findEdges_corners_free (fuel : nat) (initPos : Pos) (m : list string)
  (explored_ corners explored' : list Pos) :
  findEdges fuel initPos m explored_ = Ok (corners, explored') ->
  Forall (free_cell m) corners
  /\ (forall p, In p explored' -> In p explored_ \/ np_get m p = Ok "+"%char).
Proof.
  unfold findEdges.
  destruct (findEdges_loop fuel m initPos _) as [w|] eqn:El; cbn [Res_bind];
    [|discriminate].
  intros E. injection E as <- <-.
  apply (findEdges_loop_keeps _ _ explored_ _ _ _ El); simpl; [constructor | auto].
Qed.

Lemma for_range_inv {S : Type} (I : S -> Prop) (body : Z -> S -> Res S) :
  (forall x s s', body x s = Ok s' -> I s -> I s') ->
  forall n lo s s', for_range n lo body s = Ok s' -> I s -> I s'.
Proof.
  intros Hb. induction n as [|n IH]; intros lo s s'; simpl.
  - intros E. now injection E as <-.
  - destruct (body lo s) as [s1|] eqn:Eb; cbn [Res_bind]; [|discriminate].
    intros E Hs. apply (IH _ _ _ E). now apply (Hb lo s).
Qed.

Lemma edges_ok_weaken (P Q : Pos -> Prop) (G : Graph) :
  (forall x, P x -> Q x) -> edges_ok P G -> edges_ok Q G.
Proof.
  intros HPQ Hok u v w Hin. destruct (Hok u v w Hin) as (H1 & H2 & H3 & H4 & H5).
  repeat split; auto.
Qed.

(** X23: the keypoint graph [build_graph] returns has only free cells as
    nodes: every corner it collects, and so both ends of every edge, is a
    cell of the map that is not a wall; and no corner set is empty. *)
Theorem build_graph_nodes_free (fuel : nat) (m : list string)
  (uniqueCorners : list Pos) (sets : list (list Pos)) (G : Graph) :
  build_graph fuel m = Ok (uniqueCorners, sets, G) ->
  Forall (free_cell m) uniqueCorners
  /\ edges_ok (free_cell m) G
  /\ NoDup uniqueCorners
  /\ Forall (fun cs => cs <> []) sets.
Proof.
  unfold build_graph. destruct m as [|row0 m']; [discriminate|].
  set (mm := row0 :: m').
  destruct (for_range _ 0 _ []) as [e1|]; cbn [Res_bind]; [|discriminate].
  destruct (for_range _ 0 _ e1) as [e2|]; cbn [Res_bind]; [|discriminate].
  destruct (for_range _ 1 _ (e2, [])) as [[e3 cornerSets]|] eqn:Escan;
    cbn [Res_bind]; [|discriminate].
  assert (Hsets : Forall (fun cs => Forall (free_cell mm) cs /\ cs <> []) cornerSets).
  { refine (for_range_inv
              (fun s => Forall (fun cs => Forall (free_cell mm) cs /\ cs <> []) (snd s))
              _ _ _ _ _ _ Escan _); [|constructor].
    intros col s s' Ecol Hs.
    refine (for_range_inv
              (fun s => Forall (fun cs => Forall (free_cell mm) cs /\ cs <> []) (snd s))
              _ _ _ _ _ _ Ecol Hs).
    clear. intros row [ex cs] [ex' cs']. unfold scan_cell.
    destruct (np_get mm (row, col)) as [ch|]; cbn [Res_bind]; [|discriminate].
    destruct (Ascii.eqb ch "+"); [|intros E; now injection E as <- <-].
    destruct (np_get mm (row, col - 1)) as [ch'|]; cbn [Res_bind]; [|discriminate].
    destruct (negb (Ascii.eqb ch' "+") && negb (existsb (Pos_eqb (row, col)) ex));
      [|intros E; now injection E as <- <-].
    destruct (findEdges fuel (row, col - 1) mm ex) as [[corners ex1]|] eqn:Ef;
      cbn [Res_bind]; [|discriminate].
    pose proof (findEdges_free _ _ _ _ _ _ Ef) as Hfree.
    destruct corners as [|c0 corners]; simpl; intros E; injection E as <- <-;
      simpl; intros Hs; [exact Hs|].
    apply Forall_app. split; [exact Hs|]. constructor; [|constructor].
    split; [exact Hfree | discriminate]. }
  destruct (generateGraph mm cornerSets) as [[[[uc sets'] G'] marked]|] eqn:Egen;
    cbn [Res_bind]; [|discriminate].
  intros E. injection E as -> -> ->.
  destruct (generateGraph_sound _ _ _ _ _ _ Egen)
    as ((first & others & -> & ->) & _ & Hnd & Hmem & Hok).
  assert (Hfree : forall x, In x uniqueCorners -> free_cell mm x).
  { intros x Hx. apply Hmem in Hx. destruct Hx as (cs & Hcs & Hxcs).
    rewrite Forall_forall in Hsets. destruct (Hsets cs Hcs) as [Hf _].
    rewrite Forall_forall in Hf. now apply Hf. }
  split; [now apply Forall_forall|]. split; [now apply (edges_ok_weaken _ _ _ Hfree)|].
  split; [exact Hnd|].
  inversion Hsets as [|? ? [_ Hne] Hrest]; subst. constructor.
  - intros Hr. apply Hne. destruct first as [|c0 first']; [reflexivity|].
    exfalso. assert (Hin : In c0 (rotate_last (c0 :: first')))
      by (apply rotate_last_In; now left). rewrite Hr in Hin. exact Hin.
  - eapply Forall_impl; [|exact Hrest]. simpl. now intros cs [_ H].
Qed.

End ContourFacts.

Section EnclosedFacts.

Lemma addCorner_wall (m : list string) (newPos pos : Pos) (dir prevDir : Z)
  (explored_ corners : list Pos) :
  np_get m newPos = Ok "+"%char ->
  addCorner m newPos pos dir prevDir explored_ corners
  = Ok (false, set_add explored_ newPos, corners).
Proof. intros H. unfold addCorner. rewrite H. reflexivity. Qed.

Lemma turn_enclosed (m : list string) (initPos : Pos) (w : Walk) :
  (forall step, In step [(0, 1); (1, 0); (0, -1); (-1, 0)] ->
     np_get m (fst initPos + fst step, snd initPos + snd step) = Ok "+"%char) ->
  w_pos w = initPos ->
  w_dir w = -1 \/ w_dir w = -2 ->
  exists explored',
    turn 4 m initPos w
    = Ok (mkWalk (w_dir w + 4) (w_prevDir w) initPos (w_corners w) (w_initDir w)
            (w_isDone w) explored').
Proof.
  intros Hw Hpos Hdir.
  pose proof (Hw (0, 1) ltac:(simpl; auto)) as H1.
  pose proof (Hw (1, 0) ltac:(simpl; auto)) as H2.
  pose proof (Hw (0, -1) ltac:(simpl; auto)) as H3.
  pose proof (Hw (-1, 0) ltac:(simpl; auto 6)) as H4.
  cbn [fst snd] in H1, H2, H3, H4.
  destruct w as [dir prevDir pos corners initDir isDone explored_].
  cbn [w_pos w_dir w_prevDir w_corners w_initDir w_isDone] in *. subst pos.
  destruct Hdir as [-> | ->]; cbn [turn w_dir w_pos w_prevDir w_explored w_corners
                                     w_initDir w_isDone].
  - change (dirs_get (-1 + 1)) with (Ok (A := Pos) (0, 1)). cbn [Res_bind fst snd].
    rewrite (addCorner_wall _ _ _ _ _ _ _ H1). cbn [Res_bind].
    change (dirs_get (-1 + 1 + 1)) with (Ok (A := Pos) (1, 0)). cbn [Res_bind fst snd].
    rewrite (addCorner_wall _ _ _ _ _ _ _ H2). cbn [Res_bind].
    change (dirs_get (-1 + 1 + 1 + 1)) with (Ok (A := Pos) (0, -1)). cbn [Res_bind fst snd].
    rewrite (addCorner_wall _ _ _ _ _ _ _ H3). cbn [Res_bind].
    change (dirs_get (-1 + 1 + 1 + 1 + 1)) with (Ok (A := Pos) (-1, 0)).
    cbn [Res_bind fst snd].
    rewrite (addCorner_wall _ _ _ _ _ _ _ H4). cbn [Res_bind].
    eexists. reflexivity.
  - change (dirs_get (-2 + 1)) with (Ok (A := Pos) (-1, 0)). cbn [Res_bind fst snd].
    rewrite (addCorner_wall _ _ _ _ _ _ _ H4). cbn [Res_bind].
    change (dirs_get (-2 + 1 + 1)) with (Ok (A := Pos) (0, 1)). cbn [Res_bind fst snd].
    rewrite (addCorner_wall _ _ _ _ _ _ _ H1). cbn [Res_bind].
    change (dirs_get (-2 + 1 + 1 + 1)) with (Ok (A := Pos) (1, 0)). cbn [Res_bind fst snd].
    rewrite (addCorner_wall _ _ _ _ _ _ _ H2). cbn [Res_bind].
    change (dirs_get (-2 + 1 + 1 + 1 + 1)) with (Ok (A := Pos) (0, -1)).
    cbn [Res_bind fst snd].
    rewrite (addCorner_wall _ _ _ _ _ _ _ H3). cbn [Res_bind].
    eexists. reflexivity.
Qed.

Lemma findEdges_loop_enclosed (m : list string) (initPos : Pos) (fuel : nat) :
  (forall step, In step [(0, 1); (1, 0); (0, -1); (-1, 0)] ->
     np_get m (fst initPos + fst step, snd initPos + snd step) = Ok "+"%char) ->
  forall w,
    w_pos w = initPos -> w_isDone w = false -> w_prevDir w = 0 ->
    w_dir w = -1 \/ w_dir w = -2 ->
    findEdges_loop fuel m initPos w = Raise Blocked.
Proof.
  intros Hw. induction fuel as [|fuel IH]; intros w Hpos Hdone Hprev Hdir;
    cbn [findEdges_loop]; rewrite Hdone; [reflexivity|].
  destruct (turn_enclosed m initPos w Hw Hpos Hdir) as [explored' ->].
  cbn [Res_bind w_prevDir w_pos w_corners w_initDir w_isDone w_explored].
  apply IH; cbn [w_pos w_isDone w_prevDir w_dir]; try assumption; try reflexivity.
  right. rewrite Hprev. reflexivity.
Qed.

(** X24: a walk that starts in a cell with a wall on each of its four sides
    never closes: [findEdges] tries the four directions over and over, so
    for every bound on its rounds the call has not returned. *)
Theorem findEdges_enclosed_never_returns (fuel : nat) (initPos : Pos) (m : list string)
  (explored_ : list Pos) :
  (forall step, In step [(0, 1); (1, 0); (0, -1); (-1, 0)] ->
     np_get m (fst initPos + fst step, snd initPos + snd step) = Ok "+"%char) ->
  findEdges fuel initPos m explored_ = Raise Blocked.
Proof.
  intros Hw. unfold findEdges.
  rewrite (findEdges_loop_enclosed m initPos fuel Hw); [reflexivity | reflexivity..|].
  left. reflexivity.
Qed.

End EnclosedFacts.

(** ** The contour walk on concrete maps *)

Section ConcreteContours.
Import SpecWorld.
#[local] Existing Instance insertion_order.

(** The walk from the cell left of the inner wall of [room] returns the four
    corners of the ring around it, all free, and explores the inner wall. *)
Lemma findEdges_room :
  findEdges 100 (2, 1) room [] = Ok ([(3, 1); (3, 5); (1, 5); (1, 1)], [(2, 2); (2, 3); (2, 4)])
  /\ Forall (free_cell room) [(3, 1); (3, 5); (1, 5); (1, 1)]
  /\ (forall p, In p [(2, 2); (2, 3); (2, 4)] ->
        In p [] \/ np_get room p = Ok "+"%char).
Proof.
  split; [reflexivity|].
  exact (findEdges_corners_free 100 (2, 1) room []
           [(3, 1); (3, 5); (1, 5); (1, 1)] [(2, 2); (2, 3); (2, 4)] eq_refl).
Defined.

(** The graph of [wide_room]: the contour walked is the one of
    [wide_room_contours], and the four corners are free and joined along the
    ring. *)
Lemma build_graph_wide_room :
  exists uniqueCorners G,
    build_graph 100 wide_room
    = Ok (uniqueCorners, [[(1, 1); (3, 1); (3, 7); (1, 7)]], G)
    /\ Forall (free_cell wide_room) uniqueCorners
    /\ edges_ok (free_cell wide_room) G
    /\ NoDup uniqueCorners
    /\ Forall (fun cs => cs <> []) [[(1, 1); (3, 1); (3, 7); (1, 7)]].
Proof.
  destruct (build_graph 100 wide_room) as [[[uc sets] G]|] eqn:E;
    [|vm_compute in E; discriminate].
  assert (Hs : sets = [[(1, 1); (3, 1); (3, 7); (1, 7)]])
    by (vm_compute in E; injection E as _ <- _; reflexivity).
  subst sets. exists uc, G. split; [reflexivity|].
  exact (build_graph_nodes_free 100 wide_room uc _ G E).
Defined.

(** A room of one free cell: the walk from that cell never closes. *)
Lemma findEdges_single_cell :
  findEdges 100 (1, 1) ["+++"; "+ +"; "+++"] [] = Raise Blocked.
Proof.
  apply findEdges_enclosed_never_returns.
  intros step [<- | [<- | [<- | [<- | []]]]]; reflexivity.
Defined.

End ConcreteContours.
